(** * redis-contentful: the synchronisation and query engine of [src/index.js]

    A shallow embedding of the JavaScript module and the proofs of the
    properties its specification states.

    Modelling conventions.
    - JavaScript values are the tree [JsVal]; an object is the ordered list
      of its own properties, an array its elements together with its
      non-positional own properties (an array may carry a [search] term).
      Values are immutable trees, so the content graph is acyclic.
    - Numbers are the integer-valued ones; every number but [0] is truthy.
    - A property read returns the own property.  Names inherited from the
      built-in prototypes are modelled at the one place where the program
      reads a data-controlled name that may be absent ([final[type]] in
      [get]); the configured [locale] and [identifier] are taken not to name
      a built-in member.
    - An asynchronous call that has been dispatched is a settled [Promise]:
      the store executes the commands of its single connection in the order
      in which they were dispatched, and the program observes an outcome
      only where it awaits it. *)

From Stdlib Require Import String Ascii List ZArith Lia Bool Arith.
From Stdlib Require Import DecimalString.
Import ListNotations.
Local Open Scope string_scope.
Local Open Scope list_scope.

(** ** JavaScript values *)

#[warnings="-register-all"]
Inductive JsVal : Type :=
| JUndefined
| JNull
| JBool (b : bool)
| JNum (n : Z)
| JStr (s : string)
| JArr (elems : list JsVal) (props : list (string * JsVal))
| JObj (props : list (string * JsVal)).

(** Nesting depth of a value; primitives have depth 0. *)
Fixpoint depth (v : JsVal) : nat :=
  match v with
  | JArr elems props =>
      S (Nat.max (list_max (map depth elems))
                 (list_max (map (fun p => depth (snd p)) props)))
  | JObj props => S (list_max (map (fun p => depth (snd p)) props))
  | _ => 0
  end.

(** [ToBoolean]. *)
Definition truthy (v : JsVal) : bool :=
  match v with
  | JUndefined | JNull => false
  | JBool b => b
  | JNum n => negb (Z.eqb n 0)
  | JStr s => negb (String.eqb s "")
  | JArr _ _ | JObj _ => true
  end.

(** [a && b] and [a || b] on values (the right operand is pure wherever the
    program uses them). *)
Definition js_and (a b : JsVal) : JsVal := if truthy a then b else a.
Definition js_or (a b : JsVal) : JsVal := if truthy a then a else b.

Definition typeof_string (v : JsVal) : bool :=
  match v with JStr _ => true | _ => false end.
Definition typeof_number (v : JsVal) : bool :=
  match v with JNum _ => true | _ => false end.
Definition instanceof_Array (v : JsVal) : bool :=
  match v with JArr _ _ => true | _ => false end.
Definition instanceof_Object (v : JsVal) : bool :=
  match v with JArr _ _ | JObj _ => true | _ => false end.

Definition string_of_Z (n : Z) : string :=
  NilZero.string_of_int (Z.to_int n).
Definition string_of_nat (n : nat) : string :=
  NilZero.string_of_uint (Nat.to_uint n).

Fixpoint join (sep : string) (l : list string) : string :=
  match l with
  | [] => ""
  | [x] => x
  | x :: rest => x ++ sep ++ join sep rest
  end.

(** [ToString], as a template literal applies it. *)
Fixpoint to_string (v : JsVal) : string :=
  match v with
  | JUndefined => "undefined"
  | JNull => "null"
  | JBool true => "true"
  | JBool false => "false"
  | JNum n => string_of_Z n
  | JStr s => s
  | JArr elems _ =>
      join "," (map (fun e => match e with
                              | JUndefined | JNull => ""
                              | _ => to_string e
                              end) elems)
  | JObj _ => "[object Object]"
  end.

(** *** Own properties *)

Fixpoint assoc {A : Type} (k : string) (l : list (string * A)) : option A :=
  match l with
  | [] => None
  | (k', v) :: rest => if String.eqb k k' then Some v else assoc k rest
  end.

(** Assignment [o[k] = v]: an existing key keeps its position. *)
Fixpoint set_prop {A : Type} (k : string) (v : A) (l : list (string * A))
  : list (string * A) :=
  match l with
  | [] => [(k, v)]
  | (k', v') :: rest =>
      if String.eqb k k' then (k, v) :: rest else (k', v') :: set_prop k v rest
  end.

(** A canonical array index: the decimal numeral of a natural number. *)
Definition parse_index (k : string) : option nat :=
  match NilEmpty.uint_of_string k with
  | Some u =>
      let n := Nat.of_uint u in
      if String.eqb (string_of_nat n) k then Some n else None
  | None => None
  end.

Fixpoint chars (s : string) : list JsVal :=
  match s with
  | EmptyString => []
  | String c rest => JStr (String c EmptyString) :: chars rest
  end.

(** [v[k]] for a value that is neither [undefined] nor [null]. *)
Definition prop (v : JsVal) (k : string) : JsVal :=
  match v with
  | JObj props => match assoc k props with Some x => x | None => JUndefined end
  | JArr elems props =>
      if String.eqb k "length" then JNum (Z.of_nat (List.length elems))
      else match parse_index k with
           | Some i => nth i elems JUndefined
           | None => match assoc k props with Some x => x | None => JUndefined end
           end
  | JStr s =>
      if String.eqb k "length" then JNum (Z.of_nat (String.length s))
      else match parse_index k with
           | Some i => nth i (chars s) JUndefined
           | None => JUndefined
           end
  | _ => JUndefined
  end.

(** [Object.keys(v)]. *)
Definition object_keys (v : JsVal) : list string :=
  match v with
  | JObj props => map fst props
  | JArr elems props =>
      map string_of_nat (seq 0 (List.length elems)) ++ map fst props
  | JStr s => map string_of_nat (seq 0 (String.length s))
  | _ => []
  end.

(** ** Errors and completions *)

Inductive JsError : Type :=
| TypeError (msg : string)
| SyntaxError (msg : string)
| ReplyError (msg : string)
| RemoteError (msg : string)
| Error_ (msg : string).

Definition error_to_string (e : JsError) : string :=
  match e with
  | TypeError m => "TypeError: " ++ m
  | SyntaxError m => "SyntaxError: " ++ m
  | ReplyError m => "ReplyError: " ++ m
  | RemoteError m => "Error: " ++ m
  | Error_ m => "Error: " ++ m
  end.

(** The outcome of an evaluation, and of a settled promise. *)
Inductive Outcome (A : Type) : Type :=
| Resolved (a : A)
| Rejected (e : JsError).
Arguments Resolved {A} a.
Arguments Rejected {A} e.

(** [v.k], which throws on [undefined] and [null]. *)
Definition getp (v : JsVal) (k : string) : Outcome JsVal :=
  match v with
  | JUndefined | JNull =>
      Rejected (TypeError ("Cannot read property '" ++ k ++ "' of " ++ to_string v))
  | _ => Resolved (prop v k)
  end.

(** ** EntryFlattener: [extract]

    [extract] recurses into the localized values of the fields.  The fuel
    bounds the depth of the recursion; [None] is "out of fuel", and
    [extract_fuel_enough] below shows that the depth of the value is
    always enough. *)

Definition Fueled (A : Type) : Type := option (Outcome A).

Definition fbind {A B : Type} (m : Fueled A) (f : A -> Fueled B) : Fueled B :=
  match m with
  | None => None
  | Some (Rejected e) => Some (Rejected e)
  | Some (Resolved a) => f a
  end.

(** [arr.map(innerData => ex(innerData))]. *)
Fixpoint fmap_list (ex : JsVal -> Fueled JsVal) (l : list JsVal)
  : Fueled (list JsVal) :=
  match l with
  | [] => Some (Resolved [])
  | x :: rest =>
      fbind (ex x) (fun y =>
      fbind (fmap_list ex rest) (fun ys => Some (Resolved (y :: ys))))
  end.

Definition array_elems (v : JsVal) : list JsVal :=
  match v with JArr elems _ => elems | _ => [] end.

(** The value assigned to [details[fieldKey]] (lines 17-30). *)
Definition extract_field (ex : JsVal -> Fueled JsVal)
    (fields : JsVal) (locale fieldKey : string) : Fueled JsVal :=
  let field := prop fields fieldKey in
  let localized := prop field locale in
  if truthy field && instanceof_Array localized then
    fbind (fmap_list ex (array_elems localized))
          (fun ys => Some (Resolved (JArr ys [])))
  else if truthy field && instanceof_Object localized
          && truthy (prop localized "fields") then
    ex localized
  else
    Some (Resolved (js_or (js_and field localized) (JStr ""))).

(** The assignment [details[fieldKey] = v] of lines 18, 26 and 28, on the
    plain object [details].  For the key [__proto__] the assignment runs the
    setter that [details] inherits from [Object.prototype]: the prototype of
    [details] is replaced (by an object) or left alone (by anything else),
    and no own property is added - so that the spread of line 41, which
    copies own properties only, copies nothing for that field. *)
Definition assign_detail (fieldKey : string) (v : JsVal)
    (details : list (string * JsVal)) : list (string * JsVal) :=
  if String.eqb fieldKey "__proto__" then details else set_prop fieldKey v details.

(** [Object.keys(fields).forEach(fieldKey => ...)], threading [details]. *)
Fixpoint extract_details (ex : JsVal -> Fueled JsVal)
    (fields : JsVal) (locale : string) (keys : list string)
    (details : list (string * JsVal)) : Fueled (list (string * JsVal)) :=
  match keys with
  | [] => Some (Resolved details)
  | fieldKey :: rest =>
      fbind (extract_field ex fields locale fieldKey) (fun v =>
      extract_details ex fields locale rest (assign_detail fieldKey v details))
  end.

(** [...(ct && ct.sys && ct.sys.id && { type: ct.sys.id })]: the own
    properties the spread contributes. *)
Definition spread_type (sys : JsVal) : list (string * JsVal) :=
  let ct := prop sys "contentType" in
  if truthy ct && truthy (prop ct "sys") && truthy (prop (prop ct "sys") "id")
  then [("type", prop (prop ct "sys") "id")]
  else [].

(** [{ ...base, ...details }]. *)
Definition spread (base details : list (string * JsVal)) : list (string * JsVal) :=
  fold_left (fun acc kv => set_prop (fst kv) (snd kv) acc) details base.

Fixpoint extract_fuel (fuel : nat) (data : JsVal) (locale : string)
  : Fueled JsVal :=
  match fuel with
  | O => None
  | S fuel' =>
      if truthy (js_and data (prop data "fields")) then
        let fields := prop data "fields" in
        fbind (extract_details (fun d => extract_fuel fuel' d locale)
                 fields locale (object_keys fields) [])
          (fun details =>
             let sys := prop data "sys" in
             match getp sys "id" with
             | Rejected e => Some (Rejected e)
             | Resolved id =>
                 Some (Resolved (JObj
                   (spread ([("id", id)] ++ spread_type sys
                              ++ [("createdAt", prop sys "createdAt");
                                  ("updatedAt", prop sys "updatedAt")])
                           details)))
             end)
      else if typeof_string data || typeof_number data then
        Some (Resolved data)
      else Some (Resolved JUndefined)
  end.

Definition extract (data : JsVal) (locale : string) : Outcome JsVal :=
  match extract_fuel (S (depth data)) data locale with
  | Some r => r
  | None => Rejected (Error_ "extract: out of fuel")
  end.

(** Evaluations that may throw, sequenced. *)
Definition obind {A B : Type} (m : Outcome A) (f : A -> Outcome B) : Outcome B :=
  match m with
  | Resolved a => f a
  | Rejected e => Rejected e
  end.

Declare Scope js_scope.
Delimit Scope js_scope with js.
Notation "'try' x ':=' m 'in' k" := (obind m (fun x => k))
  (at level 10, x name, m at level 100, k at level 200) : js_scope.
Local Open Scope js_scope.

(** [for (const x of v)]: the values the iteration visits. *)
Definition iterate (v : JsVal) (what : string) : Outcome (list JsVal) :=
  match v with
  | JArr elems _ => Resolved elems
  | JStr s => Resolved (chars s)
  | _ => Rejected (TypeError (what ++ " is not iterable"))
  end.

(** [key.split(':').shift()] on a string. *)
Fixpoint before_colon (s : string) : string :=
  match s with
  | EmptyString => ""
  | String c rest =>
      if Ascii.eqb c ":" then "" else String c (before_colon rest)
  end.

(** KeyScheme: the type a cache key is grouped under (line 212). *)
Definition parseType (key : JsVal) : Outcome string :=
  match key with
  | JStr s => Resolved (before_colon s)
  | _ => Rejected (TypeError "keys[index].split is not a function")
  end.

(** The members every object literal inherits from [Object.prototype]:
    reading one of these names from [{}] yields a built-in, which is truthy
    and has no [push]. *)
Definition Object_prototype_names : list string :=
  ["constructor"; "__defineGetter__"; "__defineSetter__"; "hasOwnProperty";
   "__lookupGetter__"; "__lookupSetter__"; "isPrototypeOf";
   "propertyIsEnumerable"; "toString"; "valueOf"; "__proto__";
   "toLocaleString"].

Definition inherited (name : string) : bool :=
  existsb (String.eqb name) Object_prototype_names.

(** [arr.push(v)]. *)
Definition js_push (arr v : JsVal) : Outcome JsVal :=
  match arr with
  | JArr elems props => Resolved (JArr (elems ++ [v]) props)
  | _ => Rejected (TypeError "final[type].push is not a function")
  end.

(** [Array.prototype.concat(...args)]: arrays are spread, other values are
    appended as they are. *)
Definition concat_spread (args : list JsVal) : list JsVal :=
  flat_map (fun a => match a with JArr elems _ => elems | _ => [a] end) args.

(** [l.map(f)] for a callback that may throw. *)
Fixpoint omap {A B : Type} (f : A -> Outcome B) (l : list A) : Outcome (list B) :=
  match l with
  | [] => Resolved []
  | x :: rest =>
      try y := f x in
      try ys := omap f rest in
      Resolved (y :: ys)
  end.

(** A method that only arrays have, called on [v]. *)
Definition as_array (v : JsVal) (method : string) : Outcome (list JsVal) :=
  match v with
  | JArr elems _ => Resolved elems
  | _ => Rejected (TypeError (method ++ " is not a function"))
  end.

(** ** The collaborators

    The key-value store receives commands and answers each with a reply or
    an error; the remote content repository answers a query with a response
    or an error.  Both are parameters of the program. *)

Inductive Command : Type :=
| HGET (key field : string)
| HSET (key field : string) (value : JsVal)
| FLUSHDB
| SET (key : string) (value : JsVal) (expire : option JsVal)
| GET (key : JsVal)
| DEL (keys : JsVal)
| SCAN (cursor pattern : string) (count : option string)
| SELECT (index : JsVal)
| QUIT.

Definition Promise : Type := Outcome JsVal.

Inductive Event : Type :=
| Redis (c : Command) (reply : Promise)
| Contentful (query : JsVal) (response : Promise).

(** The instance fields set by the constructor. *)
Record Config : Type := mkConfig {
  locale : string;
  identifier : option string;
  contentTypes : list string
}.

(** [contentful.locale || 'en-US'], [contentful.identifier],
    [contentful.contentTypes || []] (lines 64-66). *)
Definition new_Config (locale_opt identifier_opt : option string)
    (contentTypes_opt : option (list string)) : Config :=
  mkConfig
    (match locale_opt with
     | Some l => if String.eqb l "" then "en-US" else l
     | None => "en-US"
     end)
    identifier_opt
    (match contentTypes_opt with Some l => l | None => [] end).

(** The property name [this.identifier] denotes in [fields[this.identifier]]. *)
Definition identifier_key (cfg : Config) : string :=
  match identifier cfg with Some i => i | None => "undefined" end.

(** The instance the constructor builds: the options it passes to the two
    client factories, and the fields it sets. *)
Record Instance : Type := mkInstance {
  redis_options : JsVal;
  contentful_options : JsVal;
  this_locale : JsVal;
  this_identifier : JsVal;
  this_contentTypes : JsVal
}.

(** [...(v)] in an object literal: the own properties [v] contributes. *)
Definition spread_props (v : JsVal) : list (string * JsVal) :=
  map (fun k => (k, prop v k)) (object_keys v).

Section Program.

Variable St : Type.
Variable exec : Command -> St -> Promise * St.
Variable cfSync : JsVal -> Promise.
Variable JSON_stringify : JsVal -> JsVal.
Variable JSON_parse : JsVal -> Outcome JsVal.

(** *** Runs: outcome, final store, events in the order they happened *)

Record Run (A : Type) : Type := mkRun {
  result : Outcome A;
  store : St;
  trace : list Event
}.
Arguments mkRun {A} _ _ _.
Arguments result {A} _.
Arguments store {A} _.
Arguments trace {A} _.

Definition M (A : Type) : Type := St -> Run A.

Definition ret {A : Type} (a : A) : M A := fun s => mkRun (Resolved a) s [].

Definition lift {A : Type} (o : Outcome A) : M A := fun s => mkRun o s [].

Definition bind {A B : Type} (m : M A) (f : A -> M B) : M B :=
  fun s =>
    let r := m s in
    match result r with
    | Resolved a =>
        let r' := f a (store r) in
        mkRun (result r') (store r') (trace r ++ trace r')
    | Rejected e => mkRun (Rejected e) (store r) (trace r)
    end.

Notation "x <- m ;; k" := (bind m (fun x => k))
  (at level 61, m at next level, right associativity) : js_scope.

(** [try { m } catch (error) { h error }]. *)
Definition try_catch {A : Type} (m : M A) (h : JsError -> M A) : M A :=
  fun s =>
    let r := m s in
    match result r with
    | Resolved _ => r
    | Rejected e =>
        let r' := h e (store r) in
        mkRun (result r') (store r') (trace r ++ trace r')
    end.

(** Sending a command: the store executes it now, the caller holds the
    promise of its reply. *)
Definition dispatch (c : Command) : M Promise :=
  fun s => let (p, s') := exec c s in mkRun (Resolved p) s' [Redis c p].

(** [await p]. *)
Definition await (p : Promise) : M JsVal := lift p.

(** An [async] method: the call returns the promise of its body's outcome
    and never throws. *)
Definition async (body : M JsVal) : M Promise :=
  fun s => let r := body s in mkRun (Resolved (result r)) (store r) (trace r).

Fixpoint first_rejected (ps : list Promise) : option JsError :=
  match ps with
  | [] => None
  | Rejected e :: _ => Some e
  | Resolved _ :: rest => first_rejected rest
  end.

Definition resolved_value (p : Promise) : JsVal :=
  match p with Resolved v => v | Rejected _ => JUndefined end.

(** [Promise.all(ps)]: replies arrive in dispatch order, so the first
    rejection in the list is the one that settles it. *)
Definition Promise_all (ps : list Promise) : Outcome (list JsVal) :=
  match first_rejected ps with
  | Some e => Rejected e
  | None => Resolved (map resolved_value ps)
  end.

(** The promisified store functions of the constructor (lines 69-74). *)
Definition rGet (key : JsVal) : M Promise := dispatch (GET key).
Definition rScan (cursor pattern : string) (count : option string) : M Promise :=
  dispatch (SCAN cursor pattern count).
Definition rSet (key : string) (value : JsVal) : M Promise :=
  dispatch (SET key value None).
Definition rHGet (key field : string) : M Promise := dispatch (HGET key field).
Definition rHSet (key field : string) (value : JsVal) : M Promise :=
  dispatch (HSET key field value).
Definition rDel (keys : JsVal) : M Promise := dispatch (DEL keys).

(** [this.cfClient.sync(query)]. *)
Definition cfClient_sync (query : JsVal) : M Promise :=
  fun s => mkRun (Resolved (cfSync query)) s [Contentful query (cfSync query)].

(** ** SyncCoordinator: [sync] *)

Variable cfg : Config.

(** Lines 82-89: the mode and the cursor. *)
Definition sync_mode (shouldReset : JsVal) : M (bool * JsVal) :=
  if truthy shouldReset then ret (true, JUndefined)
  else
    p <- rHGet "redis-contentful" "nextSyncToken" ;;
    nextSyncToken <- await p ;;
    ret (negb (truthy nextSyncToken), nextSyncToken).

(** Lines 91-94: the argument of the remote fetch. *)
Definition sync_query (isInitial : bool) (nextSyncToken : JsVal) : JsVal :=
  JObj ((if isInitial then [("initial", JBool true)] else [])
        ++ (if negb isInitial then [("nextSyncToken", nextSyncToken)] else [])).

(** [entry.sys.contentType.sys.id]. *)
Definition content_type_id (entry : JsVal) : Outcome JsVal :=
  try sys := getp entry "sys" in
  try ct := getp sys "contentType" in
  try ctsys := getp ct "sys" in
  getp ctsys "id".

(** [this.contentTypes.indexOf(id) > -1]. *)
Definition allowed (id : JsVal) : bool :=
  match id with
  | JStr t => existsb (String.eqb t) (contentTypes cfg)
  | _ => false
  end.

(** [entries.filter(entry => ...)] of lines 106-109. *)
Fixpoint filter_allowed (entries : list JsVal) : Outcome (list JsVal) :=
  match entries with
  | [] => Resolved []
  | entry :: rest =>
      try id := content_type_id entry in
      try kept := filter_allowed rest in
      Resolved (if allowed id then entry :: kept else kept)
  end.

(** Lines 105-110. *)
Definition final_entries (entries : JsVal) : Outcome (list JsVal) :=
  match contentTypes cfg with
  | [] => as_array entries "response.entries.forEach"
  | _ :: _ =>
      try es := as_array entries "response.entries.filter" in
      filter_allowed es
  end.

(** The identifier part of the key (lines 118-121). *)
Definition identifier_value (entry : JsVal) : JsVal :=
  let fields := prop entry "fields" in
  js_or (js_and fields
           (js_and (prop fields (identifier_key cfg))
                   (prop (prop fields (identifier_key cfg)) (locale cfg))))
        (JStr "").

(** The template literal of lines 118-121. *)
Definition cache_key (entry contentType sys : JsVal) : string :=
  to_string contentType ++ ":" ++ to_string (identifier_value entry)
    ++ ":" ++ to_string (prop sys "id").

(** The callback of [finalEntries.forEach] (lines 113-124): the write it
    dispatches. *)
Definition write_entry (entry : JsVal) : M Promise :=
  sys <- lift (getp entry "sys") ;;
  contentType <- lift (try ct := getp sys "contentType" in
                       try ctsys := getp ct "sys" in
                       getp ctsys "id") ;;
  extracted <- lift (extract entry (locale cfg)) ;;
  rSet (cache_key entry contentType sys) (JSON_stringify extracted).

Fixpoint for_each {A B : Type} (f : A -> M B) (l : list A) : M (list B) :=
  match l with
  | [] => ret []
  | x :: rest =>
      y <- f x ;;
      ys <- for_each f rest ;;
      ret (y :: ys)
  end.

(** Lines 104-126. *)
Definition sync_writes (response : JsVal) : M (list Promise) :=
  entries <- lift (getp response "entries") ;;
  if truthy (js_and entries (prop entries "length")) then
    finalEntries <- lift (final_entries entries) ;;
    for_each write_entry finalEntries
  else ret [].

(** The body of the deletion loop (lines 132-138): the promises it pushes. *)
Definition delete_entry (entry : JsVal) : M (list Promise) :=
  sys <- lift (getp entry "sys") ;;
  id <- lift (getp sys "id") ;;
  p <- rScan "0" ("*:*:" ++ to_string id) None ;;
  responseKey <- await p ;;
  matched <- lift (getp responseKey "1") ;;
  if truthy matched then
    d <- rDel matched ;;
    ret [d]
  else ret [].

(** Lines 129-140. *)
Definition sync_deletes (response : JsVal) : M (list Promise) :=
  deleted <- lift (getp response "deletedEntries") ;;
  if truthy (js_and deleted (prop deleted "length")) then
    ds <- lift (iterate deleted "response.deletedEntries") ;;
    pss <- for_each delete_entry ds ;;
    ret (concat pss)
  else ret [].

(** Lines 96-101: the wipe of an initial sync. *)
Definition sync_flush (isInitial : bool) : M JsVal :=
  if isInitial then
    p <- dispatch FLUSHDB ;;
    await p
  else ret JUndefined.

(** Lines 80-140: everything up to the persisting of the cursor. *)
Definition sync_collect (shouldReset : JsVal) : M (JsVal * list Promise) :=
  mode <- sync_mode shouldReset ;;
  p <- cfClient_sync (sync_query (fst mode) (snd mode)) ;;
  response <- await p ;;
  _ <- sync_flush (fst mode) ;;
  writes <- sync_writes response ;;
  deletes <- sync_deletes response ;;
  ret (response, writes ++ deletes).

(** Lines 142-146. *)
Definition sync_persist (response : JsVal) : M JsVal :=
  p <- rHSet "redis-contentful" "nextSyncToken" (prop response "nextSyncToken") ;;
  await p.

Definition sync_body (shouldReset : JsVal) : M JsVal :=
  try_catch
    (rp <- sync_collect shouldReset ;;
     _ <- sync_persist (fst rp) ;;
     _ <- lift (Promise_all (snd rp)) ;;
     ret (JObj [("message", JStr "Sync Complete")]))
    (fun error => lift (Rejected (Error_ (error_to_string error)))).

Definition sync (shouldReset : JsVal) : M Promise := async (sync_body shouldReset).

(** ** QueryEngine: [get] *)

(** The template literal of lines 173, 186 and 196. *)
Definition scan_pattern (type search : JsVal) : string :=
  to_string (js_or type (JStr "*")) ++ ":"
    ++ to_string (js_or search (JStr "*")) ++ ":*".

(** Lines 169-180 and 192-203: one scan per element, all dispatched, then
    awaited together. *)
Definition scan_types (types : list JsVal) (search : JsVal) : M JsVal :=
  keyPromises <- for_each
      (fun type => rScan "0" (scan_pattern type search) (Some "10000")) types ;;
  keyResponses <- lift (Promise_all keyPromises) ;;
  keysArray <- lift (omap (fun keyResponse => getp keyResponse "1") keyResponses) ;;
  ret (JArr (concat_spread keysArray) []).

(** Lines 160-167 and 183-190: one scan. *)
Definition scan_one (pattern : string) : M JsVal :=
  p <- rScan "0" pattern (Some "10000") ;;
  response <- await p ;;
  matched <- lift (getp response "1") ;;
  ret (js_or matched (JArr [] [])).

(** Lines 156-205: the value of [keys]. *)
Definition get_keys (details : JsVal) : M JsVal :=
  if typeof_string details then
    scan_one (to_string details ++ ":*:*")
  else if instanceof_Array details then
    scan_types (array_elems details) (prop details "search")
  else if instanceof_Object details then
    if typeof_string (prop details "type") then
      scan_one (scan_pattern (prop details "type") (prop details "search"))
    else if instanceof_Array (prop details "type") then
      scan_types (array_elems (prop details "type")) (prop details "search")
    else ret (JArr [] [])
  else ret (JArr [] []).

(** Lines 210-219: the grouping loop over the keys and their responses. *)
Fixpoint group (items : list (JsVal * JsVal)) (final : list (string * JsVal))
  : Outcome (list (string * JsVal)) :=
  match items with
  | [] => Resolved final
  | (key, response) :: rest =>
      try type := parseType key in
      try v := JSON_parse response in
      match assoc type final with
      | Some arr =>
          if truthy arr then
            try arr' := js_push arr v in
            group rest (set_prop type arr' final)
          else group rest (set_prop type (JArr [v] []) final)
      | None =>
          if inherited type then
            Rejected (TypeError "final[type].push is not a function")
          else group rest (set_prop type (JArr [v] []) final)
      end
  end.

Definition get_body (details : JsVal) : M JsVal :=
  keys <- get_keys details ;;
  ks <- lift (as_array keys "keys.map") ;;
  promises <- for_each rGet ks ;;
  responses <- lift (Promise_all promises) ;;
  final <- lift (group (combine ks responses) []) ;;
  ret (JObj final).

Definition get (details : JsVal) : M Promise := async (get_body details).

(** ** CustomStore

    [setCustom] and [deleteCustom] are plain methods: a [Rejected] result of
    the call is an exception thrown to the caller, a [Resolved] one the
    promise they return.  [getCustom] is [async]. *)

Definition throw {A : Type} (e : JsError) : M A := lift (Rejected e).

Definition setCustom (key value expire : JsVal) : M Promise :=
  if typeof_string key then
    if truthy expire then
      dispatch (SET (to_string key) (JSON_stringify value) (Some expire))
    else dispatch (SET (to_string key) (JSON_stringify value) None)
  else throw (Error_ "setCustom - key should be a string").

Definition getCustom_body (key : JsVal) : M JsVal :=
  if typeof_string key then
    p <- dispatch (GET key) ;;
    response <- await p ;;
    lift (JSON_parse response)
  else throw (Error_ "getCustom - key should be a string").

Definition getCustom (key : JsVal) : M Promise := async (getCustom_body key).

Definition deleteCustom (key : JsVal) : M Promise :=
  if typeof_string key then dispatch (DEL key)
  else throw (Error_ "deleteCustom - key should be a string").

(** [setDB(index = 0)]. *)
Definition setDB (index : JsVal) : M Promise :=
  dispatch (SELECT (match index with JUndefined => JNum 0 | _ => index end)).

(** ** The constructor and the connection

    The two client factories belong to the client libraries: each is given
    its options and may throw. *)

Variable Redis_createClient : JsVal -> Outcome unit.
Variable Contentful_createClient : JsVal -> Outcome unit.

(** Lines 51-66. *)
Definition constructor (arg : JsVal) : M Instance :=
  redis <- lift (getp arg "redis") ;;
  let contentful := prop arg "contentful" in
  let options :=
    JObj (spread_props
            (js_and redis
               (js_and (prop redis "host")
                  (js_and (prop redis "port")
                     (JObj [("host", prop redis "host");
                            ("port", prop redis "port")]))))) in
  _ <- lift (Redis_createClient options) ;;
  _ <- dispatch (SELECT (js_or (js_and redis (prop redis "database")) (JNum 0))) ;;
  space <- lift (getp contentful "space") ;;
  let cf_options :=
    JObj [("space", space);
          ("accessToken", prop contentful "accessToken");
          ("environment", js_or (prop contentful "environment") (JStr "master"))] in
  _ <- lift (Contentful_createClient cf_options) ;;
  ret (mkInstance options cf_options
         (js_or (prop contentful "locale") (JStr "en-US"))
         (prop contentful "identifier")
         (js_or (prop contentful "contentTypes") (JArr [] []))).

(** [close()] (lines 263-265): the reply to QUIT is not awaited. *)
Definition close : M Promise :=
  async (_ <- dispatch QUIT ;; ret JUndefined).

End Program.

Arguments mkRun {St A} _ _ _.
Arguments result {St A} _.
Arguments store {St A} _.
Arguments trace {St A} _.
Arguments ret {St A} _ _.
Arguments lift {St A} _ _.
Arguments throw {St A} _ _.
Arguments bind {St A B} _ _ _.
Arguments try_catch {St A} _ _ _.
Arguments async {St} _ _.
Arguments await {St} _ _.
Arguments for_each {St A B} _ _ _.

(** The name of the command, or of the remote call, an event records. *)
Definition event_name (ev : Event) : string :=
  match ev with
  | Redis (HGET _ _) _ => "hget"
  | Redis (HSET _ _ _) _ => "hset"
  | Redis FLUSHDB _ => "flushdb"
  | Redis (SET _ _ _) _ => "set"
  | Redis (GET _) _ => "get"
  | Redis (DEL _) _ => "del"
  | Redis (SCAN _ _ _) _ => "scan"
  | Redis (SELECT _) _ => "select"
  | Redis QUIT _ => "quit"
  | Contentful _ _ => "sync"
  end.

(** The commands of a given name that a trace sent, in order. *)
Definition commands (name : string) (t : list Event) : list Command :=
  flat_map (fun ev => match ev with
                      | Redis c _ => if String.eqb (event_name ev) name then [c] else []
                      | Contentful _ _ => []
                      end) t.

(** ** A reference model of the key-value store

    The store collaborator is not part of the module; this in-memory model
    of the commands the module sends is what the claims about the contents
    of the cache are stated against.  The keyspace is kept in insertion
    order; a SCAN page examines [COUNT] keys (10 by default) from the
    cursor position and returns those that match the pattern. *)

Module MemRedis.

Inductive RVal : Type :=
| RString (s : string)
| RHash (fields : list (string * string)).

Definition Db : Type := list (string * RVal).

(** Glob-style matching: [*], [?], [[...]] classes and backslash escapes. *)
Fixpoint glob (p s : list ascii) {struct p} : bool :=
  match p with
  | [] => match s with [] => true | _ => false end
  | c :: p' =>
      if Ascii.eqb c "*" then
        (fix star (t : list ascii) : bool :=
           glob p' t || match t with [] => false | _ :: t' => star t' end) s
      else if Ascii.eqb c "?" then
        match s with [] => false | _ :: s' => glob p' s' end
      else if Ascii.eqb c "[" then
        match s with
        | [] => false
        | x :: s' =>
            (fix class (q : list ascii) (first neg hit : bool) : bool :=
               match q with
               | [] => false
               | a :: q' =>
                   if first && Ascii.eqb a "^" then class q' false true hit
                   else if Ascii.eqb a "]" then
                     if xorb hit neg then glob q' s' else false
                   else if Ascii.eqb a "\" then
                     match q' with
                     | [] => false
                     | b :: q'' => class q'' false neg (hit || Ascii.eqb b x)
                     end
                   else
                     match q' with
                     | d :: b :: q'' =>
                         if Ascii.eqb d "-" && negb (Ascii.eqb b "]") then
                           class q'' false neg
                             (hit || ((Nat.leb (nat_of_ascii a) (nat_of_ascii x)
                                       && Nat.leb (nat_of_ascii x) (nat_of_ascii b))
                                      || (Nat.leb (nat_of_ascii b) (nat_of_ascii x)
                                          && Nat.leb (nat_of_ascii x) (nat_of_ascii a))))
                         else class q' false neg (hit || Ascii.eqb a x)
                     | _ => class q' false neg (hit || Ascii.eqb a x)
                     end
               end) p' true false false
        end
      else if Ascii.eqb c "\" then
        match p' with
        | [] => match s with [x] => Ascii.eqb x "\" | _ => false end
        | b :: p'' =>
            match s with [] => false | x :: s' => Ascii.eqb b x && glob p'' s' end
        end
      else
        match s with [] => false | x :: s' => Ascii.eqb c x && glob p' s' end
  end.

Definition matches (pattern key : string) : bool :=
  glob (list_ascii_of_string pattern) (list_ascii_of_string key).

Fixpoint remove_key {A : Type} (k : string) (l : list (string * A)) : list (string * A) :=
  match l with
  | [] => []
  | (k', v) :: rest =>
      if String.eqb k k' then remove_key k rest else (k', v) :: remove_key k rest
  end.

Definition has_key {A : Type} (k : string) (l : list (string * A)) : bool :=
  match assoc k l with Some _ => true | None => false end.

(** The arguments a command receives from an argument that may be an array. *)
Definition command_args (v : JsVal) : list string :=
  match v with
  | JArr elems _ => map to_string elems
  | _ => [to_string v]
  end.

Definition wrongtype : JsError :=
  ReplyError "WRONGTYPE Operation against a key holding the wrong kind of value".

Definition ok : Promise := Resolved (JStr "OK").

Definition scan_page (db : Db) (cursor count : nat) (pattern : string) : JsVal :=
  let keys := map fst db in
  let page := firstn count (skipn cursor keys) in
  let next := if Nat.ltb (cursor + count) (List.length keys)
              then string_of_nat (cursor + count) else "0" in
  JArr [JStr next; JArr (map JStr (filter (matches pattern) page)) []] [].

Definition exec (c : Command) (db : Db) : Promise * Db :=
  match c with
  | HGET key field =>
      match assoc key db with
      | None => (Resolved JNull, db)
      | Some (RHash h) =>
          (Resolved (match assoc field h with Some v => JStr v | None => JNull end), db)
      | Some (RString _) => (Rejected wrongtype, db)
      end
  | HSET key field value =>
      match assoc key db with
      | None => (Resolved (JNum 1), set_prop key (RHash [(field, to_string value)]) db)
      | Some (RHash h) =>
          (Resolved (JNum (if has_key field h then 0 else 1)),
           set_prop key (RHash (set_prop field (to_string value) h)) db)
      | Some (RString _) => (Rejected wrongtype, db)
      end
  | FLUSHDB => (ok, [])
  | SET key value expire =>
      match expire with
      | None => (ok, set_prop key (RString (to_string value)) db)
      | Some e =>
          match parse_index (to_string e) with
          | Some (S _) => (ok, set_prop key (RString (to_string value)) db)
          | _ => (Rejected (ReplyError "ERR invalid expire time in set"), db)
          end
      end
  | GET key =>
      match assoc (to_string key) db with
      | None => (Resolved JNull, db)
      | Some (RString v) => (Resolved (JStr v), db)
      | Some (RHash _) => (Rejected wrongtype, db)
      end
  | DEL keys =>
      match command_args keys with
      | [] => (Rejected (ReplyError "ERR wrong number of arguments for 'del' command"), db)
      | args =>
          (Resolved (JNum (Z.of_nat (List.length
                      (filter (fun k => has_key k db) (nodup string_dec args))))),
           fold_left (fun d k => remove_key k d) args db)
      end
  | SCAN cursor pattern count =>
      match parse_index cursor,
            match count with None => Some 10 | Some n => parse_index n end with
      | Some cur, Some (S cnt) => (Resolved (scan_page db cur (S cnt) pattern), db)
      | None, _ => (Rejected (ReplyError "ERR invalid cursor"), db)
      | _, _ => (Rejected (ReplyError "ERR value is not an integer or out of range"), db)
      end
  | SELECT _ => (ok, db)
  | QUIT => (ok, db)
  end.

Definition hget (db : Db) (key field : string) : option string :=
  match assoc key db with
  | Some (RHash h) => assoc field h
  | _ => None
  end.

End MemRedis.

(** ** KeyScheme, in the specification's words *)

Definition buildKey (type identifierValue entryId : string) : string :=
  type ++ ":" ++ identifierValue ++ ":" ++ entryId.

(** The content-type id and the id of an entry. *)
Definition entry_type (entry : JsVal) : JsVal :=
  prop (prop (prop (prop entry "sys") "contentType") "sys") "id".
Definition entry_id (entry : JsVal) : JsVal := prop (prop entry "sys") "id".

(** The identifier value as the specification states it: the localized
    value of the identifier field, the empty string when it is absent. *)
Definition identifier_stated (cfg : Config) (entry : JsVal) : JsVal :=
  match prop (prop (prop entry "fields") (identifier_key cfg)) (locale cfg) with
  | JUndefined => JStr ""
  | v => v
  end.

(** The identifier value as amended: the empty string also stands for a
    localized value that is falsy. *)
Definition identifier_amended (cfg : Config) (entry : JsVal) : JsVal :=
  let v := prop (prop (prop entry "fields") (identifier_key cfg)) (locale cfg) in
  if truthy v then v else JStr "".

Definition key_stated (cfg : Config) (entry : JsVal) : string :=
  buildKey (to_string (entry_type entry)) (to_string (identifier_stated cfg entry))
           (to_string (entry_id entry)).

Definition key_amended (cfg : Config) (entry : JsVal) : string :=
  buildKey (to_string (entry_type entry)) (to_string (identifier_amended cfg entry))
           (to_string (entry_id entry)).

(** The changed entries of a response. *)
Definition changed_entries (response : JsVal) : list JsVal :=
  array_elems (prop response "entries").

(** ** The two modes of a sync, read off the events of a run *)

Definition initial_query : JsVal := JObj [("initial", JBool true)].
Definition incremental_query (token : JsVal) : JsVal :=
  JObj [("nextSyncToken", token)].

(** What follows the fetch of an initial sync: nothing when the fetch
    failed; otherwise the wipe of the store comes first, and nothing comes
    after a wipe that failed. *)
Definition wipe_first (fetched : Promise) (rest : list Event) : Prop :=
  match fetched with
  | Rejected _ => rest = []
  | Resolved _ =>
      exists p rest', rest = Redis FLUSHDB p :: rest' /\
                      (forall e, p = Rejected e -> rest' = [])
  end.

Definition read_cursor : Command := HGET "redis-contentful" "nextSyncToken".

(** ** DeletionReconciler, read off the events of a run *)

(** The deleted entries of a response. *)
Definition deleted_entries (response : JsVal) : list JsVal :=
  array_elems (prop response "deletedEntries").

(** The one scan a deleted entry is resolved with: the first page, for the
    suffix pattern of its id, with no page-size hint. *)
Definition suffix_scan (entry : JsVal) : Command :=
  SCAN "0" ("*:*:" ++ to_string (entry_id entry)) None.

(** The match list of a scan reply. *)
Definition match_list (reply : JsVal) : JsVal := prop reply "1".

(** In [t], every event that satisfies [P] is immediately followed by an
    event related to it by [Q]. *)
Fixpoint each_followed (P : Event -> Prop) (Q : Event -> Event -> Prop)
    (t : list Event) : Prop :=
  match t with
  | [] => True
  | ev :: rest =>
      (P ev -> match rest with
               | next :: _ => Q ev next
               | [] => False
               end) /\
      each_followed P Q rest
  end.

(** A scan that resolved with a truthy match list. *)
Definition scan_matched (ev : Event) : Prop :=
  exists cursor pattern count reply,
    ev = Redis (SCAN cursor pattern count) (Resolved reply) /\
    truthy (match_list reply) = true.

(** The event [next] deletes the whole match list of the scan [ev]. *)
Definition deletes_page (ev next : Event) : Prop :=
  exists cursor pattern count reply d,
    ev = Redis (SCAN cursor pattern count) (Resolved reply) /\
    next = Redis (DEL (match_list reply)) d.

(** ** The cursor and the scheduled operations *)

Definition persist_cursor (response : JsVal) : Command :=
  HSET "redis-contentful" "nextSyncToken" (prop response "nextSyncToken").

(** [p] is the promise of a write or a delete that [t] dispatched. *)
Definition scheduled (t : list Event) (p : Promise) : Prop :=
  exists c, In (Redis c p) t /\
            (event_name (Redis c p) = "set" \/ event_name (Redis c p) = "del").

(** ** QueryEngine: the patterns of a query *)

(** [{x || '*'}]. *)
Definition or_star (v : JsVal) : string :=
  if truthy v then to_string v else "*".

(** The pattern of one type name and a search term. *)
Definition pattern_of (search type : JsVal) : string :=
  or_star type ++ ":" ++ or_star search ++ ":*".

(** The patterns a query input resolves to, in the specification's words:
    a single type name to ["{type}:*:*"], a sequence to one pattern for each
    of its elements, and an object in the same way, as its [type] is a
    single name or a sequence. *)
Definition patterns_stated (details : JsVal) : list string :=
  match details with
  | JStr type => [(type ++ ":*:*")%string]
  | JArr types _ => map (pattern_of (prop details "search")) types
  | JObj _ =>
      match prop details "type" with
      | JStr type => [(type ++ ":*:*")%string]
      | JArr types _ => map (pattern_of (prop details "search")) types
      | _ => []
      end
  | _ => []
  end.

(** The patterns as amended: the single type name of an object is resolved
    as an element of a sequence is, with the search term of the object and
    with ["*"] for an empty name. *)
Definition patterns (details : JsVal) : list string :=
  match details with
  | JStr type => [(type ++ ":*:*")%string]
  | JArr types _ => map (pattern_of (prop details "search")) types
  | JObj _ =>
      match prop details "type" with
      | JStr type => [pattern_of (prop details "search") (JStr type)]
      | JArr types _ => map (pattern_of (prop details "search")) types
      | _ => []
      end
  | _ => []
  end.

(** The scan of one page for a pattern, with the page-size hint of [get]. *)
Definition page_scan (pattern : string) : Command :=
  SCAN "0" pattern (Some "10000").

(** An input that is neither a type name, nor a sequence, nor an object
    whose [type] is one of the two. *)
Definition other_input (details : JsVal) : Prop :=
  match details with
  | JStr _ | JArr _ _ => False
  | JObj _ =>
      match prop details "type" with
      | JStr _ | JArr _ _ => False
      | _ => True
      end
  | _ => True
  end.

(** The replies to the scans of a trace, in order. *)
Definition scan_replies (t : list Event) : list Promise :=
  flat_map (fun ev => match ev with
                      | Redis (SCAN _ _ _) p => [p]
                      | _ => []
                      end) t.

(** A scan reply that is a page: its match list is an array. *)
Definition is_page (p : Promise) : Prop :=
  exists reply, p = Resolved reply /\ instanceof_Array (match_list reply) = true.

(** The keys of the pages, concatenated. *)
Definition pages_keys (ps : list Promise) : list JsVal :=
  flat_map (fun p => array_elems (match_list (resolved_value p))) ps.

(** The keys and values a trace fetched with GET. *)
Definition fetched (t : list Event) : list (JsVal * JsVal) :=
  flat_map (fun ev => match ev with
                      | Redis (GET key) (Resolved v) => [(key, v)]
                      | _ => []
                      end) t.

(** ** The specification's reading of the flattened fields *)

(** The localized value of a field of [data]. *)
Definition localized_value (data : JsVal) (locale fieldKey : string) : JsVal :=
  prop (prop (prop data "fields") fieldKey) locale.

(** A value that has a [fields] map of its own. *)
Definition is_nested_entry (v : JsVal) : bool :=
  instanceof_Object v && truthy (prop v "fields").

(** [data] has a [fields] map, and [fieldKey] is one of its keys. *)
Definition has_field (data : JsVal) (fieldKey : string) : Prop :=
  truthy (js_and data (prop data "fields")) = true /\
  In fieldKey (object_keys (prop data "fields")).

(** The value lines 17-30 compute for a field, with [extract] itself for
    the flattening of the elements of a sequence and of a nested entry. *)
Definition field_value (data : JsVal) (locale fieldKey : string) : Outcome JsVal :=
  let localized := localized_value data locale fieldKey in
  if instanceof_Array localized then
    obind (omap (fun innerData => extract innerData locale) (array_elems localized))
          (fun ys => Resolved (JArr ys []))
  else if is_nested_entry localized then extract localized locale
  else Resolved (if truthy localized then localized else JStr "").

(** ** Sample collaborators and data, for the concrete runs *)

(** ** Readings of a run *)

Section Readings.

Variable St : Type.
Variable exec : Command -> St -> Promise * St.
Variable JSON_stringify : JsVal -> JsVal.
Variable JSON_parse : JsVal -> Outcome JsVal.
Variable cfg : Config.

(** Every event of a computation satisfies [P]. *)
Definition within {A : Type} (P : Event -> Prop) (m : M St A) : Prop :=
  forall s, Forall P (trace (m s)).

(** The event has one of the given names. *)
Definition named (names : list string) (ev : Event) : Prop :=
  In (event_name ev) names.

(** In every run of [m], each event that satisfies [P] is followed as
    [Q] says. *)
Definition followed (P : Event -> Prop) (Q : Event -> Event -> Prop)
    {A : Type} (m : M St A) : Prop :=
  forall s, each_followed P Q (trace (m s)).

(** The entries [sync] applies, in the specification's words: all of them
    when the allow-list is empty, those of an allowed type otherwise. *)
Definition selected (entries : list JsVal) : list JsVal :=
  match contentTypes cfg with
  | [] => entries
  | _ :: _ => filter (fun entry => allowed cfg (entry_type entry)) entries
  end.

(** The write an applied entry is given. *)
Definition write_of (entry : JsVal) : Command :=
  SET (key_amended cfg entry)
      (JSON_stringify (resolved_value (extract entry (locale cfg)))) None.

(** The events of the fetches of [get] (lines 207-208). *)
Definition fetch_phase (keys : JsVal) (s : St) : list Event :=
  match as_array keys "keys.map" with
  | Resolved ks => trace (for_each (rGet St exec) ks s)
  | Rejected _ => []
  end.

(** The deserialized values of the fetched items whose key has type [ty],
    in the order in which they were fetched. *)
Definition values_of (ty : string) (items : list (JsVal * JsVal)) : list JsVal :=
  flat_map (fun kv => match parseType (fst kv), JSON_parse (snd kv) with
                      | Resolved t, Resolved v => if String.eqb t ty then [v] else []
                      | _, _ => []
                      end) items.

(** The sequence a type is mapped to: none when no value has the type. *)
Definition grouped (ty : string) (items : list (JsVal * JsVal)) : option JsVal :=
  match values_of ty items with
  | [] => None
  | vs => Some (JArr vs [])
  end.

(** Every value of the mapping is a non-empty sequence. *)
Definition sequences (final : list (string * JsVal)) : Prop :=
  forall ty v, assoc ty final = Some v -> exists l, v = JArr l [] /\ l <> [].

Definition current (ty : string) (final : list (string * JsVal)) : list JsVal :=
  match assoc ty final with
  | Some v => array_elems v
  | None => []
  end.

(** The values [extract_field] recurses into. *)
Definition recursed (locale : string) (fields : JsVal) (fieldKey : string)
    (d : JsVal) : Prop :=
  let localized := prop (prop fields fieldKey) locale in
  instanceof_Object localized = true /\ (d = localized \/ In d (array_elems localized)).

End Readings.

(** ** Readings of the reference store *)

Module MemReading.

Import MemRedis.

(** The page-size hint of [get], and the page it selects from the keys. *)
Definition hint : nat := 100 * 100.

Definition page (db : Db) (pattern : string) : list string :=
  filter (matches pattern) (firstn hint (map fst db)).

Definition value_of (db : Db) (key : string) : Promise :=
  fst (exec (GET (JStr key)) db).

(** The keys a sequence of type names resolves to. *)
Definition keys_of (db : Db) (search : JsVal) (types : list JsVal) : list string :=
  flat_map (fun type => page db (pattern_of search type)) types.

(** A record of the store that holds a stored entry of one of the two
    types, and the record that holds the cursor. *)
Definition stored_entry (JSON_parse : JsVal -> Outcome JsVal)
    (kv : string * RVal) : Prop :=
  exists ty ident id value v,
    (ty = "post" \/ ty = "author") /\
    fst kv = buildKey ty ident id /\
    snd kv = RString value /\
    JSON_parse (JStr value) = Resolved v.

Definition cursor_record (kv : string * RVal) : Prop := fst kv = "redis-contentful".

(** The store holds stored entries of the types ["post"] and ["author"],
    and possibly the cursor. *)
Definition stored (JSON_parse : JsVal -> Outcome JsVal) (db : Db) : Prop :=
  Forall (fun kv => stored_entry JSON_parse kv \/ cursor_record kv) db.

Definition has_type (ty key : string) : bool := String.eqb (before_colon key) ty.

(** The number of stored entries of a type. *)
Definition type_count (ty : string) (db : Db) : nat :=
  length (filter (fun kv => has_type ty (fst kv)) db).

Definition author_record (n : nat) : string * RVal :=
  (buildKey "author" "" (string_of_nat n), RString "{}").

(** As many entries of type ["author"] as a page examines, then one entry
    of type ["post"]. *)
Definition large_store : Db :=
  map author_record (seq 0 hint) ++ [(buildKey "post" "Hi" "E1", RString "{}")].

End MemReading.

Module Sample.

(** Stand-ins for [JSON.stringify] and [JSON.parse]. *)
Definition stringify (v : JsVal) : JsVal :=
  match v with
  | JUndefined => JUndefined
  | _ => JStr (to_string v)
  end.

Definition parse (v : JsVal) : Outcome JsVal :=
  match v with
  | JUndefined => Rejected (SyntaxError "Unexpected token u in JSON at position 0")
  | JStr EmptyString => Rejected (SyntaxError "Unexpected end of JSON input")
  | _ => Resolved v
  end.

Definition cfg : Config := new_Config None (Some "title") None.

(** The configuration with the allow-list [["post"]]. *)
Definition cfg_posts : Config := new_Config None (Some "title") (Some ["post"]).

Definition sys_of (id type : string) : JsVal :=
  JObj [("id", JStr id);
        ("contentType", JObj [("sys", JObj [("id", JStr type)])]);
        ("createdAt", JStr "2019-01-01"); ("updatedAt", JStr "2019-01-02")].

(** Entry [E1] of type [post]: a title, a boolean, a number, and a field
    that has no value for the locale. *)
Definition post1 : JsVal :=
  JObj [("sys", sys_of "E1" "post");
        ("fields", JObj [("title", JObj [("en-US", JStr "Hi")]);
                         ("draft", JObj [("en-US", JBool false)]);
                         ("views", JObj [("en-US", JNum 7)]);
                         ("subtitle", JObj [("de-DE", JStr "Hallo")])])].

(** Entry [E2] of type [post] whose identifier field holds the number 0. *)
Definition post_zero : JsVal :=
  JObj [("sys", sys_of "E2" "post");
        ("fields", JObj [("title", JObj [("en-US", JNum 0)])])].

(** Entry [E3] of type [page]. *)
Definition page1 : JsVal :=
  JObj [("sys", sys_of "E3" "page");
        ("fields", JObj [("title", JObj [("en-US", JStr "About")])])].

Definition deleted (id : string) : JsVal := JObj [("sys", JObj [("id", JStr id)])].

Definition response_of (entries deleted : list JsVal) (token : string) : JsVal :=
  JObj [("entries", JArr entries []);
        ("deletedEntries", JArr deleted []);
        ("nextSyncToken", JStr token)].

(** A remote that answers every query with [response]. *)
Definition remote (response : JsVal) (query : JsVal) : Promise := Resolved response.

Definition db_empty : MemRedis.Db := [].

(** A store whose persisted cursor is [token]. *)
Definition db_cursor (token : string) : MemRedis.Db :=
  [("redis-contentful", MemRedis.RHash [("nextSyncToken", token)])].

(** A store that holds two posts and one author. *)
Definition db_entries : MemRedis.Db :=
  [("post:Hi:E1", MemRedis.RString "{1}");
   ("author:Ann:A1", MemRedis.RString "{2}");
   ("post:Yo:E4", MemRedis.RString "{3}");
   ("redis-contentful", MemRedis.RHash [("nextSyncToken", "tok1")])].

(** The response with the changed entry [E1] and the deleted entry [E9],
    and the run of [sync()] on it against the empty store. *)
Definition response1 : JsVal := response_of [post1] [deleted "E9"] "tok1".

Definition run1 : Run MemRedis.Db Promise :=
  sync MemRedis.Db MemRedis.exec (remote response1) stringify cfg JUndefined db_empty.

Definition del_error : JsError :=
  ReplyError "ERR wrong number of arguments for 'del' command".

Definition empty_page : JsVal := JArr [JStr "0"; JArr [] []] [].

End Sample.

(** ** Further readings of the code *)

(** A value [extract] flattens as an entry: it has a [fields] map. *)
Definition is_entry (data : JsVal) : bool := truthy (js_and data (prop data "fields")).

(** The keys of the header of a flattened entry. *)
Definition header_keys (data : JsVal) : list string :=
  ["id"] ++ (if truthy (entry_type data) then ["type"] else [])
    ++ ["createdAt"; "updatedAt"].

(** The error of reading [id] from a [sys] that is [undefined] or [null]. *)
Definition missing_sys (e : JsError) : Prop :=
  exists v, (v = JUndefined \/ v = JNull) /\ getp v "id" = Rejected e.

(** The reply an event records, and the events that did not fail. *)
Definition reply_of (ev : Event) : Promise :=
  match ev with
  | Redis _ p => p
  | Contentful _ p => p
  end.

Definition succeeded (ev : Event) : Prop := exists v, reply_of ev = Resolved v.

(** The value a successful [sync] resolves with (line 149). *)
Definition sync_complete : JsVal := JObj [("message", JStr "Sync Complete")].

(** Every run of [m] keeps the store within [I]. *)
Definition preserves {St A : Type} (I : St -> Prop) (m : M St A) : Prop :=
  forall s, I s -> I (store (m s)).

(** A fetch of [get] whose key is a string and whose value was returned and
    deserializes. *)
Definition fetch_ok (JSON_parse : JsVal -> Outcome JsVal) (ev : Event) : Prop :=
  match ev with
  | Redis (GET key) reply =>
      typeof_string key = true /\
      exists v x, reply = Resolved v /\ JSON_parse v = Resolved x
  | _ => True
  end.

(** The replies to the fetches of a trace, in order. *)
Definition get_replies (t : list Event) : list Promise :=
  flat_map (fun ev => match ev with
                      | Redis (GET _) p => [p]
                      | _ => []
                      end) t.

(** The error of calling [push] on an inherited member (line 215). *)
Definition not_a_function : JsError := TypeError "final[type].push is not a function".

Definition has_colon (s : string) : bool :=
  existsb (Ascii.eqb ":") (list_ascii_of_string s).

(** The database the constructor selects (line 57). *)
Definition selected_database (arg : JsVal) : JsVal :=
  let redis := prop arg "redis" in
  if truthy redis then
    if truthy (prop redis "database") then prop redis "database" else JNum 0
  else JNum 0.

(** The index [setDB] selects (line 258). *)
Definition database_index (index : JsVal) : JsVal :=
  match index with
  | JUndefined => JNum 0
  | _ => index
  end.

(** ** Further readings of the reference store *)

Module MemStore.

Import MemRedis.

(** Every key of the store satisfies [K]. *)
Definition keys_within (K : string -> Prop) (db : Db) : Prop :=
  forall key, In key (map fst db) -> K key.

(** The keys a sync of [response] may leave in a store it wiped. *)
Definition rebuilt_key (cfg : Config) (response : JsVal) (key : string) : Prop :=
  key = "redis-contentful" \/
  exists entry, In entry (selected cfg (changed_entries response)) /\
                key = key_amended cfg entry.

(** The serialized flattened entry, as the store holds it. *)
Definition serialized (JSON_stringify : JsVal -> JsVal) (cfg : Config)
    (entry : JsVal) : string :=
  to_string (JSON_stringify (resolved_value (extract entry (locale cfg)))).

(** The store after the writes of the entries, in order. *)
Definition written (JSON_stringify : JsVal -> JsVal) (cfg : Config)
    (entries : list JsVal) (db : Db) : Db :=
  fold_left (fun d entry =>
               set_prop (key_amended cfg entry)
                        (RString (serialized JSON_stringify cfg entry)) d)
            entries db.

(** The record of the store that holds an entry, and the record that holds
    the cursor of a response. *)
Definition record (JSON_stringify : JsVal -> JsVal) (cfg : Config) (entry : JsVal)
  : string * RVal :=
  (key_amended cfg entry, RString (serialized JSON_stringify cfg entry)).

Definition cursor_of (response : JsVal) : string * RVal :=
  ("redis-contentful",
   RHash [("nextSyncToken", to_string (prop response "nextSyncToken"))]).

(** A character, and a string, that a glob pattern matches literally. *)
Definition plain (c : ascii) : bool :=
  negb (Ascii.eqb c "*" || Ascii.eqb c "?" || Ascii.eqb c "[" || Ascii.eqb c "\").

Definition literal (s : string) : bool := forallb plain (list_ascii_of_string s).

(** The entries of a content type. *)
Definition of_type (type : string) (entry : JsVal) : bool :=
  String.eqb (to_string (entry_type entry)) type.

(** The value [get] returns for a stored entry. *)
Definition read_back (JSON_stringify : JsVal -> JsVal)
    (JSON_parse : JsVal -> Outcome JsVal) (cfg : Config) (entry : JsVal) : JsVal :=
  resolved_value (JSON_parse (JStr (serialized JSON_stringify cfg entry))).

(** The mapping with the one group [type], if it has a value. *)
Definition one_group (type : string) (values : list JsVal) : JsVal :=
  JObj match values with
       | [] => []
       | _ :: _ => [(type, JArr values [])]
       end.

End MemStore.

(** ** Further sample data *)

Module Article.

Definition author1 : JsVal :=
  JObj [("sys", Sample.sys_of "A1" "author");
        ("fields", JObj [("name", JObj [("en-US", JStr "Ann")])])].

(** Entry [E5]: a link to an author, a list, and a field named [id]. *)
Definition article : JsVal :=
  JObj [("sys", Sample.sys_of "E5" "article");
        ("fields",
         JObj [("title", JObj [("en-US", JStr "News")]);
               ("author", JObj [("en-US", author1)]);
               ("tags", JObj [("en-US", JArr [JStr "a"; JNum 1; JBool true; author1] [])]);
               ("id", JObj [("en-US", JStr "custom")])])].

(** An entry with no [sys]. *)
Definition no_sys : JsVal := JObj [("fields", JObj [])].

(** Entry [E6], which has a field named [__proto__]. *)
Definition proto_entry : JsVal :=
  JObj [("sys", Sample.sys_of "E6" "post");
        ("fields", JObj [("title", JObj [("en-US", JStr "Hi")]);
                         ("__proto__", JObj [("en-US", JStr "x")])])].

(** A response with one changed entry and no deleted entry, and the reset
    sync of it against a store that holds other entries. *)
Definition response2 : JsVal := Sample.response_of [Sample.post1] [] "tok2".

Definition run2 : Run MemRedis.Db Promise :=
  sync MemRedis.Db MemRedis.exec (Sample.remote response2) Sample.stringify Sample.cfg
       (JBool true) Sample.db_entries.

(** A response with a post and a page, and the reset sync of it. *)
Definition response3 : JsVal := Sample.response_of [Sample.post1; Sample.page1] [] "tok4".

(** A response whose changed entry has no [sys]. *)
Definition response_bad : JsVal := Sample.response_of [JObj []] [] "tok3".

(** A remote that cannot be reached, and a store that fails every command. *)
Definition offline (query : JsVal) : Promise := Rejected (RemoteError "offline").

Definition down (c : Command) (s : unit) : Promise * unit :=
  (Rejected (ReplyError "connection lost"), s).

(** Stores in which the cursor key holds a string, a key has the type of an
    inherited member, and an entry key holds a hash. *)
Definition db_string_cursor : MemRedis.Db := [("redis-contentful", MemRedis.RString "x")].

Definition db_inherited : MemRedis.Db := [("constructor:x:1", MemRedis.RString "{}")].

Definition db_hash_entry : MemRedis.Db := [("post:x:1", MemRedis.RHash [])].

(** Client factories that succeed, and constructor arguments. *)
Definition created (options : JsVal) : Outcome unit := Resolved tt.

Definition redis_only : JsVal :=
  JObj [("redis", JObj [("host", JStr "cache"); ("database", JNum 2)])].

(** A store that holds a synced post beside a custom key, the response that
    changes a page and deletes the post, and the sync of it without reset. *)
Definition db_shared : MemRedis.Db :=
  [("post:Hi:E1", MemRedis.RString "{1}");
   ("greeting", MemRedis.RString "hello");
   ("redis-contentful", MemRedis.RHash [("nextSyncToken", "tok1")])].

Definition response4 : JsVal :=
  Sample.response_of [Sample.page1] [Sample.deleted "E1"] "tok5".

Definition run4 : Run MemRedis.Db Promise :=
  sync MemRedis.Db MemRedis.exec (Sample.remote response4) Sample.stringify Sample.cfg
       JUndefined db_shared.

(** A query object with a single type name and a search term. *)
Definition typed_search : JsVal := JObj [("type", JStr "post"); ("search", JStr "Hi")].

(** A store that holds entry [E1] under two keys - its identifier changed
    between two syncs - and the sync, without reset, of the response that
    deletes [E1]. *)
Definition db_rekeyed : MemRedis.Db :=
  [("post:Hi:E1", MemRedis.RString "{1}");
   ("author:Ann:A1", MemRedis.RString "{2}");
   ("post:Hello:E1", MemRedis.RString "{1b}");
   ("redis-contentful", MemRedis.RHash [("nextSyncToken", "tok1")])].

Definition run5 : Run MemRedis.Db Promise :=
  sync MemRedis.Db MemRedis.exec (Sample.remote response4) Sample.stringify Sample.cfg
       JUndefined db_rekeyed.

Definition page_E1 : JsVal :=
  JArr [JStr "0"; JArr [JStr "post:Hi:E1"; JStr "post:Hello:E1"] []] [].

Definition options_full : JsVal :=
  JObj [("redis", JObj [("host", JStr "cache"); ("port", JNum 6380)]);
        ("contentful", JObj [("space", JStr "sp"); ("accessToken", JStr "tk");
                             ("identifier", JStr "title")])].

End Article.

(** * Properties *)

(** ** Own properties, depth *)

Lemma Resolved_inj {A : Type} (a b : A) : Resolved a = Resolved b -> a = b.
Proof. now intros [= ->]. Qed.

Lemma assoc_set_prop_eq {A : Type} (k : string) (v : A) (l : list (string * A)) :
  assoc k (set_prop k v l) = Some v.
Proof.
  induction l as [|[k' v'] l IH]; simpl.
  - now rewrite String.eqb_refl.
  - destruct (String.eqb k k') eqn:E; simpl.
    + now rewrite String.eqb_refl.
    + now rewrite E.
Qed.

Lemma assoc_set_prop_neq {A : Type} (k k0 : string) (v : A) (l : list (string * A)) :
  k <> k0 -> assoc k (set_prop k0 v l) = assoc k l.
Proof.
  intros Hne. induction l as [|[k' v'] l IH]; simpl.
  - destruct (String.eqb k k0) eqn:E; [apply String.eqb_eq in E; contradiction|reflexivity].
  - destruct (String.eqb k0 k') eqn:E0; simpl.
    + apply String.eqb_eq in E0. subst k'.
      destruct (String.eqb k k0) eqn:E; [apply String.eqb_eq in E; contradiction|reflexivity].
    + destruct (String.eqb k k'); [reflexivity|exact IH].
Qed.

Lemma assoc_In {A : Type} (k : string) (l : list (string * A)) (v : A) :
  assoc k l = Some v -> In (k, v) l.
Proof.
  induction l as [|[k' v'] l IH]; simpl; [discriminate|].
  destruct (String.eqb k k') eqn:E.
  - apply String.eqb_eq in E. intros [= ->]. subst. now left.
  - intros H. right. now apply IH.
Qed.

Lemma assoc_None_keys {A : Type} (k : string) (l : list (string * A)) :
  assoc k l = None <-> ~ In k (map fst l).
Proof.
  induction l as [|[k' v'] l IH]; simpl.
  - split; [intros _ []|reflexivity].
  - destruct (String.eqb k k') eqn:E.
    + apply String.eqb_eq in E. subst. split; [discriminate|]. intros H. exfalso. apply H. now left.
    + apply String.eqb_neq in E. rewrite IH. split.
      * intros H [H1|H1]; [congruence|contradiction].
      * intros H H1. apply H. now right.
Qed.

Lemma set_prop_keys {A : Type} (k : string) (v : A) (l : list (string * A)) :
  map fst (set_prop k v l) =
  if existsb (String.eqb k) (map fst l) then map fst l else map fst l ++ [k].
Proof.
  induction l as [|[k' v'] l IH]; simpl; [reflexivity|].
  destruct (String.eqb k k') eqn:E; simpl.
  - apply String.eqb_eq in E. now subst.
  - rewrite IH. now destruct (existsb (String.eqb k) (map fst l)).
Qed.

Lemma existsb_eqb_In (k : string) (l : list string) :
  existsb (String.eqb k) l = true <-> In k l.
Proof.
  rewrite existsb_exists. split.
  - intros [x [Hx E]]. apply String.eqb_eq in E. now subst.
  - intros H. exists k. split; [assumption|apply String.eqb_refl].
Qed.

Lemma set_prop_NoDup {A : Type} (k : string) (v : A) (l : list (string * A)) :
  NoDup (map fst l) -> NoDup (map fst (set_prop k v l)).
Proof.
  intros H. rewrite set_prop_keys.
  destruct (existsb (String.eqb k) (map fst l)) eqn:E; [assumption|].
  apply NoDup_app; [assumption|repeat constructor; intros []|].
  intros x Hx [<-|[]].
  apply existsb_eqb_In in Hx. congruence.
Qed.

Lemma depth_list_max (x : JsVal) (l : list JsVal) :
  In x l -> depth x <= list_max (map depth l).
Proof.
  induction l as [|y l IH]; simpl; [intros []|].
  intros [->|H]; [lia|]. specialize (IH H). lia.
Qed.

Lemma depth_assoc (k : string) (props : list (string * JsVal)) (x : JsVal) :
  assoc k props = Some x -> depth x <= list_max (map (fun p => depth (snd p)) props).
Proof.
  induction props as [|[k' v'] props IH]; simpl; [discriminate|].
  destruct (String.eqb k k').
  - intros [= ->]. lia.
  - intros H. specialize (IH H). lia.
Qed.

Lemma depth_nth (i : nat) (l : list JsVal) :
  depth (nth i l JUndefined) <= list_max (map depth l).
Proof.
  destruct (Nat.lt_ge_cases i (List.length l)) as [H|H].
  - apply depth_list_max. now apply nth_In.
  - rewrite nth_overflow by assumption. simpl. lia.
Qed.

Lemma depth_chars (s : string) (x : JsVal) : In x (chars s) -> depth x = 0.
Proof.
  induction s as [|c s IH]; simpl; [intros []|].
  intros [<-|H]; [reflexivity|auto].
Qed.

Lemma depth_prop (v : JsVal) (k : string) : depth (prop v k) <= pred (depth v).
Proof.
  destruct v as [| | | |s|elems props|props]; simpl; try lia.
  - destruct (String.eqb k "length"); simpl; [lia|].
    destruct (parse_index k) as [i|]; simpl; [|lia].
    destruct (Nat.lt_ge_cases i (List.length (chars s))) as [H|H].
    + rewrite (depth_chars s); [lia|]. now apply nth_In.
    + rewrite nth_overflow by assumption. simpl. lia.
  - destruct (String.eqb k "length"); simpl; [lia|].
    destruct (parse_index k) as [i|].
    + pose proof (depth_nth i elems). lia.
    + destruct (assoc k props) as [x|] eqn:E; simpl; [|lia].
      apply depth_assoc in E. lia.
  - destruct (assoc k props) as [x|] eqn:E; simpl; [|lia].
    apply depth_assoc in E. lia.
Qed.

Lemma depth_array_elems (v x : JsVal) :
  In x (array_elems v) -> depth x <= pred (depth v).
Proof.
  destruct v; simpl; try (intros []).
  intros H. apply depth_list_max in H. lia.
Qed.

Lemma depth_instanceof_Object (v : JsVal) :
  instanceof_Object v = true -> 1 <= depth v.
Proof. destruct v; simpl; try discriminate; intros _; lia. Qed.

Lemma falsy_prop (v : JsVal) (k : string) :
  truthy v = false -> truthy (prop v k) = false.
Proof.
  destruct v as [| |b|n|s|elems props|props]; simpl; try reflexivity; try discriminate.
  intros H. apply negb_false_iff in H. apply String.eqb_eq in H. subst s. simpl.
  destruct (String.eqb k "length"); simpl; [reflexivity|].
  destruct (parse_index k) as [i|]; [|reflexivity]. now destruct i.
Qed.

(** ** [extract]: the fuel is enough *)

Section ExtractFuel.

Variable locale : string.

Local Abbreviation recursed := (recursed locale).

Lemma fmap_list_mono (ex ex' : JsVal -> Fueled JsVal) (l : list JsVal) :
  (forall d o, In d l -> ex d = Some o -> ex' d = Some o) ->
  forall o, fmap_list ex l = Some o -> fmap_list ex' l = Some o.
Proof.
  induction l as [|x l IH]; simpl; intros Hm o H; [assumption|].
  destruct (ex x) as [[y|e]|] eqn:Ex; simpl in H; try discriminate.
  - rewrite (Hm x _ (or_introl eq_refl) Ex). simpl.
    destruct (fmap_list ex l) as [[ys|e]|] eqn:El; simpl in H; try discriminate.
    + rewrite (IH (fun d o Hd => Hm d o (or_intror Hd)) _ eq_refl). exact H.
    + rewrite (IH (fun d o Hd => Hm d o (or_intror Hd)) _ eq_refl). exact H.
  - rewrite (Hm x _ (or_introl eq_refl) Ex). exact H.
Qed.

Lemma fmap_list_enough (ex : JsVal -> Fueled JsVal) (l : list JsVal) :
  (forall d, In d l -> exists o, ex d = Some o) ->
  exists o, fmap_list ex l = Some o.
Proof.
  induction l as [|x l IH]; simpl; intros He; [eauto|].
  destruct (He x (or_introl eq_refl)) as [[y|e] ->]; simpl; [|eauto].
  destruct (IH (fun d Hd => He d (or_intror Hd))) as [[ys|e] ->]; simpl; eauto.
Qed.

Lemma extract_field_mono (ex ex' : JsVal -> Fueled JsVal) (fields : JsVal) (k : string) :
  (forall d o, recursed fields k d -> ex d = Some o -> ex' d = Some o) ->
  forall o, extract_field ex fields locale k = Some o ->
            extract_field ex' fields locale k = Some o.
Proof.
  unfold extract_field, recursed. intros Hm o.
  destruct (truthy (prop fields k) && instanceof_Array (prop (prop fields k) locale)) eqn:E1.
  - apply andb_prop in E1 as [_ E1].
    assert (Ho : instanceof_Object (prop (prop fields k) locale) = true)
      by (destruct (prop (prop fields k) locale); simpl in *; congruence).
    intros H.
    destruct (fmap_list ex (array_elems (prop (prop fields k) locale))) as [o1|] eqn:El;
      simpl in H; try discriminate.
    rewrite (fmap_list_mono ex ex' _ (fun d o Hd => Hm d o (conj Ho (or_intror Hd))) _ El).
    exact H.
  - destruct (truthy (prop fields k) && instanceof_Object (prop (prop fields k) locale)
              && truthy (prop (prop (prop fields k) locale) "fields")) eqn:E2; [|trivial].
    apply andb_prop in E2 as [E2 _]. apply andb_prop in E2 as [_ E2].
    intros H. apply Hm; [|assumption]. split; [assumption|now left].
Qed.

Lemma extract_field_enough (ex : JsVal -> Fueled JsVal) (fields : JsVal) (k : string) :
  (forall d, recursed fields k d -> exists o, ex d = Some o) ->
  exists o, extract_field ex fields locale k = Some o.
Proof.
  unfold extract_field, recursed. intros He.
  destruct (truthy (prop fields k) && instanceof_Array (prop (prop fields k) locale)) eqn:E1.
  - apply andb_prop in E1 as [_ E1].
    assert (Ho : instanceof_Object (prop (prop fields k) locale) = true)
      by (destruct (prop (prop fields k) locale); simpl in *; congruence).
    destruct (fmap_list_enough ex (array_elems (prop (prop fields k) locale)))
      as [[ys|e] ->]; simpl; eauto.
  - destruct (truthy (prop fields k) && instanceof_Object (prop (prop fields k) locale)
              && truthy (prop (prop (prop fields k) locale) "fields")) eqn:E2; [|eauto].
    apply andb_prop in E2 as [E2 _]. apply andb_prop in E2 as [_ E2].
    apply He. split; [assumption|now left].
Qed.

Lemma extract_details_mono (ex ex' : JsVal -> Fueled JsVal) (fields : JsVal)
    (keys : list string) :
  (forall k d o, recursed fields k d -> ex d = Some o -> ex' d = Some o) ->
  forall details o,
    extract_details ex fields locale keys details = Some o ->
    extract_details ex' fields locale keys details = Some o.
Proof.
  intros Hm. induction keys as [|k keys IH]; simpl; intros details o H; [assumption|].
  destruct (extract_field ex fields locale k) as [o1|] eqn:E; simpl in H; try discriminate.
  rewrite (extract_field_mono ex ex' fields k (Hm k) _ E).
  destruct o1 as [v|e]; simpl in *; [now apply IH|assumption].
Qed.

Lemma extract_details_enough (ex : JsVal -> Fueled JsVal) (fields : JsVal)
    (keys : list string) :
  (forall k d, recursed fields k d -> exists o, ex d = Some o) ->
  forall details, exists o, extract_details ex fields locale keys details = Some o.
Proof.
  intros He. induction keys as [|k keys IH]; simpl; intros details; [eauto|].
  destruct (extract_field_enough ex fields k (He k)) as [[v|e] ->]; simpl; eauto.
Qed.

Lemma recursed_depth (data : JsVal) (k : string) (d : JsVal) :
  recursed (prop data "fields") k d -> S (depth d) <= depth data.
Proof.
  unfold recursed. intros [Ho Hd].
  pose proof (depth_instanceof_Object _ Ho) as H1.
  pose proof (depth_prop (prop (prop data "fields") k) locale) as H2.
  pose proof (depth_prop (prop data "fields") k) as H3.
  pose proof (depth_prop data "fields") as H4.
  destruct Hd as [->|Hd]; [lia|].
  apply depth_array_elems in Hd. lia.
Qed.

Lemma extract_fuel_unfold (n : nat) (data : JsVal) :
  extract_fuel (S n) data locale =
  if truthy (js_and data (prop data "fields")) then
    fbind (extract_details (fun d => extract_fuel n d locale)
             (prop data "fields") locale (object_keys (prop data "fields")) [])
      (fun details =>
         match getp (prop data "sys") "id" with
         | Rejected e => Some (Rejected e)
         | Resolved id =>
             Some (Resolved (JObj
               (spread ([("id", id)] ++ spread_type (prop data "sys")
                          ++ [("createdAt", prop (prop data "sys") "createdAt");
                              ("updatedAt", prop (prop data "sys") "updatedAt")])
                       details)))
         end)
  else if typeof_string data || typeof_number data then Some (Resolved data)
  else Some (Resolved JUndefined).
Proof. reflexivity. Qed.

Lemma extract_fuel_S (n : nat) (data : JsVal) (o : Outcome JsVal) :
  extract_fuel n data locale = Some o -> extract_fuel (S n) data locale = Some o.
Proof.
  revert data o. induction n as [|n IH]; intros data o H; [discriminate|].
  rewrite extract_fuel_unfold in H. rewrite extract_fuel_unfold.
  destruct (truthy (js_and data (prop data "fields"))); [|assumption].
  destruct (extract_details (fun d => extract_fuel n d locale) (prop data "fields") locale
              (object_keys (prop data "fields")) []) as [o1|] eqn:E; simpl in H;
    try discriminate.
  rewrite (extract_details_mono _ (fun d => extract_fuel (S n) d locale) _ _
             (fun k d o _ Hd => IH d o Hd) _ _ E).
  exact H.
Qed.

Lemma extract_fuel_le (n m : nat) (data : JsVal) (o : Outcome JsVal) :
  n <= m -> extract_fuel n data locale = Some o -> extract_fuel m data locale = Some o.
Proof.
  induction 1 as [|m Hle IH]; [trivial|].
  intros H. apply extract_fuel_S. now apply IH.
Qed.

Lemma extract_fuel_enough (n : nat) (data : JsVal) :
  depth data <= n -> exists o, extract_fuel (S n) data locale = Some o.
Proof.
  revert data. induction n as [|n IH]; intros data Hd; rewrite extract_fuel_unfold.
  - destruct (truthy (js_and data (prop data "fields"))); [|destruct (_ || _); eauto].
    destruct (extract_details_enough (fun d => extract_fuel 0 d locale)
                (prop data "fields") (object_keys (prop data "fields")))
      with (details := @nil (string * JsVal)) as [[details|e] ->]; simpl.
    + intros k d Hr. apply recursed_depth in Hr. lia.
    + destruct (getp (prop data "sys") "id"); eauto.
    + eauto.
  - destruct (truthy (js_and data (prop data "fields"))); [|destruct (_ || _); eauto].
    destruct (extract_details_enough (fun d => extract_fuel (S n) d locale)
                (prop data "fields") (object_keys (prop data "fields")))
      with (details := @nil (string * JsVal)) as [[details|e] ->]; simpl.
    + intros k d Hr. apply recursed_depth in Hr. apply IH. lia.
    + destruct (getp (prop data "sys") "id"); eauto.
    + eauto.
Qed.

(** Any fuel above the depth of the value computes [extract]. *)
Lemma extract_fuel_extract (fuel : nat) (data : JsVal) :
  depth data < fuel -> extract_fuel fuel data locale = Some (extract data locale).
Proof.
  intros H. unfold extract.
  destruct (extract_fuel_enough (depth data) data (le_n _)) as [o Ho].
  rewrite Ho. now apply (extract_fuel_le (S (depth data))).
Qed.

End ExtractFuel.

(** ** EntryFlattener: scalar fields *)

Lemma extract_details_spec (ex : JsVal -> Fueled JsVal) (fields : JsVal) (locale : string)
    (keys : list string) :
  forall details details',
    extract_details ex fields locale keys details = Some (Resolved details') ->
    (NoDup (map fst details) -> NoDup (map fst details')) /\
    (forall k, ~ In k keys \/ k = "__proto__" -> assoc k details' = assoc k details) /\
    (forall k, In k keys -> k <> "__proto__" ->
       exists v, extract_field ex fields locale k = Some (Resolved v) /\
                 assoc k details' = Some v).
Proof.
  induction keys as [|k0 keys IH]; simpl; intros details details' H.
  - injection H as <-. split; [trivial|split; [trivial|intros k []]].
  - destruct (extract_field ex fields locale k0) as [[v0|e]|] eqn:E; simpl in H;
      try discriminate.
    destruct (IH _ _ H) as [Hnd [Hout Hin]]. unfold assign_detail in *.
    destruct (String.eqb k0 "__proto__") eqn:Ek.
    + apply String.eqb_eq in Ek. subst k0. split; [exact Hnd|split].
      * intros k Hk. apply Hout. tauto.
      * intros k [<-|Hk] Hne; [contradiction|now apply Hin].
    + apply String.eqb_neq in Ek. split; [|split].
      * intros Hd. apply Hnd. now apply set_prop_NoDup.
      * intros k Hk. rewrite Hout by tauto. apply assoc_set_prop_neq.
        intros ->. tauto.
      * intros k Hk Hne. destruct (in_dec string_dec k keys) as [Hi|Hni].
        -- now apply Hin.
        -- destruct Hk as [->|Hk]; [|contradiction].
           exists v0. split; [assumption|].
           rewrite Hout by tauto. apply assoc_set_prop_eq.
Qed.

Lemma spread_assoc_notin (k : string) (details base : list (string * JsVal)) :
  ~ In k (map fst details) -> assoc k (spread base details) = assoc k base.
Proof.
  unfold spread. revert base.
  induction details as [|[k1 v1] details IH]; simpl; intros base H; [reflexivity|].
  rewrite IH by tauto. apply assoc_set_prop_neq. intros ->. apply H. now left.
Qed.

(** The fields are merged last: they override the header of the record. *)
Lemma spread_assoc (k : string) (v : JsVal) (details base : list (string * JsVal)) :
  NoDup (map fst details) -> assoc k details = Some v ->
  assoc k (spread base details) = Some v.
Proof.
  unfold spread. revert base.
  induction details as [|[k1 v1] details IH]; simpl; intros base Hnd H; [discriminate|].
  inversion Hnd as [|? ? Hn1 Hnd']; subst.
  destruct (String.eqb k k1) eqn:E.
  - apply String.eqb_eq in E. subst k1. injection H as ->.
    change (assoc k (spread (set_prop k v base) details) = Some v).
    rewrite spread_assoc_notin by assumption. apply assoc_set_prop_eq.
  - now apply IH.
Qed.

Lemma extract_field_scalar (ex : JsVal -> Fueled JsVal) (fields : JsVal)
    (locale fieldKey : string) :
  let localized := prop (prop fields fieldKey) locale in
  instanceof_Array localized = false ->
  is_nested_entry localized = false ->
  extract_field ex fields locale fieldKey =
  Some (Resolved (if truthy localized then localized else JStr "")).
Proof.
  unfold extract_field, is_nested_entry. cbn zeta. intros Ha Hn.
  rewrite Ha, andb_false_r, <- andb_assoc, Hn, andb_false_r.
  unfold js_or, js_and.
  destruct (truthy (prop fields fieldKey)) eqn:Ef; [reflexivity|].
  rewrite Ef, (falsy_prop _ locale Ef). reflexivity.
Qed.




(** ** Runs of the program *)

Section Facts.

Variable St : Type.
Variable exec : Command -> St -> Promise * St.
Variable cfSync : JsVal -> Promise.
Variable JSON_stringify : JsVal -> JsVal.
Variable JSON_parse : JsVal -> Outcome JsVal.
Variable cfg : Config.

Set Default Proof Using "Type".

Local Abbreviation within := (within St).
Local Abbreviation followed := (followed St).
Local Abbreviation selected := (selected cfg).
Local Abbreviation write_of := (write_of JSON_stringify cfg).
Local Abbreviation fetch_phase := (fetch_phase St exec).
Local Abbreviation values_of := (values_of JSON_parse).
Local Abbreviation grouped := (grouped JSON_parse).

Notation "x <- m ;; k" := (bind m (fun x => k))
  (at level 61, m at next level, right associativity) : js_scope.

Lemma bind_trace {A B : Type} (m : M St A) (f : A -> M St B) (s : St) :
  trace (bind m f s) =
  trace (m s) ++ match result (m s) with
                 | Resolved a => trace (f a (store (m s)))
                 | Rejected _ => []
                 end.
Proof.
  unfold bind. destruct (result (m s)); simpl; [reflexivity|now rewrite app_nil_r].
Qed.

Lemma bind_result {A B : Type} (m : M St A) (f : A -> M St B) (s : St) :
  result (bind m f s) =
  match result (m s) with
  | Resolved a => result (f a (store (m s)))
  | Rejected e => Rejected e
  end.
Proof. unfold bind. now destruct (result (m s)). Qed.

Lemma bind_store {A B : Type} (m : M St A) (f : A -> M St B) (s : St) :
  store (bind m f s) =
  match result (m s) with
  | Resolved a => store (f a (store (m s)))
  | Rejected e => store (m s)
  end.
Proof. unfold bind. now destruct (result (m s)). Qed.

Lemma bind_resolved {A B : Type} (m : M St A) (f : A -> M St B) (s : St) (b : B) :
  result (bind m f s) = Resolved b ->
  exists a, result (m s) = Resolved a /\ result (f a (store (m s))) = Resolved b /\
            trace (bind m f s) = trace (m s) ++ trace (f a (store (m s))) /\
            store (bind m f s) = store (f a (store (m s))).
Proof.
  rewrite bind_result, bind_trace, bind_store.
  destruct (result (m s)) as [a|e]; [|discriminate]. intros H. now exists a.
Qed.

Lemma bind_run_resolved {A B : Type} (m : M St A) (f : A -> M St B) (s : St) (a : A) :
  result (m s) = Resolved a ->
  bind m f s =
  mkRun (result (f a (store (m s)))) (store (f a (store (m s))))
        (trace (m s) ++ trace (f a (store (m s)))).
Proof. unfold bind. now intros ->. Qed.

Lemma dispatch_run (c : Command) (s : St) :
  dispatch St exec c s =
  mkRun (Resolved (fst (exec c s))) (snd (exec c s)) [Redis c (fst (exec c s))].
Proof. unfold dispatch. now destruct (exec c s). Qed.

(** *** Every event of a computation satisfies [P] *)

Lemma within_ret {A : Type} (P : Event -> Prop) (a : A) : within P (ret a).
Proof. intros s. constructor. Qed.

Lemma within_lift {A : Type} (P : Event -> Prop) (o : Outcome A) : within P (lift o).
Proof. intros s. constructor. Qed.

Lemma within_bind {A B : Type} (P : Event -> Prop) (m : M St A) (f : A -> M St B) :
  within P m -> (forall a, within P (f a)) -> within P (bind m f).
Proof.
  intros Hm Hf s. rewrite bind_trace. apply Forall_app. split; [apply Hm|].
  destruct (result (m s)); [apply Hf|constructor].
Qed.

Lemma within_dispatch (P : Event -> Prop) (c : Command) :
  (forall p, P (Redis c p)) -> within P (dispatch St exec c).
Proof.
  intros H s. unfold dispatch. destruct (exec c s). simpl. now repeat constructor.
Qed.

Lemma within_for_each {A B : Type} (P : Event -> Prop) (f : A -> M St B) (l : list A) :
  (forall x, In x l -> within P (f x)) -> within P (for_each f l).
Proof.
  induction l as [|x l IH]; simpl; intros H.
  - apply within_ret.
  - apply within_bind; [apply H; now left|]. intros y.
    apply within_bind; [apply IH; intros; apply H; now right|].
    intros ys. apply within_ret.
Qed.

Lemma within_try_catch {A : Type} (P : Event -> Prop) (m : M St A) (h : JsError -> M St A) :
  within P m -> (forall e, within P (h e)) -> within P (try_catch m h).
Proof.
  intros Hm Hh s. unfold try_catch. destruct (result (m s)) eqn:E; [apply Hm|].
  simpl. apply Forall_app. split; [apply Hm|apply Hh].
Qed.

Lemma within_async (P : Event -> Prop) (m : M St JsVal) :
  within P m -> within P (async m).
Proof. intros Hm s. apply Hm. Qed.

Lemma within_weaken {A : Type} (P Q : Event -> Prop) (m : M St A) :
  (forall ev, P ev -> Q ev) -> within P m -> within Q m.
Proof. intros H Hm s. eapply Forall_impl; [exact H|apply Hm]. Qed.

Lemma commands_app (name : string) (t1 t2 : list Event) :
  commands name (t1 ++ t2) = commands name t1 ++ commands name t2.
Proof. unfold commands. apply flat_map_app. Qed.

Lemma commands_Contentful (name : string) (q : JsVal) (p : Promise) (t : list Event) :
  commands name (Contentful q p :: t) = commands name t.
Proof. reflexivity. Qed.

Lemma commands_none (name : string) (names : list string) (t : list Event) :
  Forall (named names) t -> ~ In name names -> commands name t = [].
Proof.
  intros H Hn. induction H as [|ev t Hev _ IH]; [reflexivity|].
  unfold commands in *. simpl. rewrite IH, app_nil_r.
  destruct ev as [c p|q p]; [|reflexivity].
  destruct (String.eqb (event_name (Redis c p)) name) eqn:E; [|reflexivity].
  apply String.eqb_eq in E. unfold named in Hev. rewrite E in Hev. contradiction.
Qed.

(** *** [sync]: the phases *)

Lemma getp_resolved (v x : JsVal) (k : string) :
  getp v k = Resolved x -> x = prop v k /\ v <> JUndefined /\ v <> JNull.
Proof. destruct v; simpl; intros H; inversion H; repeat split; discriminate. Qed.

Lemma content_type_id_resolved (entry id : JsVal) :
  content_type_id entry = Resolved id -> id = entry_type entry.
Proof.
  unfold content_type_id, entry_type, obind.
  destruct (getp entry "sys") as [sys|] eqn:E1; [|discriminate].
  destruct (getp sys "contentType") as [ct|] eqn:E2; [|discriminate].
  destruct (getp ct "sys") as [ctsys|] eqn:E3; [|discriminate].
  intros E4.
  apply getp_resolved in E1 as [-> _]. apply getp_resolved in E2 as [-> _].
  apply getp_resolved in E3 as [-> _]. now apply getp_resolved in E4 as [-> _].
Qed.

Lemma identifier_value_amended (entry : JsVal) :
  identifier_value cfg entry = identifier_amended cfg entry.
Proof.
  unfold identifier_value, identifier_amended, js_or, js_and.
  set (fields := prop entry "fields").
  set (field := prop fields (identifier_key cfg)).
  destruct (truthy fields) eqn:E1.
  - destruct (truthy field) eqn:E2; [reflexivity|].
    rewrite E2. now rewrite (falsy_prop field (locale cfg) E2).
  - rewrite E1.
    assert (E2 : truthy field = false) by now apply falsy_prop.
    now rewrite (falsy_prop field (locale cfg) E2).
Qed.

(** What one iteration of [finalEntries.forEach] does. *)
Lemma write_entry_run (entry : JsVal) (s : St) :
  write_entry St exec JSON_stringify cfg entry s =
  match content_type_id entry, extract entry (locale cfg) with
  | Resolved _, Resolved x =>
      let c := SET (key_amended cfg entry) (JSON_stringify x) None in
      mkRun (Resolved (fst (exec c s))) (snd (exec c s)) [Redis c (fst (exec c s))]
  | Rejected e, _ => mkRun (Rejected e) s []
  | Resolved _, Rejected e => mkRun (Rejected e) s []
  end.
Proof.
  unfold write_entry, content_type_id, bind, lift, rSet, dispatch, obind. simpl.
  destruct (getp entry "sys") as [sys|] eqn:E1; simpl; [|reflexivity].
  destruct (getp sys "contentType") as [ct|] eqn:E2; simpl; [|reflexivity].
  destruct (getp ct "sys") as [ctsys|] eqn:E3; simpl; [|reflexivity].
  destruct (getp ctsys "id") as [id|] eqn:E4; simpl; [|reflexivity].
  destruct (extract entry (locale cfg)) as [x|]; simpl; [|reflexivity].
  assert (Ek : cache_key cfg entry id sys = key_amended cfg entry).
  { unfold cache_key, key_amended, buildKey, entry_type, entry_id.
    rewrite identifier_value_amended.
    apply getp_resolved in E1 as [-> _]. apply getp_resolved in E2 as [-> _].
    apply getp_resolved in E3 as [-> _]. apply getp_resolved in E4 as [-> _].
    reflexivity. }
  rewrite Ek. destruct (exec _ s). reflexivity.
Qed.

Lemma write_entry_resolved (entry : JsVal) (s : St) (p : Promise) :
  result (write_entry St exec JSON_stringify cfg entry s) = Resolved p ->
  trace (write_entry St exec JSON_stringify cfg entry s) = [Redis (write_of entry) p].
Proof.
  rewrite write_entry_run. unfold write_of.
  destruct (content_type_id entry); [|discriminate].
  destruct (extract entry (locale cfg)); [|discriminate].
  simpl. now intros [= ->].
Qed.

Lemma write_entry_within (entry : JsVal) :
  within (fun ev => exists p, ev = Redis (write_of entry) p)
         (write_entry St exec JSON_stringify cfg entry).
Proof.
  intros s. rewrite write_entry_run. unfold write_of.
  destruct (content_type_id entry); [|constructor].
  destruct (extract entry (locale cfg)); [|constructor].
  simpl. repeat constructor. eauto.
Qed.

Lemma for_each_resolved {A B : Type} (f : A -> M St B) (l : list A) (s : St) (ys : list B) :
  result (for_each f l s) = Resolved ys ->
  length ys = length l /\
  exists ts : list (list Event),
    trace (for_each f l s) = concat ts /\
    Forall2 (fun xy t => exists s', result (f (fst xy) s') = Resolved (snd xy) /\
                                    t = trace (f (fst xy) s'))
            (combine l ys) ts.
Proof.
  revert s ys. induction l as [|x l IH]; simpl; intros s ys H.
  - injection H as <-. split; [reflexivity|]. exists []. split; [reflexivity|constructor].
  - apply bind_resolved in H as [y [Hy [H [Ht _]]]].
    apply bind_resolved in H as [ys' [Hys [H [Ht' _]]]].
    injection H as <-. rewrite Ht, Ht'. simpl. rewrite app_nil_r.
    destruct (IH _ _ Hys) as [Hlen [ts [Hts Hall]]].
    split; [simpl; now rewrite Hlen|].
    exists (trace (f x s) :: ts). split; [simpl; now rewrite Hts|].
    constructor; [|assumption]. exists s. now split.
Qed.

(** [entries.filter] keeps the allowed entries, in order. *)
Lemma filter_allowed_resolved (entries kept : list JsVal) :
  filter_allowed cfg entries = Resolved kept ->
  kept = filter (fun entry => allowed cfg (entry_type entry)) entries.
Proof.
  revert kept. induction entries as [|entry entries IH]; simpl; intros kept H.
  - now injection H as <-.
  - unfold obind in H.
    destruct (content_type_id entry) as [id|] eqn:E; [|discriminate].
    destruct (filter_allowed cfg entries) as [kept'|]; [|discriminate].
    injection H as <-. apply content_type_id_resolved in E. subst id.
    rewrite (IH _ eq_refl). reflexivity.
Qed.

Lemma filter_allowed_incl (entries kept : list JsVal) :
  filter_allowed cfg entries = Resolved kept -> incl kept entries.
Proof.
  intros H. rewrite (filter_allowed_resolved _ _ H). intros x Hx.
  now apply filter_In in Hx.
Qed.

Lemma final_entries_resolved (entries : JsVal) (l : list JsVal) :
  final_entries cfg entries = Resolved l -> l = selected (array_elems entries).
Proof.
  unfold final_entries, selected, as_array, obind.
  destruct (contentTypes cfg).
  - destruct entries; try discriminate. now intros [= <-].
  - destruct entries; try discriminate. simpl. apply filter_allowed_resolved.
Qed.

Lemma selected_incl (entries : list JsVal) : incl (selected entries) entries.
Proof.
  unfold selected. destruct (contentTypes cfg); [apply incl_refl|].
  intros x Hx. now apply filter_In in Hx.
Qed.

Lemma sync_mode_named (r : JsVal) :
  within (named ["hget"]) (sync_mode St exec r).
Proof.
  unfold sync_mode. destruct (truthy r); [apply within_ret|].
  apply within_bind; [apply within_dispatch; intros; now left|].
  intros p. apply within_bind; [apply within_lift|]. intros. apply within_ret.
Qed.

Lemma sync_flush_named (isInitial : bool) :
  within (named ["flushdb"]) (sync_flush St exec isInitial).
Proof.
  unfold sync_flush. destruct isInitial; [|apply within_ret].
  apply within_bind; [apply within_dispatch; intros; now left|].
  intros p. apply within_lift.
Qed.

Lemma sync_persist_named (response : JsVal) :
  within (named ["hset"]) (sync_persist St exec response).
Proof.
  unfold sync_persist.
  apply within_bind; [apply within_dispatch; intros; now left|].
  intros p. apply within_lift.
Qed.

Lemma delete_entry_named (entry : JsVal) :
  within (named ["scan"; "del"]) (delete_entry St exec entry).
Proof.
  unfold delete_entry.
  apply within_bind; [apply within_lift|]. intros sys.
  apply within_bind; [apply within_lift|]. intros id.
  apply within_bind; [apply within_dispatch; intros; now left|]. intros p.
  apply within_bind; [apply within_lift|]. intros responseKey.
  apply within_bind; [apply within_lift|]. intros matched.
  destruct (truthy matched); [|apply within_ret].
  apply within_bind; [apply within_dispatch; intros; right; now left|].
  intros d. apply within_ret.
Qed.

Lemma sync_deletes_named (response : JsVal) :
  within (named ["scan"; "del"]) (sync_deletes St exec response).
Proof.
  unfold sync_deletes.
  apply within_bind; [apply within_lift|]. intros deleted.
  destruct (truthy _); [|apply within_ret].
  apply within_bind; [apply within_lift|]. intros ds.
  apply within_bind; [|intros; apply within_ret].
  apply within_for_each. intros. apply delete_entry_named.
Qed.

(** Every event of the write phase is the write of a changed entry. *)
Lemma sync_writes_within (response : JsVal) :
  within (fun ev => exists entry p,
            In entry (selected (changed_entries response)) /\
            ev = Redis (write_of entry) p)
         (sync_writes St exec JSON_stringify cfg response).
Proof.
  unfold sync_writes. intros s. rewrite bind_trace. simpl.
  destruct (getp response "entries") as [entries|] eqn:E; simpl; [|constructor].
  apply getp_resolved in E as [-> _].
  destruct (truthy _); [|constructor].
  rewrite bind_trace. simpl.
  destruct (final_entries cfg (prop response "entries")) as [l|] eqn:El; simpl;
    [|constructor].
  apply final_entries_resolved in El. subst l.
  apply within_for_each. intros entry He.
  eapply within_weaken; [|apply write_entry_within].
  intros ev [p ->]. eauto.
Qed.

Lemma sync_writes_named (response : JsVal) :
  within (named ["set"]) (sync_writes St exec JSON_stringify cfg response).
Proof.
  eapply within_weaken; [|apply sync_writes_within].
  intros ev [entry [p [_ ->]]]. now left.
Qed.

(** The events of [sync], phase by phase. *)
Lemma sync_collect_trace (r : JsVal) (s : St) :
  trace (sync_collect St exec cfSync JSON_stringify cfg r s) =
  let m := sync_mode St exec r s in
  trace m ++
  match result m with
  | Rejected _ => []
  | Resolved mode =>
      let q := sync_query (fst mode) (snd mode) in
      Contentful q (cfSync q) ::
      match cfSync q with
      | Rejected _ => []
      | Resolved response =>
          let fl := sync_flush St exec (fst mode) (store m) in
          trace fl ++
          match result fl with
          | Rejected _ => []
          | Resolved _ =>
              let w := sync_writes St exec JSON_stringify cfg response (store fl) in
              trace w ++
              match result w with
              | Rejected _ => []
              | Resolved _ => trace (sync_deletes St exec response (store w))
              end
          end
      end
  end.
Proof.
  unfold sync_collect. cbn zeta. rewrite bind_trace. f_equal.
  destruct (result (sync_mode St exec r s)) as [mode|]; [|reflexivity].
  rewrite bind_trace. unfold cfClient_sync at 1 2 3. simpl. f_equal.
  rewrite bind_trace. simpl.
  destruct (cfSync (sync_query (fst mode) (snd mode))) as [response|]; [|reflexivity].
  simpl. rewrite bind_trace. f_equal.
  destruct (result (sync_flush St exec (fst mode) _)); [|reflexivity].
  rewrite bind_trace. f_equal.
  destruct (result (sync_writes St exec JSON_stringify cfg response _)); [|reflexivity].
  rewrite bind_trace.
  destruct (result (sync_deletes St exec response _)); simpl; now rewrite app_nil_r.
Qed.

Lemma sync_trace (r : JsVal) (s : St) :
  trace (sync St exec cfSync JSON_stringify cfg r s) =
  let c := sync_collect St exec cfSync JSON_stringify cfg r s in
  trace c ++
  match result c with
  | Rejected _ => []
  | Resolved rp => trace (sync_persist St exec (fst rp) (store c))
  end.
Proof.
  unfold sync, async, sync_body, try_catch. cbn zeta. cbn [trace].
  set (body := bind _ _).
  assert (Hb : trace (body s) =
               trace (sync_collect St exec cfSync JSON_stringify cfg r s) ++
               match result (sync_collect St exec cfSync JSON_stringify cfg r s) with
               | Rejected _ => []
               | Resolved rp =>
                   trace (sync_persist St exec (fst rp)
                            (store (sync_collect St exec cfSync JSON_stringify cfg r s)))
               end).
  { unfold body. rewrite bind_trace. f_equal.
    destruct (result (sync_collect St exec cfSync JSON_stringify cfg r s)) as [rp|];
      [|reflexivity].
    rewrite bind_trace.
    destruct (result (sync_persist St exec (fst rp) _)); simpl;
      [|now rewrite app_nil_r].
    rewrite bind_trace. simpl. destruct (Promise_all (snd rp)); simpl;
      now rewrite !app_nil_r. }
  destruct (result (body s)); simpl; [exact Hb|].
  rewrite app_nil_r. exact Hb.
Qed.

Lemma named_In (names : list string) (t : list Event) (ev : Event) :
  Forall (named names) t -> In ev t -> In (event_name ev) names.
Proof. intros H Hin. rewrite Forall_forall in H. now apply H. Qed.

(** [H] says that a name is one of a list of other names. *)
Ltac no_name H :=
  simpl in H; repeat (destruct H as [H|H]; [discriminate H|]); exact H.

(** The goal says that a name is not in a list of other names. *)
Ltac not_named :=
  simpl; let H := fresh "H" in intros H; no_name H.

(** Every write of a run of [sync] is the write of a selected entry of the
    response the run fetched. *)
Lemma sync_set_events (r : JsVal) (s : St) (c : Command) (reply : Promise) :
  In (Redis c reply) (trace (sync St exec cfSync JSON_stringify cfg r s)) ->
  event_name (Redis c reply) = "set" ->
  exists q response entry,
    In (Contentful q (Resolved response))
       (trace (sync St exec cfSync JSON_stringify cfg r s)) /\
    In entry (selected (changed_entries response)) /\
    c = write_of entry.
Proof.
  intros H Hn. rewrite sync_trace in *. cbn zeta in *.
  apply in_app_or in H as [H|H].
  2:{ destruct (result (sync_collect St exec cfSync JSON_stringify cfg r s)); [|destruct H].
      exfalso. apply (named_In _ _ _ (sync_persist_named (fst a) _)) in H.
      rewrite Hn in H. no_name H. }
  rewrite sync_collect_trace in *. cbn zeta in *.
  apply in_app_or in H as [H|H].
  { exfalso. apply (named_In _ _ _ (sync_mode_named r _)) in H.
    rewrite Hn in H. no_name H. }
  destruct (result (sync_mode St exec r s)) as [mode|]; [|destruct H].
  destruct H as [H|H]; [discriminate H|].
  destruct (cfSync (sync_query (fst mode) (snd mode))) as [response|] eqn:Er; [|destruct H].
  apply in_app_or in H as [H|H].
  { exfalso. apply (named_In _ _ _ (sync_flush_named (fst mode) _)) in H.
    rewrite Hn in H. no_name H. }
  destruct (result (sync_flush St exec (fst mode) _)); [|destruct H].
  apply in_app_or in H as [H|H].
  - destruct (proj1 (Forall_forall _ _) (sync_writes_within response _) _ H)
      as [entry [p [He Hev]]].
    injection Hev as -> ->.
    exists (sync_query (fst mode) (snd mode)), response, entry.
    split; [|split; [exact He|reflexivity]].
    apply in_or_app. left. apply in_or_app. right. now left.
  - destruct (result (sync_writes St exec JSON_stringify cfg response _)); [|destruct H].
    exfalso. apply (named_In _ _ _ (sync_deletes_named response _)) in H.
    rewrite Hn in H. no_name H.
Qed.

(** C1, as amended: every key [sync] writes is
    ["{type}:{identifierValue}:{entryId}"] for a changed entry of the
    fetched response, where [identifierValue] is the localized value of the
    identifier field, and the empty string when that value is missing or
    falsy; the value written is the serialized flattened entry. *)
Theorem sync_cache_key (r : JsVal) (s : St)
    (k : string) (v : JsVal) (e : option JsVal) (reply : Promise) :
  In (Redis (SET k v e) reply) (trace (sync St exec cfSync JSON_stringify cfg r s)) ->
  exists q response entry,
    In (Contentful q (Resolved response))
       (trace (sync St exec cfSync JSON_stringify cfg r s)) /\
    In entry (changed_entries response) /\
    k = buildKey (to_string (entry_type entry))
                 (to_string (identifier_amended cfg entry))
                 (to_string (entry_id entry)) /\
    v = JSON_stringify (resolved_value (extract entry (locale cfg))) /\
    e = None.
Proof.
  intros H.
  destruct (sync_set_events r s _ _ H eq_refl) as [q [response [entry [Hq [He Hc]]]]].
  injection Hc as -> -> ->.
  exists q, response, entry.
  split; [exact Hq|split; [exact (selected_incl _ _ He)|repeat split]].
Qed.

(** A run of [sync] that reaches the persisting of the cursor went through
    every earlier phase. *)
Lemma sync_collect_resolved (r : JsVal) (s : St) (response : JsVal) (promises : list Promise) :
  result (sync_collect St exec cfSync JSON_stringify cfg r s) = Resolved (response, promises) ->
  exists mode x writes deletes,
    let m := sync_mode St exec r s in
    let fl := sync_flush St exec (fst mode) (store m) in
    let w := sync_writes St exec JSON_stringify cfg response (store fl) in
    let d := sync_deletes St exec response (store w) in
    result m = Resolved mode /\
    cfSync (sync_query (fst mode) (snd mode)) = Resolved response /\
    result fl = Resolved x /\
    result w = Resolved writes /\
    result d = Resolved deletes /\
    promises = writes ++ deletes /\
    store (sync_collect St exec cfSync JSON_stringify cfg r s) = store d /\
    trace (sync_collect St exec cfSync JSON_stringify cfg r s) =
      trace m ++ Contentful (sync_query (fst mode) (snd mode)) (Resolved response)
        :: trace fl ++ trace w ++ trace d.
Proof.
  intros H. pose proof (sync_collect_trace r s) as Ht. cbn zeta in Ht.
  unfold sync_collect in H.
  apply bind_resolved in H as [mode [Hm [H [_ Hs1]]]].
  apply bind_resolved in H as [p [Hp [H [_ Hs2]]]].
  unfold cfClient_sync in Hp, H, Hs2. cbn [result store] in Hp, H, Hs2. injection Hp as <-.
  apply bind_resolved in H as [response' [Hr [H [_ Hs3]]]].
  unfold await, lift in Hr, H, Hs3. cbn [result store] in Hr, H, Hs3.
  apply bind_resolved in H as [x [Hx [H [_ Hs4]]]].
  apply bind_resolved in H as [writes [Hw [H [_ Hs5]]]].
  apply bind_resolved in H as [deletes [Hd [H [_ Hs6]]]].
  simpl in H, Hs6. injection H as <- <-.
  exists mode, x, writes, deletes. cbn zeta.
  rewrite Hm, Hr, Hx, Hw in Ht.
  repeat split; try assumption.
  unfold sync_collect. rewrite bind_store, Hm, bind_store.
  unfold cfClient_sync. cbn [result store]. rewrite bind_store.
  unfold await, lift. cbn [result store]. rewrite Hr.
  rewrite bind_store, Hx, bind_store, Hw, bind_store, Hd. reflexivity.
Qed.

Lemma for_each_write_commands (l : list JsVal) (s : St) (ps : list Promise) :
  result (for_each (write_entry St exec JSON_stringify cfg) l s) = Resolved ps ->
  commands "set" (trace (for_each (write_entry St exec JSON_stringify cfg) l s)) =
  map write_of l.
Proof.
  revert s ps. induction l as [|entry l IH]; simpl; intros s ps H; [reflexivity|].
  apply bind_resolved in H as [p [Hp [H [Ht _]]]].
  apply bind_resolved in H as [ps' [Hps [H [Ht' _]]]].
  rewrite Ht, Ht'. simpl. rewrite app_nil_r, commands_app.
  rewrite (write_entry_resolved _ _ _ Hp), (IH _ _ Hps). reflexivity.
Qed.

Lemma falsy_length_elems (v : JsVal) :
  truthy (js_and v (prop v "length")) = false -> array_elems v = [].
Proof.
  destruct v as [| | | | |elems props|]; try reflexivity.
  unfold js_and. simpl. destruct elems; [reflexivity|discriminate].
Qed.

Lemma selected_nil : selected [] = [].
Proof. unfold selected. now destruct (contentTypes cfg). Qed.

Lemma sync_writes_commands (response : JsVal) (s : St) (ps : list Promise) :
  result (sync_writes St exec JSON_stringify cfg response s) = Resolved ps ->
  commands "set" (trace (sync_writes St exec JSON_stringify cfg response s)) =
  map write_of (selected (changed_entries response)).
Proof.
  unfold sync_writes, changed_entries. intros H.
  apply bind_resolved in H as [entries [He [H [Ht _]]]].
  rewrite Ht. simpl in He, H |- *. apply getp_resolved in He as [-> _].
  destruct (truthy _) eqn:El.
  - apply bind_resolved in H as [l [Hl [H [Ht' _]]]].
    rewrite Ht'. simpl in Hl, H |- *.
    apply final_entries_resolved in Hl. subst l.
    now apply for_each_write_commands in H.
  - rewrite (falsy_length_elems _ El), selected_nil. reflexivity.
Qed.

Lemma allowed_spec (id : JsVal) :
  allowed cfg id = true <-> exists t, In t (contentTypes cfg) /\ id = JStr t.
Proof.
  unfold allowed. destruct id; try (split; [discriminate|intros [t [_ H]]; discriminate]).
  rewrite existsb_eqb_In. split.
  - intros H. now exists s.
  - intros [t [H [= ->]]]. exact H.
Qed.

(** C4: in every run of [sync] each write is the write of a selected entry
    of the fetched response, and a run that reaches the persisting of the
    cursor has written exactly the selected entries, in order; the selected
    entries are every changed entry when the allow-list is empty, and
    otherwise the changed entries whose content type is a member of the
    list. *)
Theorem sync_content_type_filter (r : JsVal) (s : St) :
  (forall c reply,
     In (Redis c reply) (trace (sync St exec cfSync JSON_stringify cfg r s)) ->
     event_name (Redis c reply) = "set" ->
     exists q response entry,
       In (Contentful q (Resolved response))
          (trace (sync St exec cfSync JSON_stringify cfg r s)) /\
       In entry (selected (changed_entries response)) /\
       c = write_of entry) /\
  (forall response promises,
     result (sync_collect St exec cfSync JSON_stringify cfg r s)
       = Resolved (response, promises) ->
     commands "set" (trace (sync St exec cfSync JSON_stringify cfg r s))
       = map write_of (selected (changed_entries response))) /\
  (forall entries,
     (contentTypes cfg = [] -> selected entries = entries) /\
     (contentTypes cfg <> [] ->
        forall entry,
          In entry (selected entries) <->
          In entry entries /\
          exists t, In t (contentTypes cfg) /\ entry_type entry = JStr t)).
Proof.
  split; [|split].
  - intros c reply. apply sync_set_events.
  - intros response promises H. rewrite sync_trace. cbn zeta. rewrite H.
    destruct (sync_collect_resolved _ _ _ _ H)
      as [mode [x [writes [deletes [Hm [Hr [Hx [Hw [Hd [Hp [Hs Ht]]]]]]]]]]].
    rewrite Ht. rewrite !commands_app, commands_Contentful, !commands_app.
    rewrite (commands_none "set" _ _ (sync_mode_named r s)),
            (commands_none "set" _ _ (sync_flush_named (fst mode) _)),
            (commands_none "set" _ _ (sync_deletes_named response _)),
            (commands_none "set" _ _ (sync_persist_named response _)),
            (sync_writes_commands _ _ _ Hw);
      try not_named.
    simpl. now rewrite !app_nil_r.
  - intros entries. split.
    + unfold selected. now intros ->.
    + intros Hne entry. unfold selected.
      destruct (contentTypes cfg) eqn:E; [contradiction|]. rewrite <- E.
      rewrite filter_In, allowed_spec. reflexivity.
Qed.

Lemma sync_collect_result (r : JsVal) (s : St) :
  result (sync_collect St exec cfSync JSON_stringify cfg r s) =
  let m := sync_mode St exec r s in
  match result m with
  | Rejected e => Rejected e
  | Resolved mode =>
      match cfSync (sync_query (fst mode) (snd mode)) with
      | Rejected e => Rejected e
      | Resolved response =>
          let fl := sync_flush St exec (fst mode) (store m) in
          match result fl with
          | Rejected e => Rejected e
          | Resolved _ =>
              let w := sync_writes St exec JSON_stringify cfg response (store fl) in
              match result w with
              | Rejected e => Rejected e
              | Resolved writes =>
                  match result (sync_deletes St exec response (store w)) with
                  | Rejected e => Rejected e
                  | Resolved deletes => Resolved (response, writes ++ deletes)
                  end
              end
          end
      end
  end.
Proof.
  unfold sync_collect. cbn zeta. rewrite bind_result.
  destruct (result (sync_mode St exec r s)) as [mode|]; [|reflexivity].
  rewrite bind_result. unfold cfClient_sync at 1 2. cbn [result store].
  rewrite bind_result. unfold await, lift. cbn [result store].
  destruct (cfSync (sync_query (fst mode) (snd mode))) as [response|]; [|reflexivity].
  rewrite bind_result.
  destruct (result (sync_flush St exec (fst mode) _)); [|reflexivity].
  rewrite bind_result.
  destruct (result (sync_writes St exec JSON_stringify cfg response _)); [|reflexivity].
  rewrite bind_result.
  destruct (result (sync_deletes St exec response _)); reflexivity.
Qed.

Lemma sync_mode_reset (r : JsVal) (s : St) :
  truthy r = true ->
  sync_mode St exec r s = mkRun (Resolved (true, JUndefined)) s [].
Proof. unfold sync_mode. now intros ->. Qed.

Lemma sync_mode_read (r : JsVal) (s : St) (token : JsVal) :
  truthy r = false ->
  fst (exec read_cursor s) = Resolved token ->
  sync_mode St exec r s =
  mkRun (Resolved (negb (truthy token), token)) (snd (exec read_cursor s))
        [Redis read_cursor (Resolved token)].
Proof.
  unfold sync_mode, read_cursor, rHGet, dispatch, bind, await, lift, ret.
  intros -> H. destruct (exec _ s) as [p s1]. simpl in *. subst p. reflexivity.
Qed.

Lemma sync_flush_initial (s : St) :
  sync_flush St exec true s =
  mkRun (fst (exec FLUSHDB s)) (snd (exec FLUSHDB s))
        [Redis FLUSHDB (fst (exec FLUSHDB s))].
Proof.
  unfold sync_flush, dispatch, bind, await, lift.
  destruct (exec FLUSHDB s) as [[x|e] s1]; reflexivity.
Qed.

(** The events that follow the fetch of an initial sync. *)
Lemma initial_wipe_first (r : JsVal) (s : St) (mode : bool * JsVal) :
  result (sync_mode St exec r s) = Resolved mode ->
  fst mode = true ->
  exists rest,
    trace (sync St exec cfSync JSON_stringify cfg r s) =
      trace (sync_mode St exec r s)
      ++ Contentful initial_query (cfSync initial_query) :: rest /\
    wipe_first (cfSync initial_query) rest.
Proof.
  intros Hm Hi. rewrite sync_trace. cbn zeta.
  rewrite sync_collect_trace, sync_collect_result. cbn zeta. rewrite Hm.
  destruct mode as [i token]. simpl in Hi. subst i. cbn [fst snd].
  change (sync_query true token) with initial_query.
  destruct (cfSync initial_query) as [response|e] eqn:Er.
  - rewrite sync_flush_initial. cbn [result store trace].
    destruct (fst (exec FLUSHDB _)) as [x|e] eqn:Ef.
    + eexists. split.
      * rewrite <- app_assoc. simpl. reflexivity.
      * simpl. eexists _, _. split; [reflexivity|]. intros e; discriminate.
    + eexists. split.
      * rewrite <- app_assoc. simpl. reflexivity.
      * simpl. eexists _, _. split; [reflexivity|]. intros _ _. reflexivity.
  - exists []. split; [now rewrite app_nil_r|reflexivity].
Qed.

(** C3, as amended: [sync] with a truthy [shouldReset] reads no cursor,
    fetches with [{initial: true}] and wipes the store before anything
    else; otherwise it reads the persisted cursor: when there is none, or it
    is the empty string, the run is the same initial sync, and when it is a
    non-empty cursor the fetch is passed that cursor and the store is never
    wiped. *)
Theorem sync_mode_selection (r : JsVal) (s : St) :
  (truthy r = true ->
     exists rest,
       trace (sync St exec cfSync JSON_stringify cfg r s) =
         Contentful initial_query (cfSync initial_query) :: rest /\
       wipe_first (cfSync initial_query) rest) /\
  (truthy r = false ->
     forall token, fst (exec read_cursor s) = Resolved token ->
       (truthy token = false ->
          exists rest,
            trace (sync St exec cfSync JSON_stringify cfg r s) =
              Redis read_cursor (Resolved token)
              :: Contentful initial_query (cfSync initial_query) :: rest /\
            wipe_first (cfSync initial_query) rest) /\
       (truthy token = true ->
          exists rest,
            trace (sync St exec cfSync JSON_stringify cfg r s) =
              Redis read_cursor (Resolved token)
              :: Contentful (incremental_query token)
                            (cfSync (incremental_query token)) :: rest /\
            commands "flushdb" rest = [])).
Proof.
  split.
  - intros Hr.
    destruct (initial_wipe_first r s (true, JUndefined)) as [rest [Ht Hw]];
      [now rewrite sync_mode_reset|reflexivity|].
    rewrite sync_mode_reset in Ht by assumption. now exists rest.
  - intros Hr token Htok. split; intros Ht.
    + destruct (initial_wipe_first r s (true, token)) as [rest [Hrest Hw]];
        [rewrite (sync_mode_read _ _ _ Hr Htok), Ht; reflexivity|reflexivity|].
      rewrite (sync_mode_read _ _ _ Hr Htok) in Hrest. now exists rest.
    + rewrite sync_trace. cbn zeta.
      rewrite sync_collect_trace. cbn zeta.
      rewrite (sync_mode_read _ _ _ Hr Htok), Ht. cbn [result store trace fst snd negb].
      change (sync_query false token) with (incremental_query token).
      eexists. split; [simpl; reflexivity|].
      rewrite commands_app.
      assert (Hp : forall c : Run St (JsVal * list Promise),
                 commands "flushdb"
                   match result c with
                   | Resolved rp => trace (sync_persist St exec (fst rp) (store c))
                   | Rejected _ => []
                   end = []).
      { intros c. destruct (result c); [|reflexivity].
        apply (commands_none _ _ _ (sync_persist_named _ _)). not_named. }
      rewrite Hp, app_nil_r.
      destruct (cfSync (incremental_query token)) as [response|]; [|reflexivity].
      rewrite commands_app.
      rewrite (commands_none _ _ _ (sync_writes_named response _))
        by not_named.
      destruct (result (sync_writes _ _ _ _ _ _)); [|reflexivity].
      apply (commands_none _ _ _ (sync_deletes_named response _)).
      not_named.
Qed.

(** *** The deletion loop *)

(** What one iteration of the deletion loop does. *)
Lemma delete_entry_run (entry : JsVal) (s : St) :
  delete_entry St exec entry s =
  match getp entry "sys" with
  | Rejected e => mkRun (Rejected e) s []
  | Resolved sys =>
      match getp sys "id" with
      | Rejected e => mkRun (Rejected e) s []
      | Resolved _ =>
          let c := suffix_scan entry in
          let p := fst (exec c s) in
          let s1 := snd (exec c s) in
          match p with
          | Rejected e => mkRun (Rejected e) s1 [Redis c p]
          | Resolved reply =>
              match getp reply "1" with
              | Rejected e => mkRun (Rejected e) s1 [Redis c p]
              | Resolved _ =>
                  if truthy (match_list reply) then
                    let d := fst (exec (DEL (match_list reply)) s1) in
                    mkRun (Resolved [d]) (snd (exec (DEL (match_list reply)) s1))
                          [Redis c p; Redis (DEL (match_list reply)) d]
                  else mkRun (Resolved []) s1 [Redis c p]
              end
          end
      end
  end.
Proof.
  unfold delete_entry, suffix_scan, entry_id, match_list, bind, lift, await, rScan,
    rDel, dispatch, ret.
  destruct (getp entry "sys") as [sys|] eqn:E1; simpl; [|reflexivity].
  destruct (getp sys "id") as [id|] eqn:E2; simpl; [|reflexivity].
  apply getp_resolved in E1 as [-> _]. apply getp_resolved in E2 as [-> _].
  destruct (exec _ s) as [[reply|e] s1]; simpl; [|reflexivity].
  destruct (getp reply "1") as [matched|] eqn:E3; simpl; [|reflexivity].
  apply getp_resolved in E3 as [-> _].
  destruct (truthy (prop reply "1")); simpl; [|reflexivity].
  destruct (exec _ s1). reflexivity.
Qed.

Section Followed.

Variable P : Event -> Prop.
Variable Q : Event -> Event -> Prop.

Local Abbreviation followed := (followed P Q).

Lemma each_followed_app (t1 t2 : list Event) :
  each_followed P Q t1 -> each_followed P Q t2 -> each_followed P Q (t1 ++ t2).
Proof.
  induction t1 as [|ev t1 IH]; simpl; intros H1 H2; [assumption|].
  destruct H1 as [Hev H1]. split; [|now apply IH].
  intros HP. specialize (Hev HP). destruct t1; [contradiction|exact Hev].
Qed.

Lemma each_followed_split (t t1 t2 : list Event) (ev : Event) :
  each_followed P Q t -> t = t1 ++ ev :: t2 -> P ev ->
  exists next t3, t2 = next :: t3 /\ Q ev next.
Proof.
  revert t. induction t1 as [|x t1 IH]; simpl; intros t H -> HP.
  - destruct H as [H _]. specialize (H HP). destruct t2 as [|next t3]; [contradiction|].
    now exists next, t3.
  - destruct H as [_ H]. now apply (IH _ H eq_refl).
Qed.

Lemma each_followed_none (t : list Event) :
  Forall (fun ev => ~ P ev) t -> each_followed P Q t.
Proof.
  induction 1 as [|ev t Hev _ IH]; simpl; [trivial|].
  split; [intros HP; contradiction|assumption].
Qed.

Lemma followed_bind {A B : Type} (m : M St A) (f : A -> M St B) :
  followed m -> (forall a, followed (f a)) -> followed (bind m f).
Proof.
  intros Hm Hf s. rewrite bind_trace. apply each_followed_app; [apply Hm|].
  destruct (result (m s)); [apply Hf|exact I].
Qed.

Lemma followed_silent {A : Type} (m : M St A) :
  (forall s, trace (m s) = []) -> followed m.
Proof. intros H s. rewrite H. exact I. Qed.

Lemma followed_for_each {A B : Type} (f : A -> M St B) (l : list A) :
  (forall x, followed (f x)) -> followed (for_each f l).
Proof.
  intros H. induction l as [|x l IH]; simpl.
  - now apply followed_silent.
  - apply followed_bind; [apply H|]. intros y.
    apply followed_bind; [apply IH|]. intros ys. now apply followed_silent.
Qed.

Lemma followed_named {A : Type} (names : list string) (m : M St A) :
  (forall ev, P ev -> ~ In (event_name ev) names) ->
  within (named names) m -> followed m.
Proof.
  intros Hn Hm s. apply each_followed_none.
  eapply Forall_impl; [|apply Hm]. intros ev Hev HP. exact (Hn ev HP Hev).
Qed.

End Followed.

Lemma scan_matched_name (ev : Event) : scan_matched ev -> event_name ev = "scan".
Proof. intros [c [p [k [reply [-> _]]]]]. reflexivity. Qed.

Lemma delete_entry_followed (entry : JsVal) :
  followed scan_matched deletes_page (delete_entry St exec entry).
Proof.
  intros s. rewrite delete_entry_run. cbn zeta.
  destruct (getp entry "sys") as [sys|]; [|exact I].
  destruct (getp sys "id"); [|exact I].
  destruct (fst (exec (suffix_scan entry) s)) as [reply|e] eqn:Ep.
  - destruct (getp reply "1") eqn:Eg.
    + destruct (truthy (match_list reply)) eqn:Et; simpl.
      * split; [|split; [|exact I]].
        -- intros _. unfold deletes_page, suffix_scan. eauto 10.
        -- intros [c [p [k [reply' [H _]]]]]. discriminate H.
      * split; [|exact I].
        intros [c [p [k [reply' [H Ht]]]]]. injection H as _ _ _ <-. congruence.
    + simpl. split; [|exact I].
      intros [c [p [k [reply' [H Ht]]]]]. injection H as _ _ _ <-.
      unfold match_list in Ht. destruct reply; simpl in *; congruence.
  - simpl. split; [|exact I]. intros [c [p [k [reply' [H _]]]]]. discriminate H.
Qed.

(** In every run of [sync], a scan that resolved with a truthy match list
    is immediately followed by the deletion of that list. *)
Lemma sync_followed (r : JsVal) :
  followed scan_matched deletes_page (sync St exec cfSync JSON_stringify cfg r).
Proof.
  assert (Hno : forall names, ~ In "scan" names ->
                forall ev, scan_matched ev -> ~ In (event_name ev) names).
  { intros names Hn ev Hev. now rewrite (scan_matched_name _ Hev). }
  intros s. rewrite sync_trace. cbn zeta. apply each_followed_app.
  2:{ destruct (result _); [|exact I].
      apply (followed_named _ _ ["hset"]); [|apply sync_persist_named].
      apply Hno. not_named. }
  rewrite sync_collect_trace. cbn zeta. apply each_followed_app.
  { apply (followed_named _ _ ["hget"]); [|apply sync_mode_named].
    apply Hno. not_named. }
  destruct (result (sync_mode St exec r s)) as [mode|]; [|exact I].
  split; [intros [c [p [k [reply [H _]]]]]; discriminate H|].
  destruct (cfSync _) as [response|]; [|exact I].
  apply each_followed_app.
  { apply (followed_named _ _ ["flushdb"]); [|apply sync_flush_named].
    apply Hno. not_named. }
  destruct (result (sync_flush St exec _ _)); [|exact I].
  apply each_followed_app.
  { apply (followed_named _ _ ["set"]); [|apply sync_writes_named].
    apply Hno. not_named. }
  destruct (result (sync_writes St exec _ _ _ _)); [|exact I].
  unfold sync_deletes.
  apply followed_bind; [now apply followed_silent|]. intros deleted.
  destruct (truthy _); [|now apply followed_silent].
  apply followed_bind; [now apply followed_silent|]. intros ds.
  apply followed_bind; [|intros; now apply followed_silent].
  apply followed_for_each. apply delete_entry_followed.
Qed.

Lemma for_each_delete_scans (l : list JsVal) (s : St) (pss : list (list Promise)) :
  result (for_each (delete_entry St exec) l s) = Resolved pss ->
  commands "scan" (trace (for_each (delete_entry St exec) l s)) = map suffix_scan l.
Proof.
  revert s pss. induction l as [|entry l IH]; simpl; intros s pss H; [reflexivity|].
  apply bind_resolved in H as [ps [Hp [H [Ht _]]]].
  apply bind_resolved in H as [pss' [Hps [H [Ht' _]]]].
  rewrite Ht, Ht'. simpl. rewrite app_nil_r, commands_app, (IH _ _ Hps).
  f_equal. revert Hp. rewrite delete_entry_run. cbn zeta.
  destruct (getp entry "sys") as [sys|]; [|discriminate].
  destruct (getp sys "id"); [|discriminate].
  destruct (fst (exec (suffix_scan entry) s)) as [reply|]; [|discriminate].
  destruct (getp reply "1"); [|discriminate].
  now destruct (truthy (match_list reply)).
Qed.

Lemma sync_deletes_scans (response : JsVal) (s : St) (ds : list Promise) :
  result (sync_deletes St exec response s) = Resolved ds ->
  commands "scan" (trace (sync_deletes St exec response s)) =
  map suffix_scan (deleted_entries response).
Proof.
  unfold sync_deletes, deleted_entries. intros H.
  apply bind_resolved in H as [deleted [He [H [Ht _]]]].
  rewrite Ht. simpl in He, H |- *. apply getp_resolved in He as [-> _].
  destruct (truthy _) eqn:El.
  - apply bind_resolved in H as [l [Hl [H [Ht' _]]]].
    rewrite Ht'. simpl in Hl, H |- *.
    apply bind_resolved in H as [pss [Hpss [_ [Ht'' _]]]].
    rewrite Ht''. simpl. rewrite app_nil_r.
    destruct (prop response "deletedEntries") as [| | | |str|elems props|props];
      try discriminate.
    + exfalso. injection Hl as <-.
      destruct str as [|c str]; [discriminate El|].
      change (chars (String c str))
        with (JStr (String c EmptyString) :: chars str) in Hpss.
      cbn [for_each] in Hpss. rewrite bind_result, delete_entry_run in Hpss.
      discriminate Hpss.
    + injection Hl as <-. now apply for_each_delete_scans in Hpss.
  - now rewrite (falsy_length_elems _ El).
Qed.

(** C7: a run of [sync] that reaches the persisting of the cursor sent
    exactly one scan for each deleted entry of the response, from cursor
    ["0"] and with the pattern ["*:*:{id}"]; and in every run, a scan that
    resolved with a match list is immediately followed by the deletion of
    that whole list.  No later page of a scan is ever requested. *)
Theorem sync_deletion_single_page (r : JsVal) (s : St) :
  (forall response promises,
     result (sync_collect St exec cfSync JSON_stringify cfg r s)
       = Resolved (response, promises) ->
     commands "scan" (trace (sync St exec cfSync JSON_stringify cfg r s))
       = map suffix_scan (deleted_entries response)) /\
  (forall t1 ev t2,
     trace (sync St exec cfSync JSON_stringify cfg r s) = t1 ++ ev :: t2 ->
     scan_matched ev ->
     exists next t3, t2 = next :: t3 /\ deletes_page ev next).
Proof.
  split.
  - intros response promises H. rewrite sync_trace. cbn zeta. rewrite H.
    destruct (sync_collect_resolved _ _ _ _ H)
      as [mode [x [writes [deletes [Hm [Hr [Hx [Hw [Hd [Hp [Hs Ht]]]]]]]]]]].
    rewrite Ht. rewrite !commands_app, commands_Contentful, !commands_app.
    rewrite (commands_none "scan" _ _ (sync_mode_named r s)),
            (commands_none "scan" _ _ (sync_flush_named (fst mode) _)),
            (commands_none "scan" _ _ (sync_writes_named response _)),
            (commands_none "scan" _ _ (sync_persist_named response _)),
            (sync_deletes_scans _ _ _ Hd);
      try not_named.
    simpl. now rewrite !app_nil_r.
  - intros t1 ev t2 Ht Hev.
    exact (each_followed_split _ _ _ _ _ _ (sync_followed r s) Ht Hev).
Qed.

(** C10: in every run of [sync], a suffix scan whose page holds an empty
    match list is immediately followed by a delete command that is given
    that empty list: the guard lets the empty list through. *)
Theorem sync_deletes_empty_page (r : JsVal) (s : St) (t1 t2 : list Event)
    (cursor pattern : string) (count : option string) (reply : JsVal)
    (props : list (string * JsVal)) :
  trace (sync St exec cfSync JSON_stringify cfg r s)
    = t1 ++ Redis (SCAN cursor pattern count) (Resolved reply) :: t2 ->
  match_list reply = JArr [] props ->
  exists d t3, t2 = Redis (DEL (JArr [] props)) d :: t3.
Proof.
  intros Ht Hm.
  destruct (each_followed_split _ _ _ _ _ _ (sync_followed r s) Ht)
    as [next [t3 [-> [c [p [k [reply' [d [He ->]]]]]]]]].
  - exists cursor, pattern, count, reply. split; [reflexivity|]. now rewrite Hm.
  - injection He as _ _ _ <-. rewrite Hm. now exists d, t3.
Qed.

(** *** The cursor is persisted before the promises are awaited *)

Lemma sync_persist_run (response : JsVal) (s : St) :
  sync_persist St exec response s =
  mkRun (fst (exec (persist_cursor response) s)) (snd (exec (persist_cursor response) s))
        [Redis (persist_cursor response) (fst (exec (persist_cursor response) s))].
Proof.
  unfold sync_persist, persist_cursor, rHSet, bind, await, lift.
  rewrite dispatch_run. cbn [result store trace].
  destruct (fst (exec _ s)); reflexivity.
Qed.

Lemma sync_after_collect (r : JsVal) (s : St) (response : JsVal) (promises : list Promise) :
  result (sync_collect St exec cfSync JSON_stringify cfg r s) = Resolved (response, promises) ->
  let c := sync_collect St exec cfSync JSON_stringify cfg r s in
  let h := exec (persist_cursor response) (store c) in
  sync St exec cfSync JSON_stringify cfg r s =
  mkRun (Resolved
           match fst h with
           | Rejected e => Rejected (Error_ (error_to_string e))
           | Resolved _ =>
               match first_rejected promises with
               | Some e => Rejected (Error_ (error_to_string e))
               | None => Resolved (JObj [("message", JStr "Sync Complete")])
               end
           end)
        (snd h) (trace c ++ [Redis (persist_cursor response) (fst h)]).
Proof.
  intros H. cbn zeta.
  unfold sync, async, sync_body, try_catch.
  rewrite (bind_run_resolved _ _ _ _ H). cbn [result store trace fst snd].
  generalize (store (sync_collect St exec cfSync JSON_stringify cfg r s)) as s1.
  generalize (trace (sync_collect St exec cfSync JSON_stringify cfg r s)) as t1.
  intros t1 s1. unfold bind. rewrite sync_persist_run. cbn [result store trace].
  destruct (fst (exec (persist_cursor response) s1)) as [x|e];
    cbn [result store trace lift ret].
  - unfold Promise_all. destruct (first_rejected promises);
      cbn [result store trace]; now rewrite ?app_nil_r.
  - now rewrite ?app_nil_r.
Qed.

Lemma for_each_write_scheduled (l : list JsVal) (s : St) (ps : list Promise) :
  result (for_each (write_entry St exec JSON_stringify cfg) l s) = Resolved ps ->
  Forall (scheduled (trace (for_each (write_entry St exec JSON_stringify cfg) l s))) ps.
Proof.
  revert s ps. induction l as [|entry l IH]; simpl; intros s ps H.
  - injection H as <-. constructor.
  - apply bind_resolved in H as [p [Hp [H [Ht _]]]].
    apply bind_resolved in H as [ps' [Hps [H [Ht' _]]]].
    simpl in H. injection H as <-. rewrite Ht, Ht'. simpl. rewrite app_nil_r.
    constructor.
    + exists (write_of entry). rewrite (write_entry_resolved _ _ _ Hp).
      split; [now left|now left].
    + eapply Forall_impl; [|exact (IH _ _ Hps)].
      intros q [c [Hc Hn]]. exists c. split; [|exact Hn].
      apply in_or_app. now right.
Qed.

Lemma for_each_delete_scheduled (l : list JsVal) (s : St) (pss : list (list Promise)) :
  result (for_each (delete_entry St exec) l s) = Resolved pss ->
  Forall (scheduled (trace (for_each (delete_entry St exec) l s))) (concat pss).
Proof.
  revert s pss. induction l as [|entry l IH]; simpl; intros s pss H.
  - injection H as <-. constructor.
  - apply bind_resolved in H as [ps [Hp [H [Ht _]]]].
    apply bind_resolved in H as [pss' [Hps [H [Ht' _]]]].
    simpl in H. injection H as <-. rewrite Ht, Ht'. simpl. rewrite app_nil_r.
    apply Forall_app. split.
    + revert Hp. rewrite delete_entry_run. cbn zeta.
      destruct (getp entry "sys") as [sys|]; [|discriminate].
      destruct (getp sys "id"); [|discriminate].
      destruct (fst (exec (suffix_scan entry) s)) as [reply|]; [|discriminate].
      destruct (getp reply "1"); [|discriminate].
      destruct (truthy (match_list reply)); simpl; intros [= <-]; constructor;
        [|constructor].
      exists (DEL (match_list reply)). split; [right; now left|now right].
    + eapply Forall_impl; [|exact (IH _ _ Hps)].
      intros q [c [Hc Hn]]. exists c. split; [|exact Hn].
      apply in_or_app. now right.
Qed.

Lemma scheduled_incl (t t' : list Event) (p : Promise) :
  incl t t' -> scheduled t p -> scheduled t' p.
Proof. intros Hi [c [Hc Hn]]. exists c. split; [now apply Hi|exact Hn]. Qed.

(** The promises [sync] awaits at the end are those of the writes and
    deletes it dispatched before persisting the cursor. *)
Lemma sync_collect_scheduled (r : JsVal) (s : St) (response : JsVal)
    (promises : list Promise) :
  result (sync_collect St exec cfSync JSON_stringify cfg r s) = Resolved (response, promises) ->
  Forall (scheduled (trace (sync_collect St exec cfSync JSON_stringify cfg r s))) promises.
Proof.
  intros H.
  destruct (sync_collect_resolved _ _ _ _ H)
    as [mode [x [writes [deletes [Hm [Hr [Hx [Hw [Hd [Hp [Hs Ht]]]]]]]]]]].
  rewrite Ht, Hp. apply Forall_app. split.
  - assert (Hf : Forall (scheduled (trace (sync_writes St exec JSON_stringify cfg response
                    (store (sync_flush St exec (fst mode) (store (sync_mode St exec r s)))))))
                   writes).
    { revert Hw. generalize (store (sync_flush St exec (fst mode) (store (sync_mode St exec r s)))).
      intros s2 Hw. unfold sync_writes in *.
      apply bind_resolved in Hw as [entries [He [Hw [Htw _]]]]. rewrite Htw.
      simpl in He, Hw |- *.
      destruct (truthy _).
      - apply bind_resolved in Hw as [l [Hl [Hw [Htw' _]]]]. rewrite Htw'.
        simpl in Hl, Hw |- *. now apply for_each_write_scheduled.
      - injection Hw as <-. constructor. }
    eapply Forall_impl; [|exact Hf]. intros p. apply scheduled_incl.
    intros ev Hev. apply in_or_app. right. right.
    apply in_or_app. right. apply in_or_app. now left.
  - assert (Hf : Forall (scheduled (trace (sync_deletes St exec response
                    (store (sync_writes St exec JSON_stringify cfg response
                      (store (sync_flush St exec (fst mode) (store (sync_mode St exec r s)))))))))
                   deletes).
    { revert Hd. generalize (store (sync_writes St exec JSON_stringify cfg response
                      (store (sync_flush St exec (fst mode) (store (sync_mode St exec r s)))))).
      intros s3 Hd. unfold sync_deletes in *.
      apply bind_resolved in Hd as [deleted [He [Hd [Htd _]]]]. rewrite Htd.
      simpl in He, Hd |- *.
      destruct (truthy _).
      - apply bind_resolved in Hd as [l [Hl [Hd [Htd' _]]]]. rewrite Htd'.
        simpl in Hl, Hd |- *.
        apply bind_resolved in Hd as [pss [Hpss [Hd [Htd'' _]]]]. rewrite Htd''.
        simpl in Hd |- *. injection Hd as <-. rewrite app_nil_r.
        now apply for_each_delete_scheduled.
      - injection Hd as <-. constructor. }
    eapply Forall_impl; [|exact Hf]. intros p. apply scheduled_incl.
    intros ev Hev. apply in_or_app. right. right.
    apply in_or_app. right. apply in_or_app. now right.
Qed.

(** *** [get]: the scans *)

Lemma scan_pattern_spec (type search : JsVal) :
  scan_pattern type search = pattern_of search type.
Proof.
  unfold scan_pattern, pattern_of, or_star, js_or.
  destruct (truthy type), (truthy search); reflexivity.
Qed.

(** Dispatching one command per element: every command is sent, whatever
    the replies. *)
Lemma for_each_dispatch {A : Type} (c : A -> Command) (l : list A) (s : St) :
  exists ps,
    result (for_each (fun x => dispatch St exec (c x)) l s) = Resolved ps /\
    trace (for_each (fun x => dispatch St exec (c x)) l s)
      = map (fun xp => Redis (c (fst xp)) (snd xp)) (combine l ps) /\
    length ps = length l.
Proof.
  revert s. induction l as [|x l IH]; intros s; cbn [for_each].
  - exists []. now repeat split.
  - rewrite bind_result, bind_trace, !dispatch_run. cbn [result store trace].
    destruct (IH (snd (exec (c x) s))) as [ps [Hr [Ht Hl]]].
    rewrite bind_result, bind_trace, Hr, Ht. cbn [ret result trace].
    exists (fst (exec (c x) s) :: ps).
    repeat split; simpl; [now rewrite app_nil_r|now rewrite Hl].
Qed.

Lemma commands_map_dispatch {A : Type} (name : string) (c : A -> Command)
    (l : list A) (ps : list Promise) :
  (forall x p, event_name (Redis (c x) p) = name) ->
  length ps = length l ->
  commands name (map (fun xp => Redis (c (fst xp)) (snd xp)) (combine l ps)) = map c l.
Proof.
  intros Hn. revert ps. induction l as [|x l IH]; intros [|p ps] Hl; try discriminate;
    [reflexivity|].
  simpl in Hl. injection Hl as Hl. specialize (IH _ Hl).
  unfold commands in *. cbn [combine map fst snd flat_map].
  now rewrite IH, (Hn x p), String.eqb_refl.
Qed.

Lemma scan_replies_app (t1 t2 : list Event) :
  scan_replies (t1 ++ t2) = scan_replies t1 ++ scan_replies t2.
Proof. unfold scan_replies. apply flat_map_app. Qed.

Lemma fetched_app (t1 t2 : list Event) : fetched (t1 ++ t2) = fetched t1 ++ fetched t2.
Proof. unfold fetched. apply flat_map_app. Qed.

Lemma scan_replies_none (names : list string) (t : list Event) :
  Forall (named names) t -> ~ In "scan" names -> scan_replies t = [].
Proof.
  intros H Hn. induction H as [|ev t Hev _ IH]; [reflexivity|].
  unfold scan_replies in *. simpl. rewrite IH, app_nil_r.
  destruct ev as [[]|]; try reflexivity. exfalso. now apply Hn.
Qed.

Lemma scan_replies_dispatch (pats : list string) (ps : list Promise) :
  length ps = length pats ->
  scan_replies (map (fun xp => Redis (page_scan (fst xp)) (snd xp)) (combine pats ps)) = ps.
Proof.
  revert ps. induction pats as [|x l IH]; intros [|p ps] Hl; try discriminate;
    [reflexivity|].
  simpl in Hl. injection Hl as Hl. simpl. now rewrite (IH _ Hl).
Qed.

(** The keys [get] goes on to fetch, from the scans of the key phase. *)
Lemma scan_one_run (pattern : string) (s : St) :
  let p := fst (exec (page_scan pattern) s) in
  trace (scan_one St exec pattern s) = [Redis (page_scan pattern) p] /\
  store (scan_one St exec pattern s) = snd (exec (page_scan pattern) s) /\
  (is_page p ->
   result (scan_one St exec pattern s) =
   Resolved (JArr (array_elems (match_list (resolved_value p)))
                  match match_list (resolved_value p) with
                  | JArr _ props => props
                  | _ => []
                  end)).
Proof.
  unfold scan_one, page_scan, rScan, dispatch, bind, await, lift, ret. cbn zeta.
  destruct (exec _ s) as [[reply|e] s1]; simpl.
  - destruct (getp reply "1") as [matched|] eqn:E; simpl.
    + repeat split. intros [reply' [[= <-] Ha]]. apply getp_resolved in E as [-> _].
      unfold match_list in *. destruct (prop reply "1"); try discriminate. reflexivity.
    + repeat split. intros [reply' [[= <-] Ha]]. exfalso.
      unfold match_list in Ha. destruct reply; simpl in *; congruence.
  - repeat split. intros [reply' [H _]]. discriminate H.
Qed.

Lemma Promise_all_pages (ps : list Promise) :
  Forall is_page ps -> Promise_all ps = Resolved (map resolved_value ps).
Proof.
  intros H. unfold Promise_all.
  assert (E : first_rejected ps = None).
  { induction H as [|p ps [reply [-> _]] _ IH]; [reflexivity|exact IH]. }
  now rewrite E.
Qed.

Lemma omap_pages (ps : list Promise) :
  Forall is_page ps ->
  omap (fun keyResponse => getp keyResponse "1") (map resolved_value ps) =
  Resolved (map (fun p => match_list (resolved_value p)) ps) /\
  concat_spread (map (fun p => match_list (resolved_value p)) ps) = pages_keys ps.
Proof.
  induction 1 as [|p ps [reply [-> Ha]] _ [IH1 IH2]]; [now split|].
  simpl. unfold obind. rewrite IH1.
  assert (E : getp reply "1" = Resolved (match_list reply)).
  { unfold match_list in *. destruct reply; simpl in *; congruence. }
  rewrite E. split; [reflexivity|].
  unfold pages_keys in *. simpl. rewrite <- IH2.
  unfold concat_spread. simpl. now destruct (match_list reply).
Qed.

Lemma scan_types_run (types : list JsVal) (search : JsVal) (s : St) :
  exists ps,
    trace (scan_types St exec types search s)
      = map (fun xp => Redis (page_scan (fst xp)) (snd xp))
            (combine (map (pattern_of search) types) ps) /\
    length ps = length types /\
    (Forall is_page ps ->
     result (scan_types St exec types search s) = Resolved (JArr (pages_keys ps) [])).
Proof.
  unfold scan_types, rScan.
  destruct (for_each_dispatch
              (fun type => SCAN "0" (scan_pattern type search) (Some "10000")) types s)
    as [ps [Hr [Ht Hl]]].
  exists ps.
  assert (Hmap : map (fun xp => Redis (SCAN "0" (scan_pattern (fst xp) search) (Some "10000"))
                                      (snd xp)) (combine types ps)
                 = map (fun xp => Redis (page_scan (fst xp)) (snd xp))
                       (combine (map (pattern_of search) types) ps)).
  { clear. revert ps. induction types as [|ty types IH]; intros [|p ps]; simpl;
      try reflexivity.
    now rewrite IH, scan_pattern_spec. }
  rewrite (bind_run_resolved _ _ _ _ Hr), Ht, Hmap. cbn [trace result].
  split; [|split; [exact Hl|]].
  - unfold bind, lift, ret. cbn [result store trace].
    destruct (Promise_all ps); cbn [result store trace]; [|now rewrite !app_nil_r].
    destruct (omap _ _); cbn [result store trace]; now rewrite !app_nil_r.
  - intros Hp. unfold bind, lift, ret. cbn [result store trace].
    rewrite (Promise_all_pages _ Hp). cbn [result store trace].
    destruct (omap_pages _ Hp) as [-> <-]. reflexivity.
Qed.

Lemma pages_keys_one (p : Promise) :
  pages_keys [p] = array_elems (match_list (resolved_value p)).
Proof. unfold pages_keys. simpl. apply app_nil_r. Qed.

(** The key phase of [get]: its scans, and the keys it resolves to when
    every scan is answered with a page. *)
Lemma get_keys_run (details : JsVal) (s : St) :
  let k := get_keys St exec details s in
  commands "scan" (trace k) = map page_scan (patterns details) /\
  Forall (named ["scan"]) (trace k) /\
  (Forall is_page (scan_replies (trace k)) ->
   exists props, result k = Resolved (JArr (pages_keys (scan_replies (trace k))) props)) /\
  (other_input details -> k = mkRun (Resolved (JArr [] [])) s []).
Proof.
  assert (Hone : forall pattern,
            let k := scan_one St exec pattern s in
            commands "scan" (trace k) = [page_scan pattern] /\
            Forall (named ["scan"]) (trace k) /\
            (Forall is_page (scan_replies (trace k)) ->
             exists props,
               result k = Resolved (JArr (pages_keys (scan_replies (trace k))) props))).
  { intros pattern. cbn zeta.
    destruct (scan_one_run pattern s) as [Ht [_ Hr]]. cbn zeta in Ht, Hr. rewrite Ht.
    split; [reflexivity|split; [repeat constructor|]].
    intros Hp. cbn [scan_replies flat_map app page_scan] in Hp |- *.
    inversion Hp as [|? ? Hp1 _]; subst.
    rewrite (Hr Hp1), pages_keys_one. eauto. }
  assert (Htypes : forall types search,
            let k := scan_types St exec types search s in
            commands "scan" (trace k) = map page_scan (map (pattern_of search) types) /\
            Forall (named ["scan"]) (trace k) /\
            (Forall is_page (scan_replies (trace k)) ->
             exists props,
               result k = Resolved (JArr (pages_keys (scan_replies (trace k))) props))).
  { intros types search. cbn zeta.
    destruct (scan_types_run types search s) as [ps [Ht [Hl Hr]]]. rewrite Ht.
    assert (Hl' : length ps = length (map (pattern_of search) types))
      by now rewrite length_map.
    split; [|split].
    - now apply commands_map_dispatch.
    - clear. generalize (map (pattern_of search) types) as pats. intros pats.
      revert ps. induction pats as [|x pats IH]; intros [|p ps]; simpl;
        constructor; [now left|apply IH].
    - rewrite (scan_replies_dispatch _ _ Hl'). intros Hp. rewrite (Hr Hp). eauto. }
  cbn zeta. unfold get_keys, patterns, other_input.
  destruct details as [| | | |type|types props|props]; cbn [typeof_string instanceof_Array
    instanceof_Object to_string array_elems];
    try (repeat split; [constructor|intros _; now exists []]).
  - destruct (Hone (type ++ ":*:*")%string) as [H1 [H2 H3]].
    repeat split; try assumption. intros [].
  - destruct (Htypes types (prop (JArr types props) "search")) as [H1 [H2 H3]].
    rewrite map_map in H1. repeat split; try assumption.
    + rewrite H1. now rewrite map_map.
    + intros [].
  - destruct (prop (JObj props) "type") as [| | | |type|types props'|props'] eqn:Et;
      cbn [typeof_string instanceof_Array array_elems];
      try (repeat split; [constructor|intros _; now exists []]).
    + rewrite scan_pattern_spec.
      destruct (Hone (pattern_of (prop (JObj props) "search") (JStr type))) as [H1 [H2 H3]].
      repeat split; try assumption. intros [].
    + destruct (Htypes types (prop (JObj props) "search")) as [H1 [H2 H3]].
      repeat split; try assumption. intros [].
Qed.

Lemma get_trace (details : JsVal) (s : St) :
  trace (get St exec JSON_parse details s) =
  let k := get_keys St exec details s in
  trace k ++ match result k with
             | Resolved keys => fetch_phase keys (store k)
             | Rejected _ => []
             end.
Proof.
  unfold get, async, get_body, fetch_phase. cbn zeta. cbn [trace].
  rewrite bind_trace. f_equal.
  destruct (result (get_keys St exec details s)) as [keys|]; [|reflexivity].
  rewrite bind_trace. cbn [lift trace result store app].
  destruct (as_array keys "keys.map") as [ks|]; [|reflexivity].
  rewrite bind_trace.
  destruct (result (for_each (rGet St exec) ks _)) as [promises|];
    [|now rewrite app_nil_r].
  rewrite bind_trace. cbn [lift trace result store app].
  destruct (Promise_all promises); [|now rewrite app_nil_r].
  rewrite bind_trace. cbn [lift trace result store app].
  destruct (group _ _ _); simpl; now rewrite app_nil_r.
Qed.

Lemma fetch_phase_run (keys : JsVal) (s : St) :
  Forall (named ["get"]) (fetch_phase keys s) /\
  commands "get" (fetch_phase keys s) =
  match as_array keys "keys.map" with
  | Resolved ks => map GET ks
  | Rejected _ => []
  end.
Proof.
  unfold fetch_phase. destruct (as_array keys "keys.map") as [ks|]; [|now split].
  unfold rGet. destruct (for_each_dispatch GET ks s) as [ps [_ [-> Hl]]].
  split; [|now apply commands_map_dispatch].
  clear. revert ps. induction ks as [|x ks IH]; intros [|p ps]; simpl;
    constructor; [now left|apply IH].
Qed.

(** C5, as amended: [get] sends one scan for each pattern its input
    resolves to - a single type name to ["{type}:*:*"]; a sequence of type
    names, or an object whose [type] is a single name or a sequence, to
    ["{type||'*'}:{search||'*'}:*"] for each name, an object with a single
    name included - each from cursor ["0"] and never another page; when the
    scans are answered with pages it fetches exactly the concatenation of
    their keys; and any other input yields the empty mapping without any
    command. *)
Theorem get_resolves_patterns (details : JsVal) (s : St) :
  let run := get St exec JSON_parse details s in
  commands "scan" (trace run) = map page_scan (patterns details) /\
  (Forall is_page (scan_replies (trace run)) ->
   commands "get" (trace run) = map GET (pages_keys (scan_replies (trace run)))) /\
  (other_input details -> run = mkRun (Resolved (Resolved (JObj []))) s []).
Proof.
  cbn zeta. destruct (get_keys_run details s) as [Hs [Hn [Hp Ho]]]. cbn zeta in *.
  assert (Hrest : forall keys s',
            scan_replies (fetch_phase keys s') = [] /\
            commands "scan" (fetch_phase keys s') = []).
  { intros keys s'. destruct (fetch_phase_run keys s') as [Hg _]. split.
    - apply (scan_replies_none _ _ Hg). not_named.
    - apply (commands_none _ _ _ Hg). not_named. }
  split; [|split].
  - rewrite get_trace. cbn zeta. rewrite commands_app, Hs.
    destruct (result (get_keys St exec details s)) as [keys|]; [|apply app_nil_r].
    destruct (Hrest keys (store (get_keys St exec details s))) as [_ ->].
    apply app_nil_r.
  - rewrite get_trace. cbn zeta. rewrite scan_replies_app, commands_app.
    rewrite (commands_none "get" _ _ Hn) by not_named.
    assert (Hr : scan_replies
                   match result (get_keys St exec details s) with
                   | Resolved keys => fetch_phase keys (store (get_keys St exec details s))
                   | Rejected _ => []
                   end = []).
    { destruct (result (get_keys St exec details s)); [apply Hrest|reflexivity]. }
    rewrite Hr, app_nil_r. intros Hpages.
    destruct (Hp Hpages) as [props ->].
    destruct (fetch_phase_run (JArr (pages_keys (scan_replies
                (trace (get_keys St exec details s)))) props)
                (store (get_keys St exec details s))) as [_ ->].
    reflexivity.
  - intros H. specialize (Ho H). unfold get, async, get_body.
    rewrite (bind_run_resolved _ _ s (JArr [] [])) by now rewrite Ho.
    rewrite Ho. reflexivity.
Qed.

(** *** [get]: the grouping *)

Lemma current_set_prop (ty t : string) (l : list JsVal) (final : list (string * JsVal)) :
  current ty (set_prop t (JArr l []) final) =
  if String.eqb t ty then l else current ty final.
Proof.
  unfold current. destruct (String.eqb t ty) eqn:E.
  - apply String.eqb_eq in E. subst. now rewrite assoc_set_prop_eq.
  - apply String.eqb_neq in E. rewrite assoc_set_prop_neq by congruence. reflexivity.
Qed.

Lemma sequences_set_prop (t : string) (l : list JsVal) (final : list (string * JsVal)) :
  l <> [] -> sequences final -> sequences (set_prop t (JArr l []) final).
Proof.
  intros Hl Hf ty v. destruct (string_dec ty t) as [->|Hne].
  - rewrite assoc_set_prop_eq. intros [= <-]. now exists l.
  - rewrite assoc_set_prop_neq by assumption. apply Hf.
Qed.

Lemma group_spec (items : list (JsVal * JsVal)) :
  forall final0 final,
    sequences final0 -> NoDup (map fst final0) ->
    group JSON_parse items final0 = Resolved final ->
    sequences final /\ NoDup (map fst final) /\
    forall ty, current ty final = current ty final0 ++ values_of ty items.
Proof.
  induction items as [|[key response] items IH]; intros final0 final Hs Hnd H.
  - injection H as <-. repeat split; try assumption. intros ty. now rewrite app_nil_r.
  - cbn [group] in H. unfold obind in H.
    destruct (parseType key) as [t|] eqn:Et; [|discriminate].
    destruct (JSON_parse response) as [v|] eqn:Ev; [|discriminate].
    assert (Hv : forall ty, values_of ty ((key, response) :: items) =
                 (if String.eqb t ty then [v] else []) ++ values_of ty items).
    { intros ty. unfold values_of. cbn [flat_map fst snd]. now rewrite Et, Ev. }
    destruct (assoc t final0) as [arr|] eqn:Ea.
    + destruct (Hs _ _ Ea) as [l [-> Hl]]. cbn [truthy js_push] in H.
      apply IH in H; [|apply sequences_set_prop; [now destruct l|assumption]
                       |now apply set_prop_NoDup].
      destruct H as [Hs' [Hnd' Hc]]. repeat split; try assumption.
      intros ty. rewrite Hc, Hv, current_set_prop, app_assoc. f_equal.
      destruct (String.eqb t ty) eqn:E; [|now rewrite app_nil_r].
      apply String.eqb_eq in E. subst ty. unfold current. now rewrite Ea.
    + destruct (inherited t); [discriminate|].
      apply IH in H; [|apply sequences_set_prop; [discriminate|assumption]
                       |now apply set_prop_NoDup].
      destruct H as [Hs' [Hnd' Hc]]. repeat split; try assumption.
      intros ty. rewrite Hc, Hv, current_set_prop, app_assoc. f_equal.
      destruct (String.eqb t ty) eqn:E; [|now rewrite app_nil_r].
      apply String.eqb_eq in E. subst ty. unfold current. now rewrite Ea.
Qed.

Lemma group_grouped (items : list (JsVal * JsVal)) (final : list (string * JsVal)) :
  group JSON_parse items [] = Resolved final ->
  NoDup (map fst final) /\ forall ty, assoc ty final = grouped ty items.
Proof.
  intros H. apply group_spec in H; [|intros ty v; discriminate|constructor].
  destruct H as [Hs [Hnd Hc]]. split; [assumption|].
  intros ty. specialize (Hc ty). unfold current in Hc. simpl in Hc. unfold grouped.
  destruct (assoc ty final) as [v|] eqn:Ea.
  - destruct (Hs _ _ Ea) as [l [-> Hl]]. simpl in Hc. rewrite <- Hc. now destruct l.
  - now rewrite <- Hc.
Qed.

(** The loop succeeds when every key is a string whose type is not the name
    of an inherited member and every value deserializes. *)
Lemma group_resolves (items : list (JsVal * JsVal)) :
  Forall (fun kv => exists k v, fst kv = JStr k /\ inherited (before_colon k) = false /\
                                JSON_parse (snd kv) = Resolved v) items ->
  forall final0, sequences final0 -> exists final, group JSON_parse items final0 = Resolved final.
Proof.
  induction 1 as [|[key response] items [k [v [Hk [Hi Hv]]]] _ IH]; intros final0 Hs.
  - now exists final0.
  - simpl in Hk, Hv. subst key. cbn [group parseType]. unfold obind. rewrite Hv.
    destruct (assoc (before_colon k) final0) as [arr|] eqn:Ea.
    + destruct (Hs _ _ Ea) as [l [-> Hl]]. cbn [truthy js_push].
      apply IH. apply sequences_set_prop; [now destruct l|assumption].
    + rewrite Hi. apply IH. apply sequences_set_prop; [discriminate|assumption].
Qed.

Lemma first_rejected_none (ps : list Promise) :
  first_rejected ps = None ->
  forall ks, length ks = length ps ->
  fetched (map (fun xp => Redis (GET (fst xp)) (snd xp)) (combine ks ps)) =
  combine ks (map resolved_value ps).
Proof.
  induction ps as [|[v|e] ps IH]; intros H [|k ks] Hl; try discriminate; try reflexivity.
  simpl in Hl. injection Hl as Hl. simpl. f_equal. now apply IH.
Qed.

Lemma fetched_none (names : list string) (t : list Event) :
  Forall (named names) t -> ~ In "get" names -> fetched t = [].
Proof.
  intros H Hn. induction H as [|ev t Hev _ IH]; [reflexivity|].
  unfold fetched in *. simpl. rewrite IH, app_nil_r.
  destruct ev as [[]|]; try reflexivity. exfalso. now apply Hn.
Qed.

(** A run of [get] that resolves returns the fetched values, grouped by
    the type of their keys. *)
Lemma get_grouped (details : JsVal) (s : St) (out : JsVal) :
  result (get St exec JSON_parse details s) = Resolved (Resolved out) ->
  exists final,
    out = JObj final /\ NoDup (map fst final) /\
    forall ty, assoc ty final
               = grouped ty (fetched (trace (get St exec JSON_parse details s))).
Proof.
  intros H. rewrite get_trace. cbn zeta.
  unfold get, async in H. cbn [result] in H. injection H as H.
  unfold get_body in H.
  apply bind_resolved in H as [keys [Hk [H _]]]. rewrite Hk.
  apply bind_resolved in H as [ks [Hks [H _]]]. cbn [lift result store] in Hks, H.
  apply bind_resolved in H as [promises [Hps [H _]]].
  apply bind_resolved in H as [responses [Hrs [H _]]]. cbn [lift result store] in Hrs, H.
  apply bind_resolved in H as [final [Hf [H _]]]. cbn [lift result store ret] in Hf, H.
  injection H as <-.
  destruct (get_keys_run details s) as [_ [Hn _]]. cbn zeta in Hn.
  rewrite fetched_app, (fetched_none _ _ Hn) by not_named.
  unfold fetch_phase. rewrite Hks. cbn [app].
  unfold rGet in *.
  destruct (for_each_dispatch GET ks (store (get_keys St exec details s)))
    as [ps [Hr [Ht Hl]]].
  rewrite Hr in Hps. injection Hps as <-. rewrite Ht.
  unfold Promise_all in Hrs.
  destruct (first_rejected ps) eqn:Efr; [discriminate|]. injection Hrs as <-.
  rewrite (first_rejected_none _ Efr) by now rewrite Hl.
  exists final. destruct (group_grouped _ _ Hf) as [Hnd Hg]. now repeat split.
Qed.

(** *** CustomStore *)

(** C9, as amended: for a key that is not a string, [setCustom] and
    [deleteCustom] throw the argument error to their caller, and
    [getCustom], which is [async], returns a promise rejected with it; none
    of them sends a command.  For a string key each sends its one command,
    and its outcome is the store's reply (deserialized, for [getCustom]). *)
Theorem custom_key_check (key value expire : JsVal) (s : St) :
  (typeof_string key = false ->
     setCustom St exec JSON_stringify key value expire s
       = mkRun (Rejected (Error_ "setCustom - key should be a string")) s [] /\
     deleteCustom St exec key s
       = mkRun (Rejected (Error_ "deleteCustom - key should be a string")) s [] /\
     getCustom St exec JSON_parse key s
       = mkRun (Resolved (Rejected (Error_ "getCustom - key should be a string"))) s []) /\
  (typeof_string key = true ->
     (exists c, event_name (Redis c (fst (exec c s))) = "set" /\
        setCustom St exec JSON_stringify key value expire s
          = mkRun (Resolved (fst (exec c s))) (snd (exec c s)) [Redis c (fst (exec c s))]) /\
     deleteCustom St exec key s
       = mkRun (Resolved (fst (exec (DEL key) s))) (snd (exec (DEL key) s))
               [Redis (DEL key) (fst (exec (DEL key) s))] /\
     getCustom St exec JSON_parse key s
       = mkRun (Resolved (obind (fst (exec (GET key) s)) JSON_parse))
               (snd (exec (GET key) s))
               [Redis (GET key) (fst (exec (GET key) s))]).
Proof.
  unfold setCustom, deleteCustom, getCustom, getCustom_body, async, throw, lift.
  split; intros ->; [now repeat split|].
  split; [|split].
  - destruct (truthy expire); eexists; (split; [|apply dispatch_run]); reflexivity.
  - apply dispatch_run.
  - unfold bind, await, lift. rewrite dispatch_run. cbn [result store trace].
    destruct (fst (exec (GET key) s)); reflexivity.
Qed.

(** Commands that leave the store as it is. *)
Lemma for_each_dispatch_readonly {A : Type} (c : A -> Command) (l : list A) (s : St) :
  (forall x, In x l -> snd (exec (c x) s) = s) ->
  for_each (fun x => dispatch St exec (c x)) l s =
  mkRun (Resolved (map (fun x => fst (exec (c x) s)) l)) s
        (map (fun x => Redis (c x) (fst (exec (c x) s))) l).
Proof.
  induction l as [|x l IH]; intros H; cbn [for_each map]; [reflexivity|].
  rewrite (bind_run_resolved _ _ _ (fst (exec (c x) s))) by now rewrite dispatch_run.
  rewrite dispatch_run. cbn [result store trace].
  rewrite (H x (or_introl eq_refl)).
  rewrite (bind_run_resolved _ _ _ (map (fun x => fst (exec (c x) s)) l))
    by (rewrite IH; [reflexivity|intros; apply H; now right]).
  rewrite IH by (intros; apply H; now right).
  cbn [ret result store trace app]. now rewrite app_nil_r.
Qed.

End Facts.

(** ** Runs against the reference store *)

Module MemFacts.

Import MemRedis MemReading.

Section Get.

Variable JSON_parse : JsVal -> Outcome JsVal.

Local Abbreviation stored_entry := (stored_entry JSON_parse).
Local Abbreviation stored := (stored JSON_parse).

Lemma exec_page_scan (pattern : string) (db : Db) :
  exec (page_scan pattern) db = (Resolved (scan_page db 0 hint pattern), db).
Proof. reflexivity. Qed.

Lemma exec_GET (key : JsVal) (db : Db) : snd (exec (GET key) db) = db.
Proof. simpl. destruct (assoc (to_string key) db) as [[]|]; reflexivity. Qed.

Lemma scan_page_first (db : Db) (pattern : string) :
  exists next,
    scan_page db 0 hint pattern = JArr [JStr next; JArr (map JStr (page db pattern)) []] [].
Proof. unfold scan_page, page. simpl skipn. eauto. Qed.

Lemma Promise_all_resolved (vs : list JsVal) :
  Promise_all (map Resolved vs) = Resolved vs.
Proof.
  unfold Promise_all.
  assert (E : first_rejected (map Resolved vs) = None) by (induction vs; auto).
  rewrite E, map_map. simpl. now rewrite map_id.
Qed.

Lemma get_keys_array (db : Db) (types : list JsVal) (props : list (string * JsVal)) :
  let search := prop (JArr types props) "search" in
  result (get_keys Db exec (JArr types props) db)
    = Resolved (JArr (map JStr (keys_of db search types)) []) /\
  store (get_keys Db exec (JArr types props) db) = db.
Proof.
  cbn zeta. unfold get_keys. cbn [typeof_string instanceof_Array array_elems].
  set (search := prop (JArr types props) "search"). clearbody search.
  unfold scan_types, rScan.
  rewrite (bind_run_resolved Db _ _ _ _
             (f_equal result (for_each_dispatch_readonly Db exec
                (fun type => SCAN "0" (scan_pattern type search) (Some "10000"))
                types db (fun x _ => eq_refl)))).
  rewrite for_each_dispatch_readonly by reflexivity. cbn [result store trace].
  assert (Hps : map (fun x => fst (exec (SCAN "0" (scan_pattern x search) (Some "10000")) db))
                    types
                = map Resolved (map (fun type => scan_page db 0 hint (pattern_of search type))
                                    types)).
  { rewrite map_map. apply map_ext. intros type. now rewrite scan_pattern_spec. }
  rewrite Hps. unfold bind, lift, ret. cbn [result store trace].
  rewrite Promise_all_resolved. cbn [result store trace].
  assert (Ho : omap (fun keyResponse => getp keyResponse "1")
                 (map (fun type => scan_page db 0 hint (pattern_of search type)) types)
               = Resolved (map (fun type => JArr (map JStr (page db (pattern_of search type))) [])
                               types)).
  { clear Hps. induction types as [|type types IH]; [reflexivity|].
    cbn [map omap]. unfold obind. rewrite IH.
    destruct (scan_page_first db (pattern_of search type)) as [next ->]. reflexivity. }
  rewrite Ho. cbn [result store trace]. split; [|reflexivity].
  do 2 f_equal. unfold keys_of, concat_spread. clear.
  induction types as [|type types IH]; [reflexivity|].
  cbn [map flat_map]. now rewrite map_app, IH.
Qed.

(** [get] on a sequence of type names, against the reference store. *)
Lemma get_array (db : Db) (types : list JsVal) (props : list (string * JsVal)) :
  let keys := keys_of db (prop (JArr types props) "search") types in
  result (get Db exec JSON_parse (JArr types props) db) =
  Resolved
    (obind (Promise_all (map (value_of db) keys)) (fun responses =>
     obind (group JSON_parse (combine (map JStr keys) responses) []) (fun final =>
     Resolved (JObj final)))).
Proof.
  cbn zeta. destruct (get_keys_array db types props) as [Hk Hs]. cbn zeta in Hk, Hs.
  unfold get, async, get_body. cbn [result]. f_equal.
  rewrite bind_result, Hk, Hs, bind_result. cbn [lift as_array result store].
  rewrite bind_result. unfold rGet.
  rewrite for_each_dispatch_readonly by (intros; apply exec_GET).
  cbn [result store]. rewrite map_map. fold (value_of db).
  unfold value_of at 1.
  rewrite bind_result. cbn [lift result store].
  change (map (fun x => fst (exec (GET (JStr x)) db))) with (map (value_of db)).
  destruct (Promise_all _) as [responses|]; cbn [obind]; [|reflexivity].
  rewrite bind_result. cbn [lift result store].
  destruct (group _ _ _); reflexivity.
Qed.

(** *** Stored entries of the types ["post"] and ["author"] *)

Lemma list_ascii_of_string_app (a b : string) :
  list_ascii_of_string (a ++ b) = list_ascii_of_string a ++ list_ascii_of_string b.
Proof. induction a as [|c a IH]; simpl; [reflexivity|now rewrite IH]. Qed.

Lemma glob_star (p s : list ascii) :
  glob ("*"%char :: p) s =
  glob p s || match s with [] => false | _ :: s' => glob ("*"%char :: p) s' end.
Proof. destruct s; reflexivity. Qed.

Lemma glob_star_skip (p a s : list ascii) :
  glob p s = true -> glob ("*"%char :: p) (a ++ s) = true.
Proof.
  intros H. induction a as [|x a IH]; rewrite glob_star.
  - simpl app. now rewrite H.
  - simpl app. cbv beta iota. rewrite IH. apply orb_true_r.
Qed.

Lemma glob_star_end (s : list ascii) : glob ["*"%char] s = true.
Proof. induction s as [|x s IH]; rewrite glob_star; [reflexivity|]. rewrite IH. apply orb_true_r. Qed.

Lemma glob_tail (ident id : string) :
  glob (list_ascii_of_string "*:*") (list_ascii_of_string (ident ++ ":" ++ id)) = true.
Proof.
  rewrite list_ascii_of_string_app. apply glob_star_skip.
  change (list_ascii_of_string (":" ++ id)) with (":"%char :: list_ascii_of_string id).
  change (glob [":"%char; "*"%char] (":"%char :: list_ascii_of_string id))
    with (glob ["*"%char] (list_ascii_of_string id)).
  apply glob_star_end.
Qed.

(** On the records of such a store the two patterns select by type. *)
Lemma record_types (kv : string * RVal) :
  stored_entry kv \/ cursor_record kv ->
  matches "post:*:*" (fst kv) = has_type "post" (fst kv) /\
  matches "author:*:*" (fst kv) = has_type "author" (fst kv) /\
  inherited (before_colon (fst kv)) = false /\
  (forall ty, has_type ty (fst kv) = true ->
     (ty = "post" \/ ty = "author") /\
     exists value v, snd kv = RString value /\ JSON_parse (JStr value) = Resolved v)
  \/ (has_type "post" (fst kv) = false /\ has_type "author" (fst kv) = false /\
       matches "post:*:*" (fst kv) = false /\ matches "author:*:*" (fst kv) = false).
Proof.
  intros [[ty [ident [id [value [v [Hty [Hk [Hv Hp]]]]]]]]|Hc].
  - left. rewrite Hk. unfold matches, has_type.
    destruct Hty as [-> | ->].
    + repeat split; try reflexivity.
      * exact (glob_tail ident id).
      * apply String.eqb_eq in H. simpl in H. now left.
      * eauto.
    + repeat split; try reflexivity.
      * exact (glob_tail ident id).
      * apply String.eqb_eq in H. simpl in H. now right.
      * eauto.
  - right. unfold cursor_record in Hc. rewrite Hc. now repeat split.
Qed.

Lemma filter_filter_same {A : Type} (f : A -> bool) (l : list A) :
  filter f (filter f l) = filter f l.
Proof.
  induction l as [|x l IH]; simpl; [reflexivity|].
  destruct (f x) eqn:E; simpl; [now rewrite E, IH|exact IH].
Qed.

Lemma filter_filter_none {A : Type} (f g : A -> bool) (l : list A) :
  (forall x, In x l -> g x = true -> f x = false) -> filter f (filter g l) = [].
Proof.
  induction l as [|x l IH]; simpl; intros H; [reflexivity|].
  destruct (g x) eqn:E; simpl.
  - rewrite (H x (or_introl eq_refl) E). apply IH. intros; apply H; auto.
  - apply IH. intros; apply H; auto.
Qed.

Lemma type_count_keys (ty : string) (db : Db) :
  type_count ty db = length (filter (has_type ty) (map fst db)).
Proof.
  unfold type_count. induction db as [|kv db IH]; simpl; [reflexivity|].
  destruct (has_type ty (fst kv)); simpl; now rewrite IH.
Qed.

Lemma Promise_all_values (ps : list Promise) :
  Forall (fun p => exists v, p = Resolved v) ps ->
  Promise_all ps = Resolved (map resolved_value ps).
Proof.
  intros H. unfold Promise_all.
  assert (E : first_rejected ps = None).
  { induction H as [|p ps [v ->] _ IH]; [reflexivity|exact IH]. }
  now rewrite E.
Qed.

Lemma values_of_length (ty : string) (keys : list string) (vals : list JsVal) :
  length vals = length keys ->
  Forall (fun v => exists x, JSON_parse v = Resolved x) vals ->
  length (values_of JSON_parse ty (combine (map JStr keys) vals))
  = length (filter (has_type ty) keys).
Proof.
  revert vals. induction keys as [|k keys IH]; intros [|v vals] Hl Hv; try discriminate;
    [reflexivity|].
  simpl in Hl. injection Hl as Hl. inversion Hv as [|? ? [x Hx] Hv']; subst.
  unfold values_of in *. cbn [map combine flat_map fst snd parseType]. rewrite Hx.
  rewrite length_app, (IH _ Hl Hv'). unfold has_type at 2. cbn [filter].
  now destruct (String.eqb (before_colon k) ty).
Qed.

Lemma page_all (db : Db) (pattern : string) :
  length db <= hint -> page db pattern = filter (matches pattern) (map fst db).
Proof.
  intros H. unfold page. rewrite firstn_all2; [reflexivity|]. now rewrite length_map.
Qed.

Lemma stored_keys (db : Db) :
  stored db ->
  filter (matches "post:*:*") (map fst db) = filter (has_type "post") (map fst db) /\
  filter (matches "author:*:*") (map fst db) = filter (has_type "author") (map fst db).
Proof.
  intros H. split; apply filter_ext_in; intros k Hk;
    apply in_map_iff in Hk as [kv [<- Hkv]];
    apply (proj1 (Forall_forall _ _) H) in Hkv;
    destruct (record_types kv Hkv) as [[H1 [H2 _]]|[H1 [H2 [H3 H4]]]]; congruence.
Qed.

(** Every key of one of the two types is fetched as a string that
    deserializes. *)
Lemma stored_value (db : Db) (ty key : string) :
  stored db -> In key (map fst db) -> ty = "post" \/ ty = "author" ->
  has_type ty key = true ->
  inherited (before_colon key) = false /\
  exists value v, value_of db key = Resolved (JStr value) /\
                  JSON_parse (JStr value) = Resolved v.
Proof.
  intros Hs Hk Hty Ht.
  destruct (assoc key db) as [rv|] eqn:Ea;
    [|apply assoc_None_keys in Ea; contradiction].
  pose proof (assoc_In _ _ _ Ea) as Hin.
  apply (proj1 (Forall_forall _ _) Hs) in Hin.
  destruct (record_types _ Hin) as [[_ [_ [Hi Hv]]]|[H1 [H2 _]]]; simpl in *.
  - destruct (Hv ty Ht) as [_ [value [v [-> Hp]]]].
    split; [assumption|]. exists value, v. split; [|assumption].
    unfold value_of. simpl. now rewrite Ea.
  - destruct Hty as [-> | ->]; congruence.
Qed.

(** The example of the specification: the store holds entries of the types
    ["post"] and ["author"], at least one of each, and one page of a scan
    covers its keys. *)
Lemma get_post_author (db : Db) :
  stored db -> length db <= hint ->
  0 < type_count "post" db -> 0 < type_count "author" db ->
  exists final posts authors,
    result (get Db exec JSON_parse (JArr [JStr "post"; JStr "author"] []) db)
      = Resolved (Resolved (JObj final)) /\
    NoDup (map fst final) /\
    (forall ty, In ty (map fst final) <-> ty = "post" \/ ty = "author") /\
    assoc "post" final = Some (JArr posts []) /\
    length posts = type_count "post" db /\
    assoc "author" final = Some (JArr authors []) /\
    length authors = type_count "author" db.
Proof.
  intros Hs Hl Hp Ha. rewrite get_array. cbn zeta.
  change (prop (JArr [JStr "post"; JStr "author"] []) "search") with JUndefined.
  unfold keys_of. cbn [flat_map].
  change (pattern_of JUndefined (JStr "post")) with "post:*:*".
  change (pattern_of JUndefined (JStr "author")) with "author:*:*".
  rewrite !page_all, app_nil_r by assumption.
  destruct (stored_keys db Hs) as [-> ->].
  rewrite !type_count_keys in *.
  set (P := filter (has_type "post") (map fst db)) in *.
  set (A := filter (has_type "author") (map fst db)) in *.
  assert (Hkeys : Forall (fun key =>
                    (has_type "post" key = true \/ has_type "author" key = true) /\
                    inherited (before_colon key) = false /\
                    exists value v, value_of db key = Resolved (JStr value) /\
                                    JSON_parse (JStr value) = Resolved v) (P ++ A)).
  { apply Forall_app. split; apply Forall_forall; intros key Hk;
      apply filter_In in Hk as [Hk Ht].
    - split; [now left|]. apply (stored_value db "post"); auto.
    - split; [now right|]. apply (stored_value db "author"); auto. }
  assert (Hall : Promise_all (map (value_of db) (P ++ A))
                 = Resolved (map resolved_value (map (value_of db) (P ++ A)))).
  { apply Promise_all_values. apply Forall_map. eapply Forall_impl; [|exact Hkeys].
    intros key [_ [_ [value [v [-> _]]]]]. eauto. }
  rewrite Hall. cbn [obind].
  set (vals := map resolved_value (map (value_of db) (P ++ A))).
  assert (Hvl : length vals = length (P ++ A)) by (unfold vals; now rewrite !length_map).
  assert (Hvals : Forall (fun v => exists x, JSON_parse v = Resolved x) vals).
  { unfold vals. rewrite map_map. apply Forall_map. eapply Forall_impl; [|exact Hkeys].
    intros key [_ [_ [value [v [-> Hv]]]]]. simpl. eauto. }
  destruct (group_resolves JSON_parse (combine (map JStr (P ++ A)) vals)) with (final0 := @nil (string * JsVal))
    as [final Hf].
  { clear Hall. revert Hkeys Hvals Hvl. generalize (P ++ A) as keys. generalize vals.
    clear. intros vals keys. revert vals.
    induction keys as [|k keys IH]; intros [|v vals] Hk Hv Hl; try discriminate;
      simpl; constructor.
    - inversion Hk as [|? ? [_ [Hi _]] _]; inversion Hv as [|? ? [y Hy] _]; subst.
      exists k, y. now repeat split.
    - inversion Hk; inversion Hv; subst. apply IH; auto. }
  { intros ty v; discriminate. }
  rewrite Hf. cbn [obind].
  destruct (group_grouped _ _ _ Hf) as [Hnd Hg].
  assert (Hlen : forall ty, length (values_of JSON_parse ty (combine (map JStr (P ++ A)) vals))
                            = length (filter (has_type ty) (P ++ A)))
    by (intros; now apply values_of_length).
  assert (HP : filter (has_type "post") (P ++ A) = P).
  { rewrite filter_app. unfold P at 1, A. rewrite filter_filter_same.
    rewrite filter_filter_none; [apply app_nil_r|].
    unfold has_type. intros x _ H1. apply String.eqb_eq in H1. now rewrite H1. }
  assert (HA : filter (has_type "author") (P ++ A) = A).
  { rewrite filter_app. unfold P, A at 1. rewrite filter_filter_same.
    rewrite filter_filter_none; [reflexivity|].
    unfold has_type. intros x _ H1. apply String.eqb_eq in H1. now rewrite H1. }
  assert (Hsome : forall ty, 0 < length (filter (has_type ty) (P ++ A)) ->
            exists vs, assoc ty final = Some (JArr vs []) /\
                       length vs = length (filter (has_type ty) (P ++ A))).
  { intros ty Hpos. rewrite Hg. unfold grouped. specialize (Hlen ty).
    destruct (values_of JSON_parse ty _) as [|v vs]; [simpl in Hlen; lia|].
    now exists (v :: vs). }
  destruct (Hsome "post") as [posts [Hposts Hlp]]; [now rewrite HP|].
  destruct (Hsome "author") as [authors [Hauthors Hla]]; [now rewrite HA|].
  exists final, posts, authors.
  split; [reflexivity|split; [assumption|split; [|repeat split; congruence]]].
  intros ty. split.
  - intros Hin. destruct (assoc ty final) as [v|] eqn:Ea;
      [|apply assoc_None_keys in Ea; contradiction].
    rewrite Hg in Ea. unfold grouped in Ea. specialize (Hlen ty).
    destruct (filter (has_type ty) (P ++ A)) as [|k ks] eqn:Ef.
    + destruct (values_of JSON_parse ty _); [discriminate|simpl in Hlen; lia].
    + assert (Hk : In k (filter (has_type ty) (P ++ A))) by (rewrite Ef; now left).
      apply filter_In in Hk as [Hk Ht].
      apply (proj1 (Forall_forall _ _) Hkeys) in Hk as [[H1|H1] _];
        unfold has_type in *; apply String.eqb_eq in Ht, H1; subst; auto.
  - intros [-> | ->]; apply assoc_In in Hposts, Hauthors.
    + apply in_map_iff. now exists ("post", JArr posts []).
    + apply in_map_iff. now exists ("author", JArr authors []).
Qed.

Lemma values_of_none (ty : string)
    (keys : list string) (vals : list JsVal) :
  Forall (fun key => has_type ty key = false) keys ->
  values_of JSON_parse ty (combine (map JStr keys) vals) = [].
Proof.
  intros H. revert vals. induction H as [|k keys Hk _ IH]; intros [|v vals];
    try reflexivity.
  unfold values_of in *. cbn [map combine flat_map fst snd parseType].
  rewrite IH, app_nil_r. unfold has_type in Hk. rewrite Hk.
  now destruct (JSON_parse v).
Qed.

(** A type none of the scanned keys has is not a key of the result. *)
Lemma get_array_no_type (db : Db) (types : list JsVal) (props : list (string * JsVal))
    (ty : string) (final : list (string * JsVal)) :
  result (get Db exec JSON_parse (JArr types props) db) = Resolved (Resolved (JObj final)) ->
  Forall (fun key => has_type ty key = false)
         (keys_of db (prop (JArr types props) "search") types) ->
  assoc ty final = None.
Proof.
  intros Hr Hk. rewrite get_array in Hr. cbn zeta in Hr. apply Resolved_inj in Hr.
  destruct (Promise_all _) as [responses|]; [|discriminate Hr]. cbn [obind] in Hr.
  destruct (group _ _ _) as [final'|] eqn:Hg; [|discriminate Hr].
  apply Resolved_inj in Hr. injection Hr as ->.
  destruct (group_grouped _ _ _ Hg) as [_ ->].
  unfold grouped. now rewrite values_of_none.
Qed.

End Get.



(** *** The persisted cursor *)

Lemma exec_HSET_hget (key field : string) (value x : JsVal) (db : Db) :
  fst (exec (HSET key field value) db) = Resolved x ->
  hget (snd (exec (HSET key field value) db)) key field = Some (to_string value).
Proof.
  unfold hget. simpl. destruct (assoc key db) as [[v|h]|] eqn:E; simpl; try discriminate;
    intros _; rewrite assoc_set_prop_eq; [apply assoc_set_prop_eq|].
  simpl. now rewrite String.eqb_refl.
Qed.

(** *** A store larger than one page *)

Lemma large_store_page (pattern : string) :
  page large_store pattern
  = filter (matches pattern) (map fst (map author_record (seq 0 hint))).
Proof.
  unfold page, large_store. rewrite map_app, firstn_app, !length_map, length_seq.
  rewrite Nat.sub_diag, firstn_all2 by now rewrite !length_map, length_seq.
  simpl firstn. now rewrite app_nil_r.
Qed.

Lemma large_store_keys (pattern : string) :
  Forall (fun key => has_type "post" key = false) (page large_store pattern).
Proof.
  rewrite large_store_page. apply Forall_forall. intros key Hk.
  apply filter_In in Hk as [Hk _]. rewrite map_map in Hk.
  apply in_map_iff in Hk as [n [<- _]]. reflexivity.
Qed.

Lemma large_store_stored : stored Sample.parse large_store.
Proof.
  unfold stored, large_store. apply Forall_app. split.
  - apply Forall_map. apply Forall_forall. intros n _. cbv beta. left.
    exists "author", "", (string_of_nat n), "{}", (JStr "{}"). now repeat split; auto.
  - constructor; [|constructor]. left.
    exists "post", "Hi", "E1", "{}", (JStr "{}"). now repeat split; auto.
Qed.

Lemma type_count_pos (ty : string) (db : Db) (kv : string * RVal) :
  In kv db -> has_type ty (fst kv) = true -> 0 < type_count ty db.
Proof.
  intros Hin Ht. unfold type_count.
  assert (H : In kv (filter (fun kv => has_type ty (fst kv)) db))
    by (apply filter_In; now split).
  destruct (filter _ db); [destruct H|simpl; lia].
Qed.

Lemma large_store_counts :
  0 < type_count "post" large_store /\ 0 < type_count "author" large_store.
Proof.
  split.
  - apply (type_count_pos _ _ (buildKey "post" "Hi" "E1", RString "{}")); [|reflexivity].
    apply in_or_app. right. now left.
  - apply (type_count_pos _ _ (author_record 0)); [|reflexivity].
    apply in_or_app. left. apply in_map. apply in_seq. unfold hint. lia.
Qed.

End MemFacts.

(** * The claims that are stated against the reference store *)

(** C2: in a run of [sync] that reaches line 142 with a scheduled write or
    delete already rejected, the cursor of the response is persisted - it is
    what the store then holds - before the promises are awaited; the call
    then fails with the wrapped error, and the persisting of the cursor is
    the last command of the run: nothing takes it back. *)
Theorem sync_cursor_persisted_before_failure
    (cfSync : JsVal -> Promise) (JSON_stringify : JsVal -> JsVal) (cfg : Config)
    (r : JsVal) (db : MemRedis.Db) (response : JsVal) (promises : list Promise)
    (e : JsError) (x : JsVal) :
  let collect := sync_collect MemRedis.Db MemRedis.exec cfSync JSON_stringify cfg r db in
  let run := sync MemRedis.Db MemRedis.exec cfSync JSON_stringify cfg r db in
  result collect = Resolved (response, promises) ->
  first_rejected promises = Some e ->
  fst (MemRedis.exec (persist_cursor response) (store collect)) = Resolved x ->
  Forall (scheduled (trace collect)) promises /\
  trace run = trace collect ++ [Redis (persist_cursor response) (Resolved x)] /\
  result run = Resolved (Rejected (Error_ (error_to_string e))) /\
  MemRedis.hget (store run) "redis-contentful" "nextSyncToken"
    = Some (to_string (prop response "nextSyncToken")).
Proof.
  cbn zeta. intros Hc He Hx.
  rewrite (sync_after_collect _ _ _ _ _ _ _ _ _ Hc). cbn zeta. cbn [result store trace].
  rewrite Hx, He. split; [eapply sync_collect_scheduled; exact Hc|].
  repeat split. exact (MemFacts.exec_HSET_hget _ _ _ _ _ Hx).
Qed.

(** C6, as amended: a run of [get] that resolves returns the mapping that
    groups the fetched, deserialized values under the type of their keys,
    in fetch order; and when the store holds entries of the types ["post"]
    and ["author"], at least one of each, and one page of a scan covers its
    keys, [get(["post","author"])] resolves to a mapping with exactly those
    two keys, each with as many values as there are stored entries of the
    type. *)
Theorem get_groups_by_type :
  (forall (St : Type) (exec : Command -> St -> Promise * St)
          (JSON_parse : JsVal -> Outcome JsVal) (details : JsVal) (s : St) (out : JsVal),
     result (get St exec JSON_parse details s) = Resolved (Resolved out) ->
     exists final,
       out = JObj final /\ NoDup (map fst final) /\
       forall ty, assoc ty final
                  = grouped JSON_parse ty (fetched (trace (get St exec JSON_parse details s)))) /\
  (forall (JSON_parse : JsVal -> Outcome JsVal) (db : MemRedis.Db),
     MemReading.stored JSON_parse db -> length db <= MemReading.hint ->
     0 < MemReading.type_count "post" db -> 0 < MemReading.type_count "author" db ->
     exists final posts authors,
       result (get MemRedis.Db MemRedis.exec JSON_parse
                   (JArr [JStr "post"; JStr "author"] []) db)
         = Resolved (Resolved (JObj final)) /\
       NoDup (map fst final) /\
       (forall ty, In ty (map fst final) <-> ty = "post" \/ ty = "author") /\
       assoc "post" final = Some (JArr posts []) /\
       length posts = MemReading.type_count "post" db /\
       assoc "author" final = Some (JArr authors []) /\
       length authors = MemReading.type_count "author" db).
Proof.
  split.
  - intros. now apply get_grouped.
  - intros. now apply MemFacts.get_post_author.
Qed.

(** C6 as stated fails without the bound on the size of the store: in
    [large_store] the entries of type ["author"] fill the only page that is
    scanned, and the mapping [get] returns has no key ["post"]. *)
Lemma get_groups_by_type_counterexample :
  ~ (forall (JSON_parse : JsVal -> Outcome JsVal) (db : MemRedis.Db),
       MemReading.stored JSON_parse db ->
       0 < MemReading.type_count "post" db -> 0 < MemReading.type_count "author" db ->
       exists final posts authors,
         result (get MemRedis.Db MemRedis.exec JSON_parse
                     (JArr [JStr "post"; JStr "author"] []) db)
           = Resolved (Resolved (JObj final)) /\
         assoc "post" final = Some (JArr posts []) /\
         length posts = MemReading.type_count "post" db /\
         assoc "author" final = Some (JArr authors []) /\
         length authors = MemReading.type_count "author" db).
Proof.
  intros H.
  destruct (H Sample.parse MemReading.large_store MemFacts.large_store_stored
              (proj1 MemFacts.large_store_counts) (proj2 MemFacts.large_store_counts))
    as [final [posts [authors [Hr [Hp _]]]]].
  assert (Hn : assoc "post" final = None).
  { eapply MemFacts.get_array_no_type; [exact Hr|].
    unfold MemReading.keys_of. cbn [flat_map]. rewrite app_nil_r.
    apply Forall_app. split; apply MemFacts.large_store_keys. }
  rewrite Hn in Hp. discriminate Hp.
Qed.

(** * Concrete runs *)

Lemma sync_cache_key_witness :
  exists q response entry,
    In (Contentful q (Resolved response)) (trace Sample.run1) /\
    In entry (changed_entries response) /\
    "post:Hi:E1" = buildKey (to_string (entry_type entry))
                            (to_string (identifier_amended Sample.cfg entry))
                            (to_string (entry_id entry)) /\
    JStr "[object Object]"
      = Sample.stringify (resolved_value (extract entry (locale Sample.cfg))) /\
    @None JsVal = None.
Proof.
  apply (sync_cache_key MemRedis.Db MemRedis.exec (Sample.remote Sample.response1)
           Sample.stringify Sample.cfg JUndefined Sample.db_empty
           "post:Hi:E1" (JStr "[object Object]") None (Resolved (JStr "OK"))).
  vm_compute. tauto.
Defined.

(** C1 as stated fails: the identifier field of entry [E2] holds the number
    [0], which is present, and the key written is ["post::E2"], not
    ["post:0:E2"]. *)
Lemma sync_cache_key_counterexample :
  ~ (forall (St : Type) (exec : Command -> St -> Promise * St)
            (cfSync : JsVal -> Promise) (JSON_stringify : JsVal -> JsVal) (cfg : Config)
            (r : JsVal) (s : St) (k : string) (v : JsVal) (e : option JsVal)
            (reply : Promise),
       In (Redis (SET k v e) reply) (trace (sync St exec cfSync JSON_stringify cfg r s)) ->
       exists q response entry,
         In (Contentful q (Resolved response))
            (trace (sync St exec cfSync JSON_stringify cfg r s)) /\
         In entry (changed_entries response) /\
         k = key_stated cfg entry).
Proof.
  intros H.
  destruct (H MemRedis.Db MemRedis.exec
              (Sample.remote (Sample.response_of [Sample.post_zero] [] "tok1"))
              Sample.stringify Sample.cfg JUndefined Sample.db_empty
              "post::E2" (JStr "[object Object]") None (Resolved (JStr "OK")))
    as [q [response [entry [Hq [He Hk]]]]].
  - vm_compute. tauto.
  - vm_compute in Hq.
    destruct Hq as [Hq|[Hq|[Hq|[Hq|[Hq|[]]]]]]; try discriminate Hq.
    injection Hq as _ <-. vm_compute in He. destruct He as [<-|[]].
    vm_compute in Hk. discriminate Hk.
Qed.

Lemma sync_cursor_persisted_before_failure_witness :
  result Sample.run1 = Resolved (Rejected (Error_ (error_to_string Sample.del_error))) /\
  MemRedis.hget (store Sample.run1) "redis-contentful" "nextSyncToken" = Some "tok1".
Proof.
  destruct (sync_cursor_persisted_before_failure
              (Sample.remote Sample.response1) Sample.stringify Sample.cfg JUndefined
              Sample.db_empty Sample.response1
              [Resolved (JStr "OK"); Rejected Sample.del_error]
              Sample.del_error (JNum 1))
    as [_ [_ [Hr Hh]]]; try reflexivity.
  split; [exact Hr|exact Hh].
Defined.

Lemma sync_mode_selection_witness :
  (exists rest,
     trace (sync MemRedis.Db MemRedis.exec (Sample.remote Sample.response1)
                 Sample.stringify Sample.cfg (JBool true) (Sample.db_cursor "tok0"))
       = Contentful initial_query (Resolved Sample.response1) :: rest /\
     wipe_first (Resolved Sample.response1) rest) /\
  (exists rest,
     trace Sample.run1
       = Redis read_cursor (Resolved JNull)
         :: Contentful initial_query (Resolved Sample.response1) :: rest /\
     wipe_first (Resolved Sample.response1) rest) /\
  (exists rest,
     trace (sync MemRedis.Db MemRedis.exec (Sample.remote Sample.response1)
                 Sample.stringify Sample.cfg JUndefined (Sample.db_cursor "tok0"))
       = Redis read_cursor (Resolved (JStr "tok0"))
         :: Contentful (incremental_query (JStr "tok0")) (Resolved Sample.response1)
         :: rest /\
     commands "flushdb" rest = []).
Proof.
  split; [|split].
  - apply (proj1 (sync_mode_selection MemRedis.Db MemRedis.exec
                    (Sample.remote Sample.response1) Sample.stringify Sample.cfg
                    (JBool true) (Sample.db_cursor "tok0"))).
    reflexivity.
  - apply (proj2 (sync_mode_selection MemRedis.Db MemRedis.exec
                    (Sample.remote Sample.response1) Sample.stringify Sample.cfg
                    JUndefined Sample.db_empty) eq_refl JNull eq_refl).
    reflexivity.
  - apply (proj2 (sync_mode_selection MemRedis.Db MemRedis.exec
                    (Sample.remote Sample.response1) Sample.stringify Sample.cfg
                    JUndefined (Sample.db_cursor "tok0")) eq_refl (JStr "tok0") eq_refl).
    reflexivity.
Defined.

(** C3 as stated fails: a persisted cursor that is the empty string is
    read, and the run is an initial sync that wipes the store. *)
Lemma sync_mode_selection_counterexample :
  ~ (forall (cfSync : JsVal -> Promise) (db : MemRedis.Db) (cursor : string),
       MemRedis.hget db "redis-contentful" "nextSyncToken" = Some cursor ->
       exists rest,
         trace (sync MemRedis.Db MemRedis.exec cfSync Sample.stringify Sample.cfg
                     JUndefined db)
           = Redis read_cursor (Resolved (JStr cursor))
             :: Contentful (incremental_query (JStr cursor))
                           (cfSync (incremental_query (JStr cursor)))
             :: rest /\
         commands "flushdb" rest = []).
Proof.
  intros H.
  destruct (H (Sample.remote Sample.response1) (Sample.db_cursor "") "" eq_refl)
    as [rest [Ht _]].
  vm_compute in Ht. discriminate Ht.
Qed.

Lemma sync_content_type_filter_witness :
  commands "set"
    (trace (sync MemRedis.Db MemRedis.exec
              (Sample.remote (Sample.response_of [Sample.post1; Sample.page1] [] "tok1"))
              Sample.stringify Sample.cfg_posts (JBool true) Sample.db_empty))
  = map (write_of Sample.stringify Sample.cfg_posts)
        (selected Sample.cfg_posts
           (changed_entries (Sample.response_of [Sample.post1; Sample.page1] [] "tok1"))) /\
  (In Sample.post1 (selected Sample.cfg_posts [Sample.post1; Sample.page1]) <->
   In Sample.post1 [Sample.post1; Sample.page1] /\
   exists t, In t (contentTypes Sample.cfg_posts) /\ entry_type Sample.post1 = JStr t).
Proof.
  split.
  - apply (proj1 (proj2 (sync_content_type_filter MemRedis.Db MemRedis.exec
             (Sample.remote (Sample.response_of [Sample.post1; Sample.page1] [] "tok1"))
             Sample.stringify Sample.cfg_posts (JBool true) Sample.db_empty))
             (Sample.response_of [Sample.post1; Sample.page1] [] "tok1")
             [Resolved (JStr "OK")]).
    reflexivity.
  - apply (proj2 (proj2 (sync_content_type_filter MemRedis.Db MemRedis.exec
             (Sample.remote (Sample.response_of [Sample.post1; Sample.page1] [] "tok1"))
             Sample.stringify Sample.cfg_posts (JBool true) Sample.db_empty))
             [Sample.post1; Sample.page1]).
    discriminate.
Defined.

Lemma get_resolves_patterns_witness :
  commands "get"
    (trace (get MemRedis.Db MemRedis.exec Sample.parse
              (JArr [JStr "post"; JStr ""] [("search", JStr "H*")]) Sample.db_entries))
  = map GET (pages_keys (scan_replies
      (trace (get MemRedis.Db MemRedis.exec Sample.parse
                (JArr [JStr "post"; JStr ""] [("search", JStr "H*")]) Sample.db_entries)))) /\
  get MemRedis.Db MemRedis.exec Sample.parse (JNum 5) Sample.db_entries
  = mkRun (Resolved (Resolved (JObj []))) Sample.db_entries [] /\
  commands "scan"
    (trace (get MemRedis.Db MemRedis.exec Sample.parse Article.typed_search
              Sample.db_entries))
  = [page_scan "post:Hi:*"].
Proof.
  split; [|split].
  - apply (get_resolves_patterns MemRedis.Db MemRedis.exec Sample.parse
             (JArr [JStr "post"; JStr ""] [("search", JStr "H*")]) Sample.db_entries).
    vm_compute. repeat constructor; eexists; split; reflexivity.
  - apply (get_resolves_patterns MemRedis.Db MemRedis.exec Sample.parse
             (JNum 5) Sample.db_entries).
    exact I.
  - apply (get_resolves_patterns MemRedis.Db MemRedis.exec Sample.parse
             Article.typed_search Sample.db_entries).
Defined.

(** C5 as stated fails: the object [{type: 'post', search: 'Hi'}] has a
    single type name, and [get] scans ["post:Hi:*"] for it, not
    ["post:*:*"]. *)
Lemma get_resolves_patterns_counterexample :
  ~ (forall (St : Type) (exec : Command -> St -> Promise * St)
            (JSON_parse : JsVal -> Outcome JsVal) (details : JsVal) (s : St),
       commands "scan" (trace (get St exec JSON_parse details s))
       = map page_scan (patterns_stated details)).
Proof.
  intros H.
  specialize (H MemRedis.Db MemRedis.exec Sample.parse Article.typed_search
                Sample.db_entries).
  discriminate H.
Qed.

Lemma get_groups_by_type_witness :
  (exists final,
     JObj [("post", JArr [JStr "{1}"; JStr "{3}"] [])] = JObj final /\
     NoDup (map fst final) /\
     forall ty, assoc ty final
                = grouped Sample.parse ty
                    (fetched (trace (get MemRedis.Db MemRedis.exec Sample.parse
                                       (JStr "post") Sample.db_entries)))) /\
  (exists final posts authors,
     result (get MemRedis.Db MemRedis.exec Sample.parse
                 (JArr [JStr "post"; JStr "author"] []) Sample.db_entries)
       = Resolved (Resolved (JObj final)) /\
     NoDup (map fst final) /\
     (forall ty, In ty (map fst final) <-> ty = "post" \/ ty = "author") /\
     assoc "post" final = Some (JArr posts []) /\
     length posts = MemReading.type_count "post" Sample.db_entries /\
     assoc "author" final = Some (JArr authors []) /\
     length authors = MemReading.type_count "author" Sample.db_entries).
Proof.
  split.
  - apply (proj1 get_groups_by_type MemRedis.Db MemRedis.exec Sample.parse
             (JStr "post") Sample.db_entries).
    reflexivity.
  - apply (proj2 get_groups_by_type Sample.parse Sample.db_entries).
    + repeat apply Forall_cons; [| | | |apply Forall_nil].
      * left. exists "post", "Hi", "E1", "{1}", (JStr "{1}"). repeat split; auto.
      * left. exists "author", "Ann", "A1", "{2}", (JStr "{2}"). repeat split; auto.
      * left. exists "post", "Yo", "E4", "{3}", (JStr "{3}"). repeat split; auto.
      * right. reflexivity.
    + unfold MemReading.hint. simpl. lia.
    + apply Nat.ltb_lt. reflexivity.
    + apply Nat.ltb_lt. reflexivity.
Defined.

Lemma sync_deletion_single_page_witness :
  (commands "scan" (trace Article.run5) = [SCAN "0" "*:*:E1" None] /\
   exists next t3,
     skipn 4 (trace Article.run5) = next :: t3 /\
     deletes_page (Redis (SCAN "0" "*:*:E1" None) (Resolved Article.page_E1)) next) /\
  skipn 4 (trace Article.run5)
  = [Redis (DEL (JArr [JStr "post:Hi:E1"; JStr "post:Hello:E1"] [])) (Resolved (JNum 2));
     Redis (HSET "redis-contentful" "nextSyncToken" (JStr "tok5")) (Resolved (JNum 0))] /\
  map fst (store Article.run5) = ["author:Ann:A1"; "redis-contentful"; "page:About:E3"] /\
  result Article.run5 = Resolved (Resolved sync_complete).
Proof.
  split; [split|repeat split].
  - apply (proj1 (sync_deletion_single_page MemRedis.Db MemRedis.exec
                    (Sample.remote Article.response4) Sample.stringify Sample.cfg
                    JUndefined Article.db_rekeyed)
             Article.response4 [Resolved (JStr "OK"); Resolved (JNum 2)]).
    reflexivity.
  - apply (proj2 (sync_deletion_single_page MemRedis.Db MemRedis.exec
                    (Sample.remote Article.response4) Sample.stringify Sample.cfg
                    JUndefined Article.db_rekeyed)
             (firstn 3 (trace Article.run5))).
    + reflexivity.
    + exists "0", "*:*:E1", None, Article.page_E1. split; reflexivity.
Defined.

Lemma custom_key_check_witness :
  getCustom MemRedis.Db MemRedis.exec Sample.parse (JNum 123) Sample.db_entries
    = mkRun (Resolved (Rejected (Error_ "getCustom - key should be a string")))
            Sample.db_entries [] /\
  deleteCustom MemRedis.Db MemRedis.exec (JStr "post:Hi:E1") Sample.db_entries
    = mkRun (Resolved (fst (MemRedis.exec (DEL (JStr "post:Hi:E1")) Sample.db_entries)))
            (snd (MemRedis.exec (DEL (JStr "post:Hi:E1")) Sample.db_entries))
            [Redis (DEL (JStr "post:Hi:E1"))
                   (fst (MemRedis.exec (DEL (JStr "post:Hi:E1")) Sample.db_entries))].
Proof.
  split.
  - apply (proj1 (custom_key_check MemRedis.Db MemRedis.exec Sample.stringify Sample.parse
                    (JNum 123) (JStr "v") JUndefined Sample.db_entries)).
    reflexivity.
  - apply (proj2 (custom_key_check MemRedis.Db MemRedis.exec Sample.stringify Sample.parse
                    (JStr "post:Hi:E1") (JStr "v") JUndefined Sample.db_entries)).
    reflexivity.
Defined.

(** C9 as stated fails for [getCustom]: the call does not throw, it returns
    a rejected promise. *)
Lemma custom_key_check_counterexample :
  ~ (forall (St : Type) (exec : Command -> St -> Promise * St)
            (JSON_parse : JsVal -> Outcome JsVal) (key : JsVal) (s : St),
       typeof_string key = false ->
       result (getCustom St exec JSON_parse key s)
         = Rejected (Error_ "getCustom - key should be a string")).
Proof.
  intros H.
  specialize (H MemRedis.Db MemRedis.exec Sample.parse (JNum 123) Sample.db_entries eq_refl).
  discriminate H.
Qed.

Lemma sync_deletes_empty_page_witness :
  exists d t3, skipn 5 (trace Sample.run1) = Redis (DEL (JArr [] [])) d :: t3.
Proof.
  apply (sync_deletes_empty_page MemRedis.Db MemRedis.exec
           (Sample.remote Sample.response1) Sample.stringify Sample.cfg
           JUndefined Sample.db_empty
           (firstn 4 (trace Sample.run1)) (skipn 5 (trace Sample.run1))
           "0" "*:*:E9" None Sample.empty_page []).
  - reflexivity.
  - reflexivity.
Defined.

(** * Further properties of the code *)

(** [H] says that a name is one of a list of other names. *)
Ltac not_among H :=
  simpl in H; repeat (destruct H as [H|H]; [discriminate H|]); exact H.

(** The goal says that a name is not in a list of other names. *)
Ltac names_differ :=
  simpl; let H := fresh "H" in intros H; not_among H.

(** ** EntryFlattener: the shape of a flattened entry *)


Lemma fmap_list_Forall2 (ex : JsVal -> Fueled JsVal) (l ys : list JsVal) :
  fmap_list ex l = Some (Resolved ys) ->
  Forall2 (fun e y => ex e = Some (Resolved y)) l ys.
Proof.
  revert ys. induction l as [|x l IH]; simpl; intros ys H.
  - injection H as <-. constructor.
  - destruct (ex x) as [[y|e]|] eqn:Ex; simpl in H; try discriminate.
    destruct (fmap_list ex l) as [[ys'|e]|] eqn:El; simpl in H; try discriminate.
    injection H as <-. constructor; [assumption|now apply IH].
Qed.

Lemma truthy_prop (v : JsVal) (k : string) : truthy (prop v k) = true -> truthy v = true.
Proof.
  intros H. destruct (truthy v) eqn:E; [reflexivity|].
  now rewrite (falsy_prop v k E) in H.
Qed.

(** What [extract] computes for a value that has fields. *)
Lemma extract_entry (data : JsVal) (locale : string) (out : JsVal) :
  is_entry data = true ->
  extract data locale = Resolved out ->
  exists details id,
    extract_details (fun d => extract_fuel (depth data) d locale)
      (prop data "fields") locale (object_keys (prop data "fields")) []
      = Some (Resolved details) /\
    getp (prop data "sys") "id" = Resolved id /\
    out = JObj (spread ([("id", id)] ++ spread_type (prop data "sys")
                          ++ [("createdAt", prop (prop data "sys") "createdAt");
                              ("updatedAt", prop (prop data "sys") "updatedAt")])
                  details).
Proof.
  unfold is_entry, extract. intros Hf H. rewrite extract_fuel_unfold, Hf in H.
  destruct (extract_details _ _ _ _ _) as [[details|e]|] eqn:E; simpl in H;
    try discriminate.
  destruct (getp (prop data "sys") "id") as [id|e] eqn:Eid; [|discriminate].
  injection H as <-. now exists details, id.
Qed.

Lemma extract_inner (data : JsVal) (locale k : string) (d : JsVal) (y : JsVal) :
  recursed locale (prop data "fields") k d ->
  extract_fuel (depth data) d locale = Some (Resolved y) ->
  extract d locale = Resolved y.
Proof.
  intros Hr H. apply recursed_depth in Hr.
  rewrite extract_fuel_extract in H by lia. now injection H.
Qed.

Lemma extract_inner_all (data : JsVal) (locale k : string) (l ys : list JsVal) :
  (forall d, In d l -> recursed locale (prop data "fields") k d) ->
  Forall2 (fun e y => extract_fuel (depth data) e locale = Some (Resolved y)) l ys ->
  Forall2 (fun e y => extract e locale = Resolved y) l ys.
Proof.
  intros Hin H. induction H as [|x y l ys Hxy _ IH]; constructor.
  - apply (extract_inner data locale k); [apply Hin; now left|assumption].
  - apply IH. intros d Hd. apply Hin. now right.
Qed.

(** A value that has no [fields] map is not flattened: a string or a number
    is returned as it is, anything else becomes [undefined]. *)
Lemma extract_plain (data : JsVal) (locale : string) :
  is_entry data = false ->
  extract data locale =
  Resolved (if typeof_string data || typeof_number data then data else JUndefined).
Proof.
  unfold is_entry, extract. intros H. rewrite extract_fuel_unfold, H.
  now destruct (typeof_string data || typeof_number data).
Qed.

(** X1: a field, other than [__proto__], whose localized value is an array
    is flattened to the array of the flattened elements, in order and one
    for one, and the non-positional properties of the array are dropped; an
    element that has no [fields] map is kept when it is a string or a number
    - the empty string and [0] included - and becomes [undefined]
    otherwise. *)
Theorem extract_array_field (data : JsVal) (locale fieldKey : string) (out : JsVal) :
  has_field data fieldKey ->
  fieldKey <> "__proto__" ->
  instanceof_Array (localized_value data locale fieldKey) = true ->
  extract data locale = Resolved out ->
  exists ys,
    prop out fieldKey = JArr ys [] /\
    Forall2 (fun innerData y =>
               extract innerData locale = Resolved y /\
               (is_entry innerData = false ->
                y = if typeof_string innerData || typeof_number innerData
                    then innerData else JUndefined))
            (array_elems (localized_value data locale fieldKey)) ys.
Proof.
  intros [Hf Hk] Hp Ha H.
  destruct (extract_entry _ _ _ Hf H) as [details [id [E [_ ->]]]].
  destruct (extract_details_spec _ _ _ _ _ _ E) as [Hnd [_ Hin]].
  destruct (Hin _ Hk Hp) as [v [Hv Hassoc]].
  unfold localized_value in *. unfold extract_field in Hv.
  assert (Ht : truthy (prop (prop data "fields") fieldKey) = true).
  { apply (truthy_prop _ locale).
    now destruct (prop (prop (prop data "fields") fieldKey) locale). }
  rewrite Ht, Ha in Hv. cbn [andb] in Hv.
  destruct (fmap_list _ _) as [[ys|e]|] eqn:El; simpl in Hv; try discriminate.
  injection Hv as <-. exists ys. split.
  - simpl. now rewrite (spread_assoc fieldKey _ details _ (Hnd (NoDup_nil _)) Hassoc).
  - apply fmap_list_Forall2 in El.
    eapply Forall2_impl; [|apply (extract_inner_all data locale fieldKey); [|exact El]].
    + intros innerData y Hy. cbv beta in Hy |- *. split; [exact Hy|]. intros Hpl.
      rewrite (extract_plain _ _ Hpl) in Hy. now injection Hy.
    + intros d Hd. split; [|now right].
      now destruct (prop (prop (prop data "fields") fieldKey) locale).
Qed.

(** X2: a field, other than [__proto__], whose localized value is an object
    that has fields of its own - a linked entry - is flattened to the
    flattened linked entry. *)
Theorem extract_nested_entry (data : JsVal) (locale fieldKey : string) (out : JsVal) :
  has_field data fieldKey ->
  fieldKey <> "__proto__" ->
  instanceof_Array (localized_value data locale fieldKey) = false ->
  is_nested_entry (localized_value data locale fieldKey) = true ->
  extract data locale = Resolved out ->
  extract (localized_value data locale fieldKey) locale = Resolved (prop out fieldKey).
Proof.
  intros [Hf Hk] Hp Ha Hn H.
  destruct (extract_entry _ _ _ Hf H) as [details [id [E [_ ->]]]].
  destruct (extract_details_spec _ _ _ _ _ _ E) as [Hnd [_ Hin]].
  destruct (Hin _ Hk Hp) as [v [Hv Hassoc]].
  unfold localized_value, is_nested_entry in *. unfold extract_field in Hv.
  apply andb_prop in Hn as [Ho Hfl].
  assert (Ht : truthy (prop (prop data "fields") fieldKey) = true).
  { apply (truthy_prop _ locale).
    now destruct (prop (prop (prop data "fields") fieldKey) locale). }
  rewrite Ht, Ha, Ho, Hfl in Hv. cbn [andb] in Hv.
  simpl. rewrite (spread_assoc fieldKey _ details _ (Hnd (NoDup_nil _)) Hassoc).
  apply (extract_inner data locale fieldKey); [|assumption].
  split; [assumption|now left].
Qed.

Lemma details_keys (ex : JsVal -> Fueled JsVal) (fields : JsVal) (locale : string)
    (keys : list string) (details : list (string * JsVal)) :
  extract_details ex fields locale keys [] = Some (Resolved details) ->
  forall k, In k (map fst details) <-> In k keys /\ k <> "__proto__".
Proof.
  intros E k. destruct (extract_details_spec _ _ _ _ _ _ E) as [_ [Hout Hin]].
  split.
  - intros Hk.
    assert (Hn : ~ (~ In k keys \/ k = "__proto__")).
    { intros Hn. specialize (Hout k Hn). simpl in Hout.
      apply assoc_None_keys in Hout. contradiction. }
    split; [|tauto].
    destruct (in_dec string_dec k keys) as [Hi|Hni]; [assumption|tauto].
  - intros [Hk Hp]. destruct (Hin k Hk Hp) as [v [_ Hv]].
    destruct (in_dec string_dec k (map fst details)) as [Hi|Hni]; [assumption|].
    apply assoc_None_keys in Hni. congruence.
Qed.

Lemma omap_Forall2 {A B : Type} (f : A -> Outcome B) (l : list A) (ys : list B) :
  Forall2 (fun x y => f x = Resolved y) l ys -> omap f l = Resolved ys.
Proof.
  induction 1 as [|x y l ys Hxy _ IH]; simpl; [reflexivity|].
  now rewrite Hxy, IH.
Qed.

(** A flattened entry holds, under the key of each field but [__proto__],
    the value lines 17-30 compute for the field. *)
Lemma extract_field_value (data : JsVal) (locale fieldKey : string) (out : JsVal) :
  has_field data fieldKey ->
  fieldKey <> "__proto__" ->
  extract data locale = Resolved out ->
  field_value data locale fieldKey = Resolved (prop out fieldKey).
Proof.
  intros [Hf Hk] Hp H.
  destruct (extract_entry _ _ _ Hf H) as [details [id [E [_ ->]]]].
  destruct (extract_details_spec _ _ _ _ _ _ E) as [Hnd [_ Hin]].
  destruct (Hin _ Hk Hp) as [v [Hv Hassoc]].
  cbn [prop]. rewrite (spread_assoc fieldKey _ details _ (Hnd (NoDup_nil _)) Hassoc).
  unfold field_value, localized_value.
  destruct (instanceof_Array (prop (prop (prop data "fields") fieldKey) locale)) eqn:Ha.
  - unfold extract_field in Hv.
    assert (Ht : truthy (prop (prop data "fields") fieldKey) = true).
    { apply (truthy_prop _ locale).
      now destruct (prop (prop (prop data "fields") fieldKey) locale). }
    rewrite Ht, Ha in Hv. cbn [andb] in Hv.
    destruct (fmap_list _ _) as [[ys|e]|] eqn:El; simpl in Hv; try discriminate.
    injection Hv as <-. apply fmap_list_Forall2 in El.
    rewrite (omap_Forall2 _ _ ys); [reflexivity|].
    apply (extract_inner_all data locale fieldKey); [|exact El].
    intros d Hd. split; [|now right].
    now destruct (prop (prop (prop data "fields") fieldKey) locale).
  - destruct (is_nested_entry (prop (prop (prop data "fields") fieldKey) locale)) eqn:Hn.
    + unfold extract_field in Hv. unfold is_nested_entry in Hn.
      apply andb_prop in Hn as [Ho Hfl].
      assert (Ht : truthy (prop (prop data "fields") fieldKey) = true).
      { apply (truthy_prop _ locale).
        now destruct (prop (prop (prop data "fields") fieldKey) locale). }
      rewrite Ht, Ha, Ho, Hfl in Hv. cbn [andb] in Hv.
      apply (extract_inner data locale fieldKey); [|assumption].
      split; [assumption|now left].
    + rewrite (extract_field_scalar _ _ _ _ Ha Hn) in Hv. now injection Hv as <-.
Qed.

Lemma spread_keys (k : string) (details base : list (string * JsVal)) :
  In k (map fst (spread base details)) <-> In k (map fst base) \/ In k (map fst details).
Proof.
  unfold spread. revert base.
  induction details as [|[k1 v1] details IH]; simpl; intros base; [tauto|].
  rewrite IH, set_prop_keys.
  destruct (existsb (String.eqb k1) (map fst base)) eqn:E.
  - apply existsb_eqb_In in E. split; [tauto|].
    intros [H|[<-|H]]; auto.
  - rewrite in_app_iff. simpl. tauto.
Qed.

Lemma spread_NoDup (details base : list (string * JsVal)) :
  NoDup (map fst base) -> NoDup (map fst (spread base details)).
Proof.
  unfold spread. revert base.
  induction details as [|[k1 v1] details IH]; simpl; intros base H; [assumption|].
  apply IH. now apply set_prop_NoDup.
Qed.

(** The [type] property is spread in exactly when the content-type id is
    truthy. *)
Lemma spread_type_spec (data : JsVal) :
  spread_type (prop data "sys") =
  if truthy (entry_type data) then [("type", entry_type data)] else [].
Proof.
  unfold spread_type, entry_type.
  set (ct := prop (prop data "sys") "contentType").
  destruct (truthy (prop (prop ct "sys") "id")) eqn:E.
  - pose proof (truthy_prop _ _ E) as E1. pose proof (truthy_prop _ _ E1) as E2.
    now rewrite E1, E2.
  - now rewrite !andb_false_r.
Qed.

Lemma header_keys_spec (data id : JsVal) :
  map fst ([("id", id)] ++ spread_type (prop data "sys")
             ++ [("createdAt", prop (prop data "sys") "createdAt");
                 ("updatedAt", prop (prop data "sys") "updatedAt")])
  = header_keys data.
Proof.
  rewrite spread_type_spec. unfold header_keys.
  now destruct (truthy (entry_type data)).
Qed.

(** X3: the flattened entry carries [id], [createdAt] and [updatedAt] of
    [sys], and [type] when the content-type id is truthy ([type] is absent
    otherwise) - each unless the entry has a field of that name: the
    flattened value of that field then takes the place of the system
    value. *)
Theorem extract_system_fields (data : JsVal) (locale : string) (out : JsVal) :
  is_entry data = true ->
  extract data locale = Resolved out ->
  let sys := prop data "sys" in
  let fieldKeys := object_keys (prop data "fields") in
  ((~ In "id" fieldKeys -> prop out "id" = prop sys "id") /\
   (~ In "type" fieldKeys ->
      prop out "type" = if truthy (entry_type data) then entry_type data else JUndefined) /\
   (~ In "createdAt" fieldKeys -> prop out "createdAt" = prop sys "createdAt") /\
   (~ In "updatedAt" fieldKeys -> prop out "updatedAt" = prop sys "updatedAt")) /\
  (forall name,
     In name ["id"; "type"; "createdAt"; "updatedAt"] ->
     In name fieldKeys ->
     field_value data locale name = Resolved (prop out name)).
Proof.
  intros Hf H. cbn zeta. split.
  2:{ intros name Hname Hin. apply extract_field_value; [now split| |exact H].
      intros ->. simpl in Hname. intuition discriminate. }
  destruct (extract_entry _ _ _ Hf H) as [details [id [E [Hid ->]]]].
  apply getp_resolved in Hid as [-> _].
  pose proof (details_keys _ _ _ _ _ E) as Hk.
  assert (Hbase : forall k, ~ In k (object_keys (prop data "fields")) ->
            prop (JObj (spread ([("id", prop (prop data "sys") "id")]
                                  ++ spread_type (prop data "sys")
                                  ++ [("createdAt", prop (prop data "sys") "createdAt");
                                      ("updatedAt", prop (prop data "sys") "updatedAt")])
                               details)) k
            = prop (JObj ([("id", prop (prop data "sys") "id")]
                            ++ spread_type (prop data "sys")
                            ++ [("createdAt", prop (prop data "sys") "createdAt");
                                ("updatedAt", prop (prop data "sys") "updatedAt")])) k).
  { intros k Hn. cbn [prop]. rewrite spread_assoc_notin; [reflexivity|].
    rewrite Hk. tauto. }
  repeat split; intros Hn; rewrite (Hbase _ Hn), spread_type_spec;
    destruct (truthy (entry_type data)); reflexivity.
Qed.

(** X4: the keys of a flattened entry are exactly the header keys and the
    keys of its fields other than [__proto__], none twice: the field named
    [__proto__] is the only one that is dropped. *)
Theorem extract_keys (data : JsVal) (locale : string) (out : JsVal) :
  is_entry data = true ->
  extract data locale = Resolved out ->
  exists props,
    out = JObj props /\ NoDup (map fst props) /\
    forall k, In k (map fst props) <->
              In k (header_keys data) \/
              (In k (object_keys (prop data "fields")) /\ k <> "__proto__").
Proof.
  intros Hf H.
  destruct (extract_entry _ _ _ Hf H) as [details [id [E [_ ->]]]].
  eexists. split; [reflexivity|split].
  - apply spread_NoDup. rewrite header_keys_spec. unfold header_keys.
    destruct (truthy (entry_type data)); simpl; repeat constructor; simpl;
      intuition discriminate.
  - intros k. rewrite spread_keys, header_keys_spec, (details_keys _ _ _ _ _ E).
    reflexivity.
Qed.

Lemma fmap_list_rejected (ex : JsVal -> Fueled JsVal) (l : list JsVal) (e : JsError) :
  fmap_list ex l = Some (Rejected e) -> exists d, ex d = Some (Rejected e).
Proof.
  induction l as [|x l IH]; simpl; intros H; [discriminate|].
  destruct (ex x) as [[y|e']|] eqn:Ex; simpl in H; try discriminate.
  - destruct (fmap_list ex l) as [[ys|e']|]; simpl in H; try discriminate.
    apply IH. exact H.
  - injection H as ->. eauto.
Qed.

Lemma extract_field_rejected (ex : JsVal -> Fueled JsVal) (fields : JsVal)
    (locale k : string) (e : JsError) :
  extract_field ex fields locale k = Some (Rejected e) ->
  exists d, ex d = Some (Rejected e).
Proof.
  unfold extract_field.
  destruct (truthy (prop fields k) && instanceof_Array (prop (prop fields k) locale)).
  - destruct (fmap_list ex _) as [[ys|e']|] eqn:El; simpl; try discriminate.
    intros [= ->]. now apply fmap_list_rejected in El.
  - destruct (_ && _ && _); [eauto|discriminate].
Qed.

Lemma extract_details_rejected (ex : JsVal -> Fueled JsVal) (fields : JsVal)
    (locale : string) (keys : list string) (e : JsError) :
  forall details,
    extract_details ex fields locale keys details = Some (Rejected e) ->
    exists d, ex d = Some (Rejected e).
Proof.
  induction keys as [|k keys IH]; simpl; intros details H; [discriminate|].
  destruct (extract_field ex fields locale k) as [[v|e']|] eqn:E; simpl in H;
    try discriminate.
  - now apply IH in H.
  - injection H as ->. now apply extract_field_rejected in E.
Qed.

(** The only failure of [extract] is the read of [id] from a [sys] that is
    [undefined] or [null]. *)
Lemma extract_fuel_rejected (locale : string) (n : nat) (data : JsVal) (e : JsError) :
  extract_fuel n data locale = Some (Rejected e) -> missing_sys e.
Proof.
  revert data. induction n as [|n IH]; intros data H; [discriminate|].
  rewrite extract_fuel_unfold in H.
  destruct (truthy (js_and data (prop data "fields"))).
  - destruct (extract_details _ _ _ _ _) as [[details|e']|] eqn:E; simpl in H;
      try discriminate.
    + destruct (getp (prop data "sys") "id") as [id|e'] eqn:Eid; [discriminate|].
      injection H as ->. exists (prop data "sys").
      split; [|exact Eid]. destruct (prop data "sys"); try discriminate; auto.
    + injection H as ->. apply extract_details_rejected in E as [d Hd].
      now apply IH in Hd.
  - destruct (_ || _); discriminate.
Qed.

(** X5: the only way [extract] fails is by reading [id] from a [sys] that
    is [undefined] or [null], in the entry or in an entry it recurses into;
    and an entry whose [sys] is missing does make it fail. *)
Theorem extract_errors (data : JsVal) (locale : string) :
  (forall e, extract data locale = Rejected e -> missing_sys e) /\
  (is_entry data = true ->
   prop data "sys" = JUndefined \/ prop data "sys" = JNull ->
   exists e, extract data locale = Rejected e).
Proof.
  split.
  - intros e H. unfold extract in H.
    destruct (extract_fuel_enough locale (depth data) data (le_n _)) as [o Ho].
    rewrite Ho in H. subst o. now apply extract_fuel_rejected in Ho.
  - intros Hf Hs. destruct (extract data locale) as [out|e] eqn:E; [|eauto].
    destruct (extract_entry _ _ _ Hf E) as [details [id [_ [Hid _]]]].
    destruct Hs as [Hs|Hs]; rewrite Hs in Hid; discriminate.
Qed.

(** ** Runs of the program: outcomes and failures *)

Section RunFacts.

Variable St : Type.
Variable exec : Command -> St -> Promise * St.
Variable cfSync : JsVal -> Promise.
Variable JSON_stringify : JsVal -> JsVal.
Variable JSON_parse : JsVal -> Outcome JsVal.
Variable cfg : Config.

Set Default Proof Using "Type".

Local Abbreviation sync := (sync St exec cfSync JSON_stringify cfg).
Local Abbreviation sync_collect := (sync_collect St exec cfSync JSON_stringify cfg).
Local Abbreviation sync_mode := (sync_mode St exec).
Local Abbreviation sync_flush := (sync_flush St exec).
Local Abbreviation sync_writes := (sync_writes St exec JSON_stringify cfg).
Local Abbreviation sync_deletes := (sync_deletes St exec).
Local Abbreviation write_entry := (write_entry St exec JSON_stringify cfg).
Local Abbreviation delete_entry := (delete_entry St exec).
Local Abbreviation get := (get St exec JSON_parse).
Local Abbreviation get_keys := (get_keys St exec).
Local Abbreviation within := (within St).
Local Abbreviation selected := (selected cfg).
Local Abbreviation write_of := (write_of JSON_stringify cfg).

Lemma sync_collect_rejected (r : JsVal) (s : St) (e : JsError) :
  result (sync_collect r s) = Rejected e ->
  sync r s = mkRun (Resolved (Rejected (Error_ (error_to_string e))))
               (store (sync_collect r s)) (trace (sync_collect r s)).
Proof.
  intros H. unfold sync, async, sync_body, try_catch.
  rewrite bind_result, bind_store, bind_trace, H.
  cbn [result store trace lift]. now rewrite !app_nil_r.
Qed.

(** X9: when anything fails before line 142 - the cursor read, the fetch,
    the wipe, the flattening of an entry, a scan of the deletion loop - the
    promise is rejected with the wrapped error and the cursor is not
    persisted. *)
Theorem sync_failure_before_cursor (r : JsVal) (s : St) (e : JsError) :
  result (sync_collect r s) = Rejected e ->
  result (sync r s) = Resolved (Rejected (Error_ (error_to_string e))) /\
  commands "hset" (trace (sync r s)) = [].
Proof.
  intros H. rewrite (sync_collect_rejected _ _ _ H). cbn [result trace].
  split; [reflexivity|].
  rewrite sync_collect_trace. cbn zeta.
  rewrite commands_app, (commands_none "hset" _ _ (sync_mode_named _ exec r s))
    by names_differ.
  destruct (result (sync_mode r s)) as [mode|]; [|reflexivity].
  rewrite commands_Contentful.
  destruct (cfSync _) as [response|]; [|reflexivity].
  rewrite commands_app, (commands_none "hset" _ _ (sync_flush_named _ exec (fst mode) _))
    by names_differ.
  destruct (result (sync_flush _ _)); [|reflexivity].
  rewrite commands_app,
    (commands_none "hset" _ _ (sync_writes_named _ exec JSON_stringify cfg response _))
    by names_differ.
  destruct (result (sync_writes _ _)); [|reflexivity].
  apply (commands_none "hset" _ _ (sync_deletes_named _ exec response _)).
  names_differ.
Qed.


(** *** A run that resolves met no failure *)

Lemma sync_mode_succeeded (r : JsVal) (s : St) (mode : bool * JsVal) :
  result (sync_mode r s) = Resolved mode -> Forall succeeded (trace (sync_mode r s)).
Proof.
  unfold sync_mode. destruct (truthy r); [constructor|].
  unfold rHGet. rewrite bind_result, bind_trace, dispatch_run. cbn [result store trace].
  rewrite bind_result, bind_trace. cbn [await lift result store trace ret].
  destruct (fst (exec _ s)) as [token|] eqn:E; [|discriminate].
  intros _. repeat constructor. now exists token.
Qed.

Lemma sync_flush_succeeded (isInitial : bool) (s : St) (x : JsVal) :
  result (sync_flush isInitial s) = Resolved x ->
  Forall succeeded (trace (sync_flush isInitial s)).
Proof.
  destruct isInitial; [|constructor].
  rewrite sync_flush_initial. cbn [result trace]. intros H.
  repeat constructor. now exists x.
Qed.

Lemma for_each_write_replies (l : list JsVal) (s : St) (ps : list Promise) :
  result (for_each write_entry l s) = Resolved ps ->
  map reply_of (trace (for_each write_entry l s)) = ps.
Proof.
  revert s ps. induction l as [|entry l IH]; simpl; intros s ps H.
  - now injection H as <-.
  - apply bind_resolved in H as [p [Hp [H [Ht _]]]].
    apply bind_resolved in H as [ps' [Hps [H [Ht' _]]]].
    simpl in H. injection H as <-. rewrite Ht, Ht'. simpl. rewrite app_nil_r, map_app.
    rewrite (write_entry_resolved _ _ _ _ _ _ _ Hp), (IH _ _ Hps). reflexivity.
Qed.

Lemma sync_writes_replies (response : JsVal) (s : St) (ps : list Promise) :
  result (sync_writes response s) = Resolved ps ->
  map reply_of (trace (sync_writes response s)) = ps.
Proof.
  unfold sync_writes. intros H.
  apply bind_resolved in H as [entries [He [H [Ht _]]]].
  rewrite Ht. simpl in He, H |- *.
  destruct (truthy _).
  - apply bind_resolved in H as [l [Hl [H [Ht' _]]]].
    rewrite Ht'. simpl in Hl, H |- *. now apply for_each_write_replies.
  - now injection H as <-.
Qed.

(** An event of the deletion loop either succeeded or is one of the
    deletions the loop scheduled. *)
Lemma delete_entry_replies (entry : JsVal) (s : St) (ps : list Promise) :
  result (delete_entry entry s) = Resolved ps ->
  Forall (fun ev => succeeded ev \/ In (reply_of ev) ps) (trace (delete_entry entry s)).
Proof.
  rewrite delete_entry_run. cbn zeta.
  destruct (getp entry "sys") as [sys|]; [|discriminate].
  destruct (getp sys "id"); [|discriminate].
  destruct (fst (exec (suffix_scan entry) s)) as [reply|]; [|discriminate].
  destruct (getp reply "1"); [|discriminate].
  destruct (truthy (match_list reply)); cbn [result trace]; intros [= <-].
  - constructor; [left; now exists reply|].
    constructor; [right; now left|constructor].
  - constructor; [left; now exists reply|constructor].
Qed.

Lemma for_each_delete_replies (l : list JsVal) (s : St) (pss : list (list Promise)) :
  result (for_each delete_entry l s) = Resolved pss ->
  Forall (fun ev => succeeded ev \/ In (reply_of ev) (concat pss))
         (trace (for_each delete_entry l s)).
Proof.
  revert s pss. induction l as [|entry l IH]; simpl; intros s pss H; [constructor|].
  apply bind_resolved in H as [ps [Hp [H [Ht _]]]].
  apply bind_resolved in H as [pss' [Hps [H [Ht' _]]]].
  simpl in H. injection H as <-. rewrite Ht, Ht'. simpl. rewrite app_nil_r.
  apply Forall_app. split.
  - eapply Forall_impl; [|exact (delete_entry_replies _ _ _ Hp)].
    intros ev [Hev|Hev]; [now left|right; apply in_or_app; now left].
  - eapply Forall_impl; [|exact (IH _ _ Hps)].
    intros ev [Hev|Hev]; [now left|right; apply in_or_app; now right].
Qed.

Lemma sync_deletes_replies (response : JsVal) (s : St) (ds : list Promise) :
  result (sync_deletes response s) = Resolved ds ->
  Forall (fun ev => succeeded ev \/ In (reply_of ev) ds) (trace (sync_deletes response s)).
Proof.
  unfold sync_deletes. intros H.
  apply bind_resolved in H as [deleted [He [H [Ht _]]]].
  rewrite Ht. simpl in He, H |- *.
  destruct (truthy _).
  - apply bind_resolved in H as [l [Hl [H [Ht' _]]]].
    rewrite Ht'. simpl in Hl, H |- *.
    apply bind_resolved in H as [pss [Hpss [H [Ht'' _]]]]. rewrite Ht''.
    simpl in H |- *. injection H as <-. rewrite app_nil_r.
    now apply for_each_delete_replies.
  - constructor.
Qed.

Lemma sync_collect_replies (r : JsVal) (s : St) (response : JsVal) (promises : list Promise) :
  result (sync_collect r s) = Resolved (response, promises) ->
  Forall (fun ev => succeeded ev \/ In (reply_of ev) promises) (trace (sync_collect r s)).
Proof.
  intros H.
  destruct (sync_collect_resolved _ _ _ _ _ _ _ _ _ H)
    as [mode [x [writes [deletes [Hm [Hr [Hx [Hw [Hd [Hp [Hs Ht]]]]]]]]]]].
  cbn zeta in *. rewrite Ht, Hp.
  apply Forall_app. split.
  { eapply Forall_impl; [|exact (sync_mode_succeeded _ _ _ Hm)]. now left. }
  constructor; [left; now exists response|].
  apply Forall_app. split.
  { eapply Forall_impl; [|exact (sync_flush_succeeded _ _ _ Hx)]. now left. }
  apply Forall_app. split.
  - apply Forall_forall. intros ev Hev. right. apply in_or_app. left.
    rewrite <- (sync_writes_replies _ _ _ Hw). now apply in_map.
  - eapply Forall_impl; [|exact (sync_deletes_replies _ _ _ Hd)].
    intros ev [Hev|Hev]; [now left|right; apply in_or_app; now right].
Qed.

Lemma first_rejected_None (ps : list Promise) (p : Promise) :
  first_rejected ps = None -> In p ps -> exists v, p = Resolved v.
Proof.
  induction ps as [|[v|e] ps IH]; simpl; intros H Hin; [destruct Hin| |discriminate].
  destruct Hin as [<-|Hin]; eauto.
Qed.

(** A run of [sync] that resolves. *)
Lemma sync_resolved_run (r : JsVal) (s : St) (v : JsVal) :
  result (sync r s) = Resolved (Resolved v) ->
  v = sync_complete /\
  Forall succeeded (trace (sync r s)) /\
  exists q response t x,
    cfSync q = Resolved response /\
    In (Contentful q (Resolved response)) t /\
    trace (sync r s) = t ++ [Redis (persist_cursor response) (Resolved x)].
Proof.
  intros H.
  destruct (result (sync_collect r s)) as [[response promises]|e] eqn:E.
  2:{ rewrite (sync_collect_rejected _ _ _ E) in H. discriminate H. }
  pose proof (sync_collect_replies _ _ _ _ E) as Hrep.
  destruct (sync_collect_resolved _ _ _ _ _ _ _ _ _ E)
    as [mode [x0 [writes [deletes [Hm [Hr [_ [_ [_ [_ [_ Ht]]]]]]]]]]].
  rewrite (sync_after_collect _ _ _ _ _ _ _ _ _ E) in *. cbn zeta in *.
  cbn [result trace] in *.
  destruct (fst (exec _ _)) as [x|] eqn:Ex; [|discriminate H].
  destruct (first_rejected promises) eqn:Ef; [discriminate H|].
  injection H as <-. split; [reflexivity|split].
  - apply Forall_app. split; [|repeat constructor; now exists x].
    eapply Forall_impl; [|exact Hrep].
    intros ev [Hev|Hev]; [assumption|].
    exact (first_rejected_None _ _ Ef Hev).
  - exists (sync_query (fst mode) (snd mode)), response, (trace (sync_collect r s)), x.
    split; [assumption|split; [|reflexivity]].
    rewrite Ht. apply in_or_app. right. now left.
Qed.

(** X8: when the promise of [sync] resolves, no command and no fetch of
    the run failed, and the last command of the run persisted the cursor of
    the response the run fetched. *)
Theorem sync_resolved_no_failure (r : JsVal) (s : St) (v : JsVal) :
  result (sync r s) = Resolved (Resolved v) ->
  v = sync_complete /\
  Forall succeeded (trace (sync r s)) /\
  exists q response t x,
    cfSync q = Resolved response /\
    In (Contentful q (Resolved response)) t /\
    trace (sync r s) = t ++ [Redis (persist_cursor response) (Resolved x)].
Proof. apply sync_resolved_run. Qed.

(** *** A failure of the cursor read or of the fetch *)

Lemma sync_read_failure (r : JsVal) (s : St) (e : JsError) :
  truthy r = false ->
  fst (exec read_cursor s) = Rejected e ->
  sync r s = mkRun (Resolved (Rejected (Error_ (error_to_string e))))
               (snd (exec read_cursor s)) [Redis read_cursor (Rejected e)].
Proof.
  intros Hr He.
  assert (Hm : sync_mode r s
               = mkRun (Rejected e) (snd (exec read_cursor s))
                   [Redis read_cursor (Rejected e)]).
  { unfold sync_mode, read_cursor, rHGet in *. rewrite Hr.
    unfold bind. rewrite dispatch_run. cbn [result store trace await lift].
    rewrite He. cbn [result store trace]. reflexivity. }
  assert (Hc : sync_collect r s
               = mkRun (Rejected e) (snd (exec read_cursor s))
                   [Redis read_cursor (Rejected e)]).
  { unfold sync_collect. unfold bind at 1. now rewrite Hm. }
  rewrite (sync_collect_rejected r s e) by now rewrite Hc.
  now rewrite Hc.
Qed.

Lemma sync_fetch_failure (r : JsVal) (s : St) (e : JsError) (mode : bool * JsVal) :
  result (sync_mode r s) = Resolved mode ->
  cfSync (sync_query (fst mode) (snd mode)) = Rejected e ->
  sync r s = mkRun (Resolved (Rejected (Error_ (error_to_string e))))
               (store (sync_mode r s))
               (trace (sync_mode r s)
                  ++ [Contentful (sync_query (fst mode) (snd mode)) (Rejected e)]).
Proof.
  intros Hm Hq.
  assert (Hc : sync_collect r s
               = mkRun (Rejected e) (store (sync_mode r s))
                   (trace (sync_mode r s)
                      ++ [Contentful (sync_query (fst mode) (snd mode)) (Rejected e)])).
  { unfold sync_collect.
    rewrite (bind_run_resolved _ _ _ _ _ Hm). unfold cfClient_sync.
    unfold bind, await, lift. cbn [result store trace]. rewrite Hq.
    cbn [result store trace]. now rewrite app_nil_r. }
  rewrite (sync_collect_rejected r s e) by now rewrite Hc.
  now rewrite Hc.
Qed.

(** X10: when the read of the cursor fails, [sync] sends nothing else, not
    even the fetch; when the fetch fails, the only command of the run is the
    read of the cursor, if any.  Either way the promise is rejected with the
    wrapped error. *)
Theorem sync_fails_before_writing (r : JsVal) (s : St) (e : JsError) :
  (truthy r = false ->
   fst (exec read_cursor s) = Rejected e ->
   sync r s = mkRun (Resolved (Rejected (Error_ (error_to_string e))))
                (snd (exec read_cursor s)) [Redis read_cursor (Rejected e)]) /\
  (forall mode,
     result (sync_mode r s) = Resolved mode ->
     cfSync (sync_query (fst mode) (snd mode)) = Rejected e ->
     sync r s = mkRun (Resolved (Rejected (Error_ (error_to_string e))))
                  (store (sync_mode r s))
                  (trace (sync_mode r s)
                     ++ [Contentful (sync_query (fst mode) (snd mode)) (Rejected e)]) /\
     Forall (named ["hget"]) (trace (sync_mode r s))).
Proof.
  split.
  - apply sync_read_failure.
  - intros mode Hm Hq. split; [now apply sync_fetch_failure|apply sync_mode_named].
Qed.

(** The run that follows the read of a non-empty cursor. *)
Lemma sync_incremental (r : JsVal) (s : St) (token : JsVal) :
  truthy r = false ->
  fst (exec read_cursor s) = Resolved token ->
  truthy token = true ->
  exists rest,
    trace (sync r s) =
      Redis read_cursor (Resolved token)
      :: Contentful (incremental_query token) (cfSync (incremental_query token)) :: rest /\
    commands "flushdb" rest = [].
Proof.
  intros Hr Htok Ht. rewrite sync_trace. cbn zeta.
  rewrite sync_collect_trace. cbn zeta.
  rewrite (sync_mode_read _ _ _ _ _ Hr Htok), Ht. cbn [result store trace fst snd negb].
  change (sync_query false token) with (incremental_query token).
  eexists. split; [simpl; reflexivity|].
  rewrite commands_app.
  assert (Hp : forall c : Run St (JsVal * list Promise),
             commands "flushdb"
               match result c with
               | Resolved rp => trace (sync_persist St exec (fst rp) (store c))
               | Rejected _ => []
               end = []).
  { intros c. destruct (result c); [|reflexivity].
    apply (commands_none _ _ _ (sync_persist_named _ _ _ _)). names_differ. }
  rewrite Hp, app_nil_r.
  destruct (cfSync (incremental_query token)) as [response|]; [|reflexivity].
  rewrite commands_app.
  rewrite (commands_none _ _ _ (sync_writes_named _ _ _ _ response _)) by names_differ.
  destruct (result (sync_writes _ _)); [|reflexivity].
  apply (commands_none _ _ _ (sync_deletes_named _ _ response _)).
  names_differ.
Qed.

(** The store a run of [sync_collect] ends in, phase by phase. *)
Lemma sync_collect_store (r : JsVal) (s : St) :
  store (sync_collect r s) =
  let m := sync_mode r s in
  match result m with
  | Rejected _ => store m
  | Resolved mode =>
      match cfSync (sync_query (fst mode) (snd mode)) with
      | Rejected _ => store m
      | Resolved response =>
          let fl := sync_flush (fst mode) (store m) in
          match result fl with
          | Rejected _ => store fl
          | Resolved _ =>
              let w := sync_writes response (store fl) in
              match result w with
              | Rejected _ => store w
              | Resolved _ => store (sync_deletes response (store w))
              end
          end
      end
  end.
Proof.
  unfold sync_collect. cbn zeta. rewrite bind_store.
  destruct (result (sync_mode r s)) as [mode|]; [|reflexivity].
  rewrite bind_store. unfold cfClient_sync at 1 2. cbn [result store].
  rewrite bind_store. unfold await, lift. cbn [result store].
  destruct (cfSync (sync_query (fst mode) (snd mode))) as [response|]; [|reflexivity].
  rewrite bind_store.
  destruct (result (sync_flush (fst mode) _)); [|reflexivity].
  rewrite bind_store.
  destruct (result (sync_writes response _)); [|reflexivity].
  rewrite bind_store.
  destruct (result (sync_deletes response _)); reflexivity.
Qed.

(** The store a run of [sync] ends in. *)
Lemma sync_store (r : JsVal) (s : St) :
  store (sync r s) =
  let c := sync_collect r s in
  match result c with
  | Rejected _ => store c
  | Resolved rp => snd (exec (persist_cursor (fst rp)) (store c))
  end.
Proof.
  cbn zeta. destruct (result (sync_collect r s)) as [[response promises]|e] eqn:E.
  - now rewrite (sync_after_collect _ _ _ _ _ _ _ _ _ E).
  - now rewrite (sync_collect_rejected _ _ _ E).
Qed.

(** *** The store is kept within an invariant *)

Lemma preserves_ret {A : Type} (I : St -> Prop) (a : A) : preserves I (ret a).
Proof. intros s H. exact H. Qed.

Lemma preserves_lift {A : Type} (I : St -> Prop) (o : Outcome A) : preserves I (lift o).
Proof. intros s H. exact H. Qed.

Lemma preserves_bind {A B : Type} (I : St -> Prop) (m : M St A) (f : A -> M St B) :
  preserves I m -> (forall a, preserves I (f a)) -> preserves I (bind m f).
Proof.
  intros Hm Hf s H. rewrite bind_store.
  destruct (result (m s)); [apply Hf|]; now apply Hm.
Qed.

Lemma preserves_dispatch (I : St -> Prop) (c : Command) :
  (forall s, I s -> I (snd (exec c s))) -> preserves I (dispatch St exec c).
Proof. intros Hc s H. rewrite dispatch_run. now apply Hc. Qed.

Lemma preserves_for_each {A B : Type} (I : St -> Prop) (f : A -> M St B) (l : list A) :
  (forall x, In x l -> preserves I (f x)) -> preserves I (for_each f l).
Proof.
  induction l as [|x l IH]; simpl; intros H.
  - apply preserves_ret.
  - apply preserves_bind; [apply H; now left|]. intros y.
    apply preserves_bind; [apply IH; intros; apply H; now right|].
    intros ys. apply preserves_ret.
Qed.

Lemma preserves_try_catch {A : Type} (I : St -> Prop) (m : M St A) (h : JsError -> M St A) :
  preserves I m -> (forall e, preserves I (h e)) -> preserves I (try_catch m h).
Proof.
  intros Hm Hh s H. unfold try_catch.
  destruct (result (m s)) eqn:E; [now apply Hm|].
  cbn [store]. apply Hh. now apply Hm.
Qed.

Lemma preserves_async (I : St -> Prop) (m : M St JsVal) :
  preserves I m -> preserves I (async m).
Proof. intros Hm s H. now apply Hm. Qed.

(** *** [get] only reads *)

Lemma get_within (details : JsVal) (s : St) :
  Forall (named ["scan"; "get"]) (trace (get details s)).
Proof.
  rewrite get_trace. cbn zeta.
  destruct (get_keys_run _ exec details s) as [_ [Hn _]]. cbn zeta in Hn.
  apply Forall_app. split.
  - eapply Forall_impl; [|exact Hn]. intros ev [H|[]]. now left.
  - destruct (result (get_keys details s)) as [keys|]; [|constructor].
    destruct (fetch_phase_run _ exec keys (store (get_keys details s))) as [Hg _].
    eapply Forall_impl; [|exact Hg]. intros ev [H|[]]. right. now left.
Qed.

Section Reading.

Variable I : St -> Prop.
Hypothesis scan_keeps : forall cursor pattern count s,
  I s -> I (snd (exec (SCAN cursor pattern count) s)).
Hypothesis get_keeps : forall key s, I s -> I (snd (exec (GET key) s)).

Lemma scan_one_preserves (pattern : string) : preserves I (scan_one St exec pattern).
Proof using scan_keeps.
  unfold scan_one, rScan.
  apply preserves_bind; [apply preserves_dispatch; intros; now apply scan_keeps|].
  intros p. apply preserves_bind; [apply preserves_lift|]. intros response.
  apply preserves_bind; [apply preserves_lift|]. intros matched. apply preserves_ret.
Qed.

Lemma scan_types_preserves (types : list JsVal) (search : JsVal) :
  preserves I (scan_types St exec types search).
Proof using scan_keeps.
  unfold scan_types, rScan.
  apply preserves_bind.
  { apply preserves_for_each. intros type _.
    apply preserves_dispatch. intros; now apply scan_keeps. }
  intros keyPromises. apply preserves_bind; [apply preserves_lift|]. intros keyResponses.
  apply preserves_bind; [apply preserves_lift|]. intros keysArray. apply preserves_ret.
Qed.

Lemma get_keys_preserves (details : JsVal) : preserves I (get_keys details).
Proof using scan_keeps.
  unfold get_keys.
  destruct (typeof_string details); [apply scan_one_preserves|].
  destruct (instanceof_Array details); [apply scan_types_preserves|].
  destruct (instanceof_Object details); [|apply preserves_ret].
  destruct (typeof_string _); [apply scan_one_preserves|].
  destruct (instanceof_Array _); [apply scan_types_preserves|apply preserves_ret].
Qed.

Lemma get_preserves (details : JsVal) : preserves I (get details).
Proof using scan_keeps get_keeps.
  unfold get, get_body. apply preserves_async.
  apply preserves_bind; [apply get_keys_preserves|]. intros keys.
  apply preserves_bind; [apply preserves_lift|]. intros ks.
  apply preserves_bind.
  { apply preserves_for_each. intros key _. unfold rGet.
    apply preserves_dispatch. intros; now apply get_keeps. }
  intros promises. apply preserves_bind; [apply preserves_lift|]. intros responses.
  apply preserves_bind; [apply preserves_lift|]. intros final. apply preserves_ret.
Qed.

End Reading.

(** *** [get]: failures *)

Lemma get_body_run (details : JsVal) (s : St) (ks : list JsVal)
    (props : list (string * JsVal)) :
  result (get_keys details s) = Resolved (JArr ks props) ->
  exists ps,
    length ps = length ks /\
    trace (get details s)
      = trace (get_keys details s)
        ++ map (fun xp => Redis (GET (fst xp)) (snd xp)) (combine ks ps) /\
    result (get details s)
      = Resolved (try responses := Promise_all ps in
                  try final := group JSON_parse (combine ks responses) [] in
                  Resolved (JObj final)).
Proof.
  intros Hk.
  destruct (for_each_dispatch _ exec GET ks (store (get_keys details s)))
    as [ps [Hr [Ht Hl]]].
  exists ps. split; [exact Hl|split].
  - rewrite get_trace. cbn zeta. rewrite Hk. unfold fetch_phase. cbn [as_array].
    unfold rGet. now rewrite Ht.
  - unfold get, async, get_body. cbn [result]. f_equal.
    rewrite bind_result, Hk, bind_result. cbn [lift as_array result store].
    rewrite bind_result. unfold rGet. rewrite Hr.
    rewrite bind_result. cbn [lift result store].
    destruct (Promise_all ps) as [responses|]; cbn [obind]; [|reflexivity].
    rewrite bind_result. cbn [lift result store].
    destruct (group _ _ _); reflexivity.
Qed.

Lemma scan_replies_get_keys (details : JsVal) (s : St) :
  scan_replies (trace (get details s)) = scan_replies (trace (get_keys details s)).
Proof.
  rewrite get_trace. cbn zeta. rewrite scan_replies_app.
  destruct (result (get_keys details s)) as [keys|]; [|apply app_nil_r].
  destruct (fetch_phase_run _ exec keys (store (get_keys details s))) as [Hg _].
  rewrite (scan_replies_none _ _ Hg) by names_differ. apply app_nil_r.
Qed.

Lemma get_replies_app (t1 t2 : list Event) :
  get_replies (t1 ++ t2) = get_replies t1 ++ get_replies t2.
Proof. unfold get_replies. apply flat_map_app. Qed.

Lemma get_replies_none (names : list string) (t : list Event) :
  Forall (named names) t -> ~ In "get" names -> get_replies t = [].
Proof.
  intros H Hn. induction H as [|ev t Hev _ IH]; [reflexivity|].
  unfold get_replies in *. simpl. rewrite IH, app_nil_r.
  destruct ev as [[]|]; try reflexivity. exfalso. now apply Hn.
Qed.

Lemma get_replies_dispatch (ks : list JsVal) (ps : list Promise) :
  length ps = length ks ->
  get_replies (map (fun xp => Redis (GET (fst xp)) (snd xp)) (combine ks ps)) = ps.
Proof.
  revert ps. induction ks as [|x l IH]; intros [|p ps] Hl; try discriminate;
    [reflexivity|].
  simpl in Hl. injection Hl as Hl. simpl. now rewrite (IH _ Hl).
Qed.

(** The keys of a run of [get] that got a page for each of its scans. *)
Lemma get_pages_run (details : JsVal) (s : St) :
  Forall is_page (scan_replies (trace (get details s))) ->
  let ks := pages_keys (scan_replies (trace (get details s))) in
  let ps := get_replies (trace (get details s)) in
  length ps = length ks /\
  trace (get details s)
    = trace (get_keys details s)
      ++ map (fun xp => Redis (GET (fst xp)) (snd xp)) (combine ks ps) /\
  result (get details s)
    = Resolved (try responses := Promise_all ps in
                try final := group JSON_parse (combine ks responses) [] in
                Resolved (JObj final)).
Proof.
  cbn zeta. rewrite scan_replies_get_keys. intros Hp.
  destruct (get_keys_run _ exec details s) as [_ [Hn [Hr _]]]. cbn zeta in Hn, Hr.
  destruct (Hr Hp) as [props Hk].
  destruct (get_body_run _ _ _ _ Hk) as [ps [Hl [Ht Hres]]].
  assert (Hg : get_replies (trace (get details s)) = ps).
  { rewrite Ht, get_replies_app, (get_replies_none _ _ Hn) by names_differ.
    now apply get_replies_dispatch. }
  rewrite Hg. now repeat split.
Qed.

(** The grouping loop fails at a key whose type names an inherited member:
    the mapping never holds such a name, so the name is read from the
    prototype. *)
Lemma group_inherited (items : list (JsVal * JsVal)) :
  Forall (fun kv => typeof_string (fst kv) = true /\
                    exists x, JSON_parse (snd kv) = Resolved x) items ->
  Exists (fun kv => inherited (before_colon (to_string (fst kv))) = true) items ->
  forall final0,
    sequences final0 ->
    (forall t, inherited t = true -> assoc t final0 = None) ->
    group JSON_parse items final0 = Rejected not_a_function.
Proof.
  induction 1 as [|[key response] items [Hk [x Hx]] _ IH]; intros Hex final0 Hs Hi.
  - inversion Hex.
  - destruct key as [| | | |k| |]; try discriminate Hk. simpl in Hx.
    cbn [group parseType]. unfold obind. rewrite Hx.
    assert (Hnext : forall l, l <> [] -> inherited (before_colon k) = false ->
              group JSON_parse items (set_prop (before_colon k) (JArr l []) final0)
              = Rejected not_a_function).
    { intros l Hl Hn. apply IH.
      - inversion Hex as [? ? Hh|? ? Ht]; subst; [|assumption].
        simpl in Hh. congruence.
      - now apply sequences_set_prop.
      - intros t Ht. rewrite assoc_set_prop_neq; [now apply Hi|].
        intros ->. congruence. }
    destruct (assoc (before_colon k) final0) as [arr|] eqn:Ea.
    + destruct (Hs _ _ Ea) as [l [-> Hl]]. cbn [truthy js_push].
      apply Hnext; [now destruct l|].
      destruct (inherited (before_colon k)) eqn:E; [|reflexivity].
      rewrite (Hi _ E) in Ea. discriminate.
    + destruct (inherited (before_colon k)) eqn:E; [reflexivity|].
      apply Hnext; [discriminate|reflexivity].
Qed.

Lemma fetch_ok_replies (ks : list JsVal) (ps : list Promise) :
  length ps = length ks ->
  Forall (fetch_ok JSON_parse)
         (map (fun xp => Redis (GET (fst xp)) (snd xp)) (combine ks ps)) ->
  Promise_all ps = Resolved (map resolved_value ps) /\
  Forall (fun kv => typeof_string (fst kv) = true /\
                    exists x, JSON_parse (snd kv) = Resolved x)
         (combine ks (map resolved_value ps)).
Proof.
  revert ps. induction ks as [|k ks IH]; intros [|p ps] Hl H; try discriminate.
  - split; [reflexivity|constructor].
  - simpl in Hl. injection Hl as Hl. simpl in H.
    inversion H as [|? ? Hhead H']; subst.
    cbn [fetch_ok fst snd] in Hhead. destruct Hhead as [Hk [v [x [-> Hx]]]].
    destruct (IH _ Hl H') as [Hall Hrest]. split.
    + unfold Promise_all in *. simpl.
      destruct (first_rejected ps); [discriminate|reflexivity].
    + simpl. constructor; [|assumption]. split; [assumption|now exists x].
Qed.

(** X16: when the scans of [get] return pages and every fetched value
    deserializes, a single key whose type is the name of a member every
    object inherits ([constructor], [toString], ...) makes [get] reject with
    a type error. *)
Theorem get_inherited_type (details : JsVal) (s : St) :
  Forall is_page (scan_replies (trace (get details s))) ->
  Forall (fetch_ok JSON_parse) (trace (get details s)) ->
  Exists (fun key => inherited (before_colon (to_string key)) = true)
         (pages_keys (scan_replies (trace (get details s)))) ->
  result (get details s) = Resolved (Rejected not_a_function).
Proof.
  intros Hp Hok Hex.
  destruct (get_pages_run details s Hp) as [Hl [Ht Hr]]. cbn zeta in *.
  rewrite Hr. f_equal.
  rewrite Ht in Hok. apply Forall_app in Hok as [_ Hok].
  destruct (fetch_ok_replies _ _ Hl Hok) as [-> Hitems]. cbn [obind].
  rewrite (group_inherited _ Hitems); [reflexivity| |intros ty v; discriminate|reflexivity].
  revert Hex Hl. generalize (get_replies (trace (get details s))).
  generalize (pages_keys (scan_replies (trace (get details s)))). clear.
  intros ks. induction ks as [|k ks IH]; intros ps Hex Hl; [inversion Hex|].
  destruct ps as [|p ps]; [discriminate|]. simpl in Hl. injection Hl as Hl.
  simpl. inversion Hex as [? ? Hh|? ? Htl]; subst.
  - now left.
  - right. now apply IH.
Qed.

Lemma scan_types_result (types : list JsVal) (search : JsVal) (s : St) :
  exists ps,
    trace (scan_types St exec types search s)
      = map (fun xp => Redis (page_scan (fst xp)) (snd xp))
            (combine (map (pattern_of search) types) ps) /\
    length ps = length types /\
    result (scan_types St exec types search s)
      = (try keyResponses := Promise_all ps in
         try keysArray := omap (fun keyResponse => getp keyResponse "1") keyResponses in
         Resolved (JArr (concat_spread keysArray) [])).
Proof.
  unfold scan_types, rScan.
  destruct (for_each_dispatch _ exec
              (fun type => SCAN "0" (scan_pattern type search) (Some "10000")) types s)
    as [ps [Hr [Ht Hl]]].
  exists ps.
  assert (Hmap : map (fun xp => Redis (SCAN "0" (scan_pattern (fst xp) search) (Some "10000"))
                                      (snd xp)) (combine types ps)
                 = map (fun xp => Redis (page_scan (fst xp)) (snd xp))
                       (combine (map (pattern_of search) types) ps)).
  { clear. revert ps. induction types as [|ty types IH]; intros [|p ps]; simpl;
      try reflexivity.
    now rewrite IH, scan_pattern_spec. }
  rewrite (bind_run_resolved _ _ _ _ _ Hr), Ht, Hmap. cbn [trace result].
  unfold bind, lift, ret. cbn [result store trace].
  destruct (Promise_all ps); cbn [result store trace obind];
    [|now rewrite !app_nil_r].
  destruct (omap _ _); cbn [result store trace]; now rewrite !app_nil_r.
Qed.

Lemma get_keys_rejected (details : JsVal) (s : St) (e : JsError) :
  first_rejected (scan_replies (trace (get_keys details s))) = Some e ->
  result (get_keys details s) = Rejected e.
Proof.
  assert (Hone : forall pattern,
            first_rejected (scan_replies (trace (scan_one St exec pattern s))) = Some e ->
            result (scan_one St exec pattern s) = Rejected e).
  { intros pattern. unfold scan_one, rScan.
    rewrite bind_trace, bind_result, dispatch_run. cbn [result store trace].
    rewrite bind_trace, bind_result. cbn [await lift result store trace].
    destruct (fst (exec _ s)) as [reply|e'] eqn:E.
    - rewrite bind_trace. cbn [lift result store trace].
      destruct (getp reply "1"); cbn [scan_replies flat_map app first_rejected];
        discriminate.
    - cbn [scan_replies flat_map app first_rejected]. now intros [= ->]. }
  assert (Htypes : forall types search,
            first_rejected (scan_replies (trace (scan_types St exec types search s))) = Some e ->
            result (scan_types St exec types search s) = Rejected e).
  { intros types search.
    destruct (scan_types_result types search s) as [ps [Ht [Hl Hr]]].
    rewrite Ht, Hr, scan_replies_dispatch by now rewrite length_map.
    intros He. unfold Promise_all. now rewrite He. }
  unfold get_keys.
  destruct details as [| | | |type|types props|props]; cbn [typeof_string instanceof_Array
    instanceof_Object to_string array_elems]; try discriminate.
  - apply Hone.
  - apply Htypes.
  - destruct (prop (JObj props) "type") as [| | | |type|types props'|props'];
      cbn [typeof_string instanceof_Array array_elems]; try discriminate.
    + apply Hone.
    + apply Htypes.
Qed.

(** X17: [get] passes a store error on as it is: the error of the first
    scan that failed, sending no fetch at all; otherwise the error of the
    first fetch that failed. *)
Theorem get_store_failure (details : JsVal) (s : St) (e : JsError) :
  (first_rejected (scan_replies (trace (get details s))) = Some e ->
   result (get details s) = Resolved (Rejected e) /\
   commands "get" (trace (get details s)) = []) /\
  (Forall is_page (scan_replies (trace (get details s))) ->
   first_rejected (get_replies (trace (get details s))) = Some e ->
   result (get details s) = Resolved (Rejected e)).
Proof.
  split.
  - rewrite scan_replies_get_keys. intros He. apply get_keys_rejected in He.
    destruct (get_keys_run _ exec details s) as [_ [Hn _]]. cbn zeta in Hn.
    split.
    + unfold get, async, get_body. cbn [result].
      now rewrite bind_result, He.
    + rewrite get_trace. cbn zeta. rewrite He, app_nil_r.
      apply (commands_none _ _ _ Hn). names_differ.
  - intros Hp He. destruct (get_pages_run details s Hp) as [_ [_ Hr]]. cbn zeta in Hr.
    rewrite Hr. unfold Promise_all. now rewrite He.
Qed.

(** X18: when the scans of [get] match no key - or there is no scan, as for
    the empty list of types - [get] fetches nothing and resolves with the
    empty mapping. *)
Theorem get_no_keys (details : JsVal) (s : St) :
  Forall is_page (scan_replies (trace (get details s))) ->
  pages_keys (scan_replies (trace (get details s))) = [] ->
  result (get details s) = Resolved (Resolved (JObj [])) /\
  commands "get" (trace (get details s)) = [].
Proof.
  intros Hp Hk. destruct (get_pages_run details s Hp) as [Hl [Ht Hr]]. cbn zeta in *.
  rewrite Hk in *.
  destruct (get_replies (trace (get details s))) as [|p ps] eqn:Eg; [|discriminate Hl].
  split; [exact Hr|].
  destruct (get_keys_run _ exec details s) as [_ [Hn _]]. cbn zeta in Hn.
  rewrite Ht. cbn [combine map]. rewrite app_nil_r.
  apply (commands_none _ _ _ Hn). names_differ.
Qed.

(** *** KeyScheme: the type of a written key *)

Lemma before_colon_app (a b : string) :
  before_colon (a ++ ":" ++ b) = before_colon a.
Proof.
  change (":" ++ b)%string with (String ":"%char b).
  induction a as [|c a IH]; [reflexivity|].
  simpl. destruct (Ascii.eqb c ":"); [reflexivity|]. now rewrite IH.
Qed.

Lemma before_colon_none (a : string) : has_colon a = false -> before_colon a = a.
Proof.
  unfold has_colon. induction a as [|c a IH]; [reflexivity|].
  cbn [existsb list_ascii_of_string before_colon]. intros H.
  apply orb_false_elim in H as [H1 H2].
  rewrite Ascii.eqb_sym in H1. rewrite H1. now rewrite IH.
Qed.

Lemma has_colon_app (a b : string) : has_colon (a ++ ":" ++ b) = true.
Proof.
  change (":" ++ b)%string with (String ":"%char b).
  unfold has_colon. induction a as [|c a IH]; [reflexivity|].
  cbn [append existsb list_ascii_of_string] in *. rewrite IH. apply orb_true_r.
Qed.

(** X6: [get] groups every key [sync] writes under the part of the entry's
    content-type id before its first colon: under the content-type id itself
    when the id has no colon. *)
Theorem sync_keys_group_by_type (r : JsVal) (s : St)
    (k : string) (v : JsVal) (e : option JsVal) (reply : Promise) :
  In (Redis (SET k v e) reply) (trace (sync r s)) ->
  exists q response entry,
    In (Contentful q (Resolved response)) (trace (sync r s)) /\
    In entry (selected (changed_entries response)) /\
    parseType (JStr k) = Resolved (before_colon (to_string (entry_type entry))) /\
    (has_colon (to_string (entry_type entry)) = false ->
     parseType (JStr k) = Resolved (to_string (entry_type entry))).
Proof.
  intros H.
  destruct (sync_set_events _ _ _ _ _ r s _ _ H eq_refl) as [q [response [entry [Hq [He Hc]]]]].
  injection Hc as -> _ _.
  exists q, response, entry. split; [exact Hq|split; [exact He|]].
  assert (Hk : parseType (JStr (key_amended cfg entry))
               = Resolved (before_colon (to_string (entry_type entry)))).
  { unfold key_amended, buildKey. cbn [parseType]. now rewrite before_colon_app. }
  split; [exact Hk|]. intros Hn. rewrite Hk. now rewrite before_colon_none.
Qed.

(** *** The order of the commands *)

Lemma sync_mode_once (r : JsVal) (s : St) : length (trace (sync_mode r s)) <= 1.
Proof.
  unfold sync_mode. destruct (truthy r); [simpl; lia|].
  unfold rHGet. rewrite bind_trace, dispatch_run. cbn [result store trace].
  rewrite bind_trace. cbn [await lift result store trace].
  destruct (fst (exec _ s)); simpl; lia.
Qed.

Lemma sync_flush_once (isInitial : bool) (s : St) :
  length (trace (sync_flush isInitial s)) <= 1.
Proof.
  destruct isInitial; [rewrite sync_flush_initial|]; simpl; lia.
Qed.

(** X14: every run of [sync] sends its commands in the order of the source:
    at most one read of the cursor, at most one fetch, at most one wipe,
    then all the writes, then the deletion scans and deletes, and last at
    most one write of the cursor - no write follows a deletion, and nothing
    is sent to the store between the read of the cursor and the fetch. *)
Theorem sync_command_order (r : JsVal) (s : St) :
  exists t_read t_fetch t_wipe t_writes t_deletes t_cursor,
    trace (sync r s)
      = t_read ++ t_fetch ++ t_wipe ++ t_writes ++ t_deletes ++ t_cursor /\
    (Forall (named ["hget"]) t_read /\ length t_read <= 1) /\
    (Forall (named ["sync"]) t_fetch /\ length t_fetch <= 1) /\
    (Forall (named ["flushdb"]) t_wipe /\ length t_wipe <= 1) /\
    Forall (named ["set"]) t_writes /\
    Forall (named ["scan"; "del"]) t_deletes /\
    (Forall (named ["hset"]) t_cursor /\ length t_cursor <= 1).
Proof.
  rewrite sync_trace. cbn zeta.
  set (c := sync_collect r s).
  set (t_cursor := match result c with
                   | Resolved rp => trace (sync_persist St exec (fst rp) (store c))
                   | Rejected _ => []
                   end).
  assert (Hp : Forall (named ["hset"]) t_cursor /\ length t_cursor <= 1).
  { unfold t_cursor. destruct (result c) as [rp|]; [|split; [constructor|simpl; lia]].
    split; [apply sync_persist_named|]. rewrite sync_persist_run. simpl. lia. }
  destruct Hp as [Hp Hp1]. clearbody t_cursor. unfold c. clear c.
  rewrite sync_collect_trace. cbn zeta.
  pose proof (sync_mode_named St exec r s) as Hm.
  pose proof (sync_mode_once r s) as Hm1.
  exists (trace (sync_mode r s)).
  destruct (result (sync_mode r s)) as [mode|].
  2:{ exists [], [], [], [], t_cursor.
      split; [cbn [app]; now rewrite <- ?app_assoc, ?app_nil_r|].
      repeat split; try assumption; try (simpl; lia); constructor. }
  set (q := sync_query (fst mode) (snd mode)).
  exists [Contentful q (cfSync q)].
  assert (Hq : Forall (named ["sync"]) [Contentful q (cfSync q)]).
  { constructor; [now left|constructor]. }
  destruct (cfSync q) as [response|].
  2:{ exists [], [], [], t_cursor.
      split; [cbn [app]; now rewrite <- ?app_assoc, ?app_nil_r|].
      repeat split; try assumption; try (simpl; lia); constructor. }
  set (fl := sync_flush (fst mode) (store (sync_mode r s))).
  pose proof (sync_flush_named St exec (fst mode) (store (sync_mode r s))) as Hf.
  pose proof (sync_flush_once (fst mode) (store (sync_mode r s))) as Hf1.
  fold fl in Hf, Hf1. exists (trace fl).
  destruct (result fl) as [x|].
  2:{ exists [], [], t_cursor.
      split; [cbn [app]; now rewrite <- ?app_assoc, ?app_nil_r|].
      repeat split; try assumption; try (simpl; lia); constructor. }
  set (w := sync_writes response (store fl)).
  pose proof (sync_writes_named St exec JSON_stringify cfg response (store fl)) as Hw.
  fold w in Hw. exists (trace w).
  exists (match result w with
          | Resolved _ => trace (sync_deletes response (store w))
          | Rejected _ => []
          end), t_cursor.
  split.
  { cbn [app]. repeat (rewrite <- app_assoc; cbn [app]). reflexivity. }
  repeat split; try assumption; try (simpl; lia).
  destruct (result w); [apply sync_deletes_named|constructor].
Qed.

End RunFacts.

(** ** The constructor and the connection *)

Section CtorFacts.

Variable St : Type.
Variable exec : Command -> St -> Promise * St.
Variable Redis_createClient : JsVal -> Outcome unit.
Variable Contentful_createClient : JsVal -> Outcome unit.

Set Default Proof Using "Type".

Local Abbreviation constructor := (constructor St exec Redis_createClient Contentful_createClient).

Lemma js_or_and_database (arg : JsVal) :
  js_or (js_and (prop arg "redis") (prop (prop arg "redis") "database")) (JNum 0)
  = selected_database arg.
Proof.
  unfold selected_database, js_or, js_and.
  destruct (truthy (prop arg "redis")) eqn:E; [reflexivity|]. now rewrite E.
Qed.

Lemma spread_props_falsy (v : JsVal) : truthy v = false -> spread_props v = [].
Proof.
  destruct v as [| |b|n|str|elems props|props]; try reflexivity; try discriminate.
  simpl. intros H. apply negb_false_iff, String.eqb_eq in H. now subst.
Qed.

Lemma redis_options_spec (redis : JsVal) :
  JObj (spread_props
          (js_and redis
             (js_and (prop redis "host")
                (js_and (prop redis "port")
                   (JObj [("host", prop redis "host"); ("port", prop redis "port")])))))
  = if truthy redis && truthy (prop redis "host") && truthy (prop redis "port")
    then JObj [("host", prop redis "host"); ("port", prop redis "port")]
    else JObj [].
Proof.
  unfold js_and.
  destruct (truthy redis) eqn:E1; cbn [andb];
    [|now rewrite (spread_props_falsy _ E1)].
  destruct (truthy (prop redis "host")) eqn:E2; cbn [andb];
    [|now rewrite (spread_props_falsy _ E2)].
  destruct (truthy (prop redis "port")) eqn:E3;
    [reflexivity|now rewrite (spread_props_falsy _ E3)].
Qed.

(** X22: called without [contentful] options, the constructor throws a type
    error - but only after it has created the store client and sent it the
    SELECT command. *)
Theorem constructor_connects_first (arg : JsVal) (s : St) :
  arg <> JUndefined -> arg <> JNull ->
  prop arg "contentful" = JUndefined \/ prop arg "contentful" = JNull ->
  (forall options, Redis_createClient options = Resolved tt) ->
  exists msg p,
    result (constructor arg s) = Rejected (TypeError msg) /\
    trace (constructor arg s) = [Redis (SELECT (selected_database arg)) p].
Proof.
  intros Hu Hn Hc Hok. unfold constructor.
  assert (Hg : getp arg "redis" = Resolved (prop arg "redis"))
    by (destruct arg; try reflexivity; contradiction).
  rewrite bind_result, bind_trace. cbn [lift result store trace app]. rewrite Hg.
  rewrite bind_result, bind_trace. cbn [lift result store trace app]. rewrite Hok.
  rewrite bind_result, bind_trace, dispatch_run. cbn [result store trace].
  rewrite bind_result, bind_trace. cbn [lift result store trace].
  rewrite js_or_and_database.
  destruct Hc as [-> | ->]; cbn [getp app]; eexists _, _; split; reflexivity.
Qed.

(** X23: a construction succeeds only with [contentful] options and when
    both client factories accept their options; it then sent exactly one
    command, the SELECT of [redis.database], or of [0] when [redis] or its
    [database] is missing or falsy, and did not look at the reply; the store
    client was given [host] and [port] only when both are truthy, and
    nothing otherwise; the remote client was given [space], [accessToken]
    and [environment], the last ['master'] when missing or falsy; [locale]
    and [contentTypes] default to ['en-US'] and [[]] when missing or falsy,
    and [identifier] is taken as it is. *)
Theorem constructor_instance (arg : JsVal) (s : St) (inst : Instance) :
  result (constructor arg s) = Resolved inst ->
  let redis := prop arg "redis" in
  let contentful := prop arg "contentful" in
  let select := SELECT (selected_database arg) in
  (contentful <> JUndefined /\ contentful <> JNull) /\
  (Redis_createClient (redis_options inst) = Resolved tt /\
   Contentful_createClient (contentful_options inst) = Resolved tt) /\
  (trace (constructor arg s) = [Redis select (fst (exec select s))] /\
   store (constructor arg s) = snd (exec select s)) /\
  redis_options inst
    = (if truthy redis && truthy (prop redis "host") && truthy (prop redis "port")
       then JObj [("host", prop redis "host"); ("port", prop redis "port")]
       else JObj []) /\
  contentful_options inst
    = JObj [("space", prop contentful "space");
            ("accessToken", prop contentful "accessToken");
            ("environment", if truthy (prop contentful "environment")
                            then prop contentful "environment" else JStr "master")] /\
  this_locale inst
    = (if truthy (prop contentful "locale") then prop contentful "locale" else JStr "en-US") /\
  this_identifier inst = prop contentful "identifier" /\
  this_contentTypes inst
    = (if truthy (prop contentful "contentTypes")
       then prop contentful "contentTypes" else JArr [] []).
Proof.
  unfold constructor. intros H.
  apply bind_resolved in H as [redis [Hr [H [Ht1 Hs1]]]]. rewrite Ht1, Hs1.
  cbn [lift result store trace app] in Hr, H |- *.
  apply getp_resolved in Hr as [-> _].
  apply bind_resolved in H as [u1 [Hu1 [H [Ht2 Hs2]]]]. rewrite Ht2, Hs2.
  cbn [lift result store trace app] in Hu1, H |- *.
  apply bind_resolved in H as [p [Hp [H [Ht3 Hs3]]]]. rewrite Ht3, Hs3.
  rewrite dispatch_run in Hp, H |- *. cbn [result store trace] in Hp, H |- *.
  apply bind_resolved in H as [space [Hsp [H [Ht4 Hs4]]]]. rewrite Ht4, Hs4.
  cbn [lift result store trace app] in Hsp, H |- *.
  apply getp_resolved in Hsp as [-> [Hu Hn]].
  apply bind_resolved in H as [u2 [Hu2 [H [Ht5 Hs5]]]]. rewrite Ht5, Hs5.
  cbn [lift ret result store trace app] in Hu2, H |- *.
  injection H as <-. cbn [redis_options contentful_options this_locale this_identifier
    this_contentTypes].
  destruct u1, u2. rewrite js_or_and_database in *. rewrite redis_options_spec in *.
  repeat split; assumption.
Qed.

(** [setDB] sends one SELECT, of its argument or of [0] when the argument
    is omitted, and returns the promise of the reply; [close] sends one QUIT
    and resolves with [undefined] whatever the reply is. *)
Lemma setDB_close_run (index : JsVal) (s : St) :
  setDB St exec index s
  = mkRun (Resolved (fst (exec (SELECT (database_index index)) s)))
      (snd (exec (SELECT (database_index index)) s))
      [Redis (SELECT (database_index index)) (fst (exec (SELECT (database_index index)) s))] /\
  close St exec s
  = mkRun (Resolved (Resolved JUndefined)) (snd (exec QUIT s))
      [Redis QUIT (fst (exec QUIT s))].
Proof.
  split.
  - unfold setDB. apply dispatch_run.
  - unfold close, async, bind. rewrite dispatch_run. reflexivity.
Qed.

End CtorFacts.

(** ** Further runs against the reference store *)

Module MemRuns.
Import MemRedis MemReading MemStore.

Lemma exec_SCAN (cursor pattern : string) (count : option string) (db : Db) :
  snd (exec (SCAN cursor pattern count) db) = db.
Proof.
  simpl. destruct (parse_index cursor) as [cur|]; destruct count as [n|];
    try destruct (parse_index n) as [[|cnt]|]; reflexivity.
Qed.

Lemma exec_GET_string (key value : string) (db : Db) :
  assoc key db = Some (RString value) ->
  exec (GET (JStr key)) db = (Resolved (JStr value), db).
Proof. simpl. now intros ->. Qed.

Lemma exec_GET_none (key : string) (db : Db) :
  assoc key db = None -> exec (GET (JStr key)) db = (Resolved JNull, db).
Proof. simpl. now intros ->. Qed.

Lemma assoc_remove_key_eq {A : Type} (k : string) (l : list (string * A)) :
  assoc k (remove_key k l) = None.
Proof.
  induction l as [|[k' v] l IH]; simpl; [reflexivity|].
  destruct (String.eqb k k') eqn:E; [exact IH|]. simpl. now rewrite E.
Qed.

Lemma assoc_remove_key_neq {A : Type} (k k0 : string) (l : list (string * A)) :
  k0 <> k -> assoc k0 (remove_key k l) = assoc k0 l.
Proof.
  intros Hne. induction l as [|[k' v] l IH]; simpl; [reflexivity|].
  destruct (String.eqb k k') eqn:E.
  - apply String.eqb_eq in E. subst k'.
    apply String.eqb_neq in Hne. now rewrite Hne.
  - simpl. now rewrite IH.
Qed.

Lemma remove_key_keys {A : Type} (k key : string) (l : list (string * A)) :
  In key (map fst (remove_key k l)) -> In key (map fst l).
Proof.
  induction l as [|[k' v] l IH]; simpl; [trivial|].
  destruct (String.eqb k k'); simpl; tauto.
Qed.

Lemma set_prop_keys_In {A : Type} (k key : string) (v : A) (l : list (string * A)) :
  In key (map fst (set_prop k v l)) -> key = k \/ In key (map fst l).
Proof.
  rewrite set_prop_keys. destruct (existsb _ _); [tauto|].
  rewrite in_app_iff. simpl. intuition.
Qed.

(** *** [get] leaves the store as it is *)

Lemma get_store (JSON_parse : JsVal -> Outcome JsVal) (details : JsVal) (db : Db) :
  store (get Db exec JSON_parse details db) = db.
Proof.
  apply (get_preserves Db exec JSON_parse (fun s => s = db)); [| |reflexivity].
  - intros cursor pattern count s ->. apply exec_SCAN.
  - intros key s ->. apply MemFacts.exec_GET.
Qed.


(** *** The custom store *)

Lemma exec_SET (key : string) (value : JsVal) (expire : option JsVal) (db : Db) :
  (exists e, exec (SET key value expire) db = (Rejected e, db) /\ expire <> None) \/
  exec (SET key value expire) db
    = (ok, set_prop key (RString (to_string value)) db).
Proof.
  destruct expire as [e|]; [|now right]. cbn [exec].
  destruct (parse_index (to_string e)) as [[|n]|]; [left|right; reflexivity|left];
    eexists; (split; [reflexivity|discriminate]).
Qed.

Lemma exec_DEL_string (key : string) (db : Db) :
  exec (DEL (JStr key)) db
  = (Resolved (JNum (if has_key key db then 1 else 0)), remove_key key db).
Proof.
  cbn [exec command_args map to_string nodup fold_left].
  destruct (in_dec string_dec key []) as [[]|_].
  cbn [filter]. now destruct (has_key key db).
Qed.

Lemma exec_DEL_keys (keys : JsVal) (db : Db) (key : string) :
  In key (map fst (snd (exec (DEL keys) db))) -> In key (map fst db).
Proof.
  cbn [exec]. destruct (command_args keys) as [|a args]; [trivial|].
  cbn [snd]. generalize (a :: args). intros l. revert db.
  induction l as [|k l IH]; simpl; intros db H; [exact H|].
  apply IH in H. now apply remove_key_keys in H.
Qed.

Lemma exec_HGET_hget (key field value : string) (db : Db) :
  hget db key field = Some value ->
  exec (HGET key field) db = (Resolved (JStr value), db).
Proof.
  unfold hget. simpl. destruct (assoc key db) as [[v|h]|]; try discriminate.
  now intros ->.
Qed.

Lemma exec_HSET_keys (key field : string) (value : JsVal) (db : Db) (k : string) :
  In k (map fst (snd (exec (HSET key field value) db))) -> k = key \/ In k (map fst db).
Proof.
  simpl. destruct (assoc key db) as [[v|h]|]; simpl; [now right| |];
    apply set_prop_keys_In.
Qed.

Lemma exec_HSET_other (key field : string) (value : JsVal) (db : Db) (k : string) :
  k <> key -> assoc k (snd (exec (HSET key field value) db)) = assoc k db.
Proof.
  intros Hne. simpl. destruct (assoc key db) as [[v|h]|]; simpl; [reflexivity| |];
    now apply assoc_set_prop_neq.
Qed.

Section Custom.

Variable JSON_stringify : JsVal -> JsVal.
Variable JSON_parse : JsVal -> Outcome JsVal.

Lemma setCustom_run (key : string) (value expire : JsVal) (db : Db) :
  let c := SET key (JSON_stringify value) (if truthy expire then Some expire else None) in
  setCustom Db exec JSON_stringify (JStr key) value expire db
  = mkRun (Resolved (fst (exec c db))) (snd (exec c db)) [Redis c (fst (exec c db))].
Proof.
  cbn zeta. unfold setCustom. cbn [typeof_string to_string].
  destruct (truthy expire); apply dispatch_run.
Qed.

Lemma getCustom_run (key : string) (db : Db) :
  getCustom Db exec JSON_parse (JStr key) db
  = mkRun (Resolved (obind (fst (exec (GET (JStr key)) db)) JSON_parse)) db
      [Redis (GET (JStr key)) (fst (exec (GET (JStr key)) db))].
Proof.
  unfold getCustom, getCustom_body, async. cbn [typeof_string].
  unfold bind, await, lift. rewrite dispatch_run. cbn [result store trace].
  rewrite MemFacts.exec_GET.
  destruct (fst (exec (GET (JStr key)) db)); reflexivity.
Qed.

Lemma setCustom_then_get (key : string) (value expire : JsVal) (db : Db) :
  let set := setCustom Db exec JSON_stringify (JStr key) value expire db in
  (truthy expire = false -> result set = Resolved ok) /\
  (forall x, result set = Resolved (Resolved x) ->
     result (getCustom Db exec JSON_parse (JStr key) (store set))
       = Resolved (JSON_parse (JStr (to_string (JSON_stringify value)))) /\
     forall other, other <> key -> assoc other (store set) = assoc other db) /\
  (forall e, result set = Resolved (Rejected e) -> store set = db).
Proof.
  cbn zeta. rewrite setCustom_run. cbn zeta. cbn [result store].
  split; [|split].
  - intros ->. reflexivity.
  - intros x Hx.
    destruct (exec_SET key (JSON_stringify value)
                (if truthy expire then Some expire else None) db) as [[e [He _]]|Hs].
    { rewrite He in Hx. discriminate Hx. }
    rewrite Hs. cbn [snd]. split.
    + rewrite getCustom_run. cbn [result].
      rewrite (exec_GET_string key (to_string (JSON_stringify value)))
        by apply assoc_set_prop_eq.
      reflexivity.
    + intros other Hne. now apply assoc_set_prop_neq.
  - intros e He.
    destruct (exec_SET key (JSON_stringify value)
                (if truthy expire then Some expire else None) db) as [[e' [He' _]]|Hs].
    + now rewrite He'.
    + rewrite Hs in He. discriminate He.
Qed.

Lemma deleteCustom_then_get (key : string) (db : Db) :
  let del := deleteCustom Db exec (JStr key) db in
  result del = Resolved (Resolved (JNum (if has_key key db then 1 else 0))) /\
  result (getCustom Db exec JSON_parse (JStr key) (store del))
    = Resolved (JSON_parse JNull) /\
  forall other, other <> key -> assoc other (store del) = assoc other db.
Proof.
  cbn zeta. unfold deleteCustom. cbn [typeof_string].
  rewrite dispatch_run, exec_DEL_string. cbn [result store fst snd].
  split; [reflexivity|split].
  - rewrite getCustom_run. cbn [result].
    now rewrite (exec_GET_none key) by apply assoc_remove_key_eq.
  - intros other Hne. now apply assoc_remove_key_neq.
Qed.

End Custom.


(** *** [sync] against the reference store *)

Section Sync.

Variable cfSync : JsVal -> Promise.
Variable JSON_stringify : JsVal -> JsVal.
Variable cfg : Config.

Local Abbreviation sync := (sync Db exec cfSync JSON_stringify cfg).
Local Abbreviation sync_collect := (sync_collect Db exec cfSync JSON_stringify cfg).
Local Abbreviation sync_writes := (sync_writes Db exec JSON_stringify cfg).
Local Abbreviation sync_deletes := (sync_deletes Db exec).
Local Abbreviation write_entry := (write_entry Db exec JSON_stringify cfg).
Local Abbreviation delete_entry := (delete_entry Db exec).
Local Abbreviation serialized := (serialized JSON_stringify cfg).
Local Abbreviation written := (written JSON_stringify cfg).
Local Abbreviation selected := (selected cfg).

Lemma write_entry_store (entry : JsVal) (db : Db) (p : Promise) :
  result (write_entry entry db) = Resolved p ->
  store (write_entry entry db)
  = set_prop (key_amended cfg entry) (RString (serialized entry)) db.
Proof.
  rewrite write_entry_run. unfold MemStore.serialized.
  destruct (content_type_id entry); [|discriminate].
  destruct (extract entry (locale cfg)); [|discriminate].
  reflexivity.
Qed.

Lemma for_each_write_store (l : list JsVal) (db : Db) (ps : list Promise) :
  result (for_each write_entry l db) = Resolved ps ->
  store (for_each write_entry l db) = written l db.
Proof.
  revert db ps. induction l as [|entry l IH]; simpl; intros db ps H; [reflexivity|].
  apply bind_resolved in H as [p [Hp [H [_ Hs]]]]. rewrite Hs.
  apply bind_resolved in H as [ps' [Hps [H [_ Hs']]]]. rewrite Hs'.
  cbn [ret store]. rewrite (IH _ _ Hps), (write_entry_store _ _ _ Hp). reflexivity.
Qed.

Lemma sync_writes_store (response : JsVal) (db : Db) (ps : list Promise) :
  result (sync_writes response db) = Resolved ps ->
  store (sync_writes response db) = written (selected (changed_entries response)) db.
Proof.
  unfold sync_writes, changed_entries. intros H.
  apply bind_resolved in H as [entries [He [H [_ Hs]]]]. rewrite Hs.
  simpl in He, H |- *. apply getp_resolved in He as [-> _].
  destruct (truthy _) eqn:El.
  - apply bind_resolved in H as [l [Hl [H [_ Hs']]]]. rewrite Hs'.
    simpl in Hl, H |- *. apply final_entries_resolved in Hl. subst l.
    now apply for_each_write_store in H.
  - now rewrite (falsy_length_elems _ El), selected_nil.
Qed.

(** The deletion loop does nothing when the response lists no deleted
    entry. *)
Lemma sync_deletes_none (response : JsVal) (db : Db) (ds : list Promise) :
  deleted_entries response = [] ->
  result (sync_deletes response db) = Resolved ds ->
  store (sync_deletes response db) = db.
Proof.
  unfold sync_deletes, deleted_entries. intros Hd H.
  apply bind_resolved in H as [deleted [He [H [_ Hs]]]]. rewrite Hs.
  simpl in He, H |- *. apply getp_resolved in He as [-> _].
  destruct (truthy _) eqn:El; [|reflexivity].
  apply bind_resolved in H as [l [Hl [H [_ Hs']]]]. rewrite Hs'.
  simpl in Hl, H |- *.
  apply bind_resolved in H as [pss [Hpss [H [_ Hs'']]]]. rewrite Hs''.
  cbn [ret store].
  destruct (prop response "deletedEntries") as [| | | |str|elems props|props];
    try discriminate Hl.
  - injection Hl as <-. destruct str as [|c str]; [discriminate El|].
    cbn [chars for_each] in Hpss. rewrite bind_result, delete_entry_run in Hpss.
    discriminate Hpss.
  - injection Hl as <-. simpl in Hd. subst elems. reflexivity.
Qed.

Lemma written_lookup (before after : list JsVal) (entry : JsVal) (db : Db) :
  Forall (fun e' => key_amended cfg e' <> key_amended cfg entry) after ->
  assoc (key_amended cfg entry) (written (before ++ entry :: after) db)
  = Some (RString (serialized entry)).
Proof.
  intros H. unfold MemStore.written. rewrite fold_left_app. cbn [fold_left].
  generalize (fold_left
                (fun d e => set_prop (key_amended cfg e) (RString (serialized e)) d)
                before db).
  intros d0.
  assert (E : assoc (key_amended cfg entry)
                (set_prop (key_amended cfg entry) (RString (serialized entry)) d0)
              = Some (RString (serialized entry))) by apply assoc_set_prop_eq.
  revert E. generalize (set_prop (key_amended cfg entry) (RString (serialized entry)) d0).
  induction H as [|e' after Hne _ IH]; intros d E; [exact E|].
  cbn [fold_left]. apply IH. rewrite assoc_set_prop_neq; [exact E|]. congruence.
Qed.

Lemma key_amended_not_cursor (entry : JsVal) : key_amended cfg entry <> "redis-contentful".
Proof.
  intros H. pose proof (has_colon_app (to_string (entry_type entry))
                          (to_string (identifier_amended cfg entry) ++ ":"
                             ++ to_string (entry_id entry))) as Hc.
  unfold key_amended, buildKey in H. rewrite H in Hc. discriminate Hc.
Qed.

(** **** The keys a wiped store is rebuilt with *)

Lemma write_entry_keeps (response entry : JsVal) :
  In entry (selected (changed_entries response)) ->
  preserves (keys_within (rebuilt_key cfg response)) (write_entry entry).
Proof.
  intros Hin db Hdb. rewrite write_entry_run.
  destruct (content_type_id entry); [|exact Hdb].
  destruct (extract entry (locale cfg)); [|exact Hdb].
  cbn [store exec snd]. intros key Hk. apply set_prop_keys_In in Hk as [->|Hk].
  - right. now exists entry.
  - now apply Hdb.
Qed.

Lemma sync_writes_keeps (response : JsVal) :
  preserves (keys_within (rebuilt_key cfg response)) (sync_writes response).
Proof.
  intros db Hdb. unfold sync_writes, changed_entries.
  rewrite bind_store. cbn [lift result store].
  destruct (getp response "entries") as [entries|] eqn:He; [|exact Hdb].
  apply getp_resolved in He as [-> _].
  destruct (truthy _); [|exact Hdb].
  rewrite bind_store. cbn [lift result store].
  destruct (final_entries cfg (prop response "entries")) as [l|] eqn:Hl; [|exact Hdb].
  apply final_entries_resolved in Hl. subst l.
  apply (preserves_for_each Db); [|exact Hdb].
  intros entry Hin. now apply write_entry_keeps.
Qed.

Lemma delete_entry_keeps (K : string -> Prop) (entry : JsVal) :
  preserves (keys_within K) (delete_entry entry).
Proof.
  intros db Hdb. rewrite delete_entry_run. cbn zeta.
  destruct (getp entry "sys") as [sys|]; [|exact Hdb].
  destruct (getp sys "id"); [|exact Hdb].
  unfold suffix_scan. rewrite exec_SCAN.
  destruct (fst (exec (SCAN _ _ _) db)) as [reply|]; [|exact Hdb].
  destruct (getp reply "1"); [|exact Hdb].
  destruct (truthy (match_list reply)); [|exact Hdb].
  cbn [store]. intros key Hk. apply exec_DEL_keys in Hk. now apply Hdb.
Qed.

Lemma sync_deletes_keeps (K : string -> Prop) (response : JsVal) :
  preserves (keys_within K) (sync_deletes response).
Proof.
  unfold sync_deletes.
  apply preserves_bind; [apply preserves_lift|]. intros deleted.
  destruct (truthy _); [|apply preserves_ret].
  apply preserves_bind; [apply preserves_lift|]. intros ds.
  apply preserves_bind; [|intros; apply preserves_ret].
  apply preserves_for_each. intros. apply delete_entry_keeps.
Qed.

Lemma sync_rebuilt (r : JsVal) (db : Db) (p : Promise) :
  In (Redis FLUSHDB p) (trace (sync r db)) ->
  exists response,
    cfSync initial_query = Resolved response /\
    keys_within (rebuilt_key cfg response) (store (sync r db)).
Proof.
  intros H. rewrite sync_trace in H. cbn zeta in H.
  assert (Hc : exists response,
             cfSync initial_query = Resolved response /\
             keys_within (rebuilt_key cfg response) (store (sync_collect r db))).
  { apply in_app_or in H as [H|H].
    2:{ destruct (result (sync_collect r db)) as [rp|]; [|destruct H].
        exfalso; apply (named_In _ _ _ (sync_persist_named _ _ _ _)) in H. not_among H. }
    rewrite sync_collect_trace in H. rewrite sync_collect_store. cbn zeta in *.
    apply in_app_or in H as [H|H].
    { exfalso; apply (named_In _ _ _ (sync_mode_named _ _ _ _)) in H. not_among H. }
    destruct (result (sync_mode Db exec r db)) as [[isInitial token]|];
      [|destruct H].
    destruct H as [H|H]; [discriminate H|]. cbn [fst snd] in *.
    destruct isInitial.
    2:{ destruct (cfSync _); [|destruct H]. cbn [sync_flush ret result trace app] in H.
        apply in_app_or in H as [H|H].
        - exfalso; apply (named_In _ _ _ (sync_writes_named _ _ _ _ _ _)) in H. not_among H.
        - destruct (result (sync_writes _ _)); [|destruct H].
          exfalso; apply (named_In _ _ _ (sync_deletes_named _ _ _ _)) in H. not_among H. }
    change (sync_query true token) with initial_query in *.
    destruct (cfSync initial_query) as [response|]; [|destruct H].
    exists response. split; [reflexivity|].
    rewrite sync_flush_initial. cbn [result store exec fst snd ok].
    assert (H0 : keys_within (rebuilt_key cfg response) []) by (intros key []).
    pose proof (sync_writes_keeps response [] H0) as Hw.
    destruct (result (sync_writes response [])); [|exact Hw].
    now apply sync_deletes_keeps. }
  destruct Hc as [response [Hr Hk]]. exists response. split; [exact Hr|].
  rewrite sync_store. cbn zeta.
  destruct (result (sync_collect r db)) as [rp|]; [|exact Hk].
  intros key Hin. apply exec_HSET_keys in Hin as [->|Hin]; [now left|now apply Hk].
Qed.

Lemma sync_written (r : JsVal) (db : Db) (response : JsVal) (promises : list Promise)
    (before after : list JsVal) (entry : JsVal) :
  result (sync_collect r db) = Resolved (response, promises) ->
  deleted_entries response = [] ->
  selected (changed_entries response) = before ++ entry :: after ->
  Forall (fun e' => key_amended cfg e' <> key_amended cfg entry) after ->
  value_of (store (sync r db)) (key_amended cfg entry)
  = Resolved (JStr (serialized entry)).
Proof.
  intros Hc Hd Hsel Hafter.
  destruct (sync_collect_resolved _ _ _ _ _ _ _ _ _ Hc)
    as [mode [x [writes [deletes [Hm [Hr [Hx [Hw [Hdel [Hp [Hs Ht]]]]]]]]]]].
  cbn zeta in *.
  unfold value_of. rewrite sync_store. cbn zeta. rewrite Hc. cbn [fst].
  erewrite exec_GET_string; [reflexivity|].
  unfold persist_cursor. rewrite exec_HSET_other by apply key_amended_not_cursor.
  rewrite Hs, (sync_deletes_none _ _ _ Hd Hdel), (sync_writes_store _ _ _ Hw), Hsel.
  now apply written_lookup.
Qed.

Lemma sync_persisted (r : JsVal) (db : Db) (response : JsVal) (promises : list Promise)
    (x : JsVal) :
  result (sync_collect r db) = Resolved (response, promises) ->
  fst (exec (persist_cursor response) (store (sync_collect r db))) = Resolved x ->
  hget (store (sync r db)) "redis-contentful" "nextSyncToken"
  = Some (to_string (prop response "nextSyncToken")).
Proof.
  intros Hc Hx. rewrite sync_store. cbn zeta. rewrite Hc. cbn [fst].
  exact (MemFacts.exec_HSET_hget _ _ _ _ _ Hx).
Qed.

End Sync.


(** *** Patterns and keys *)

Lemma glob_plain (c : ascii) (p s : list ascii) :
  plain c = true ->
  glob (c :: p) s = match s with [] => false | x :: s' => Ascii.eqb c x && glob p s' end.
Proof.
  unfold plain. intros H. apply negb_true_iff in H.
  apply orb_false_elim in H as [H H4]. apply orb_false_elim in H as [H H3].
  apply orb_false_elim in H as [H1 H2].
  cbn -[Ascii.eqb]. rewrite H1, H2, H3, H4. reflexivity.
Qed.

Lemma has_colon_cons (c : ascii) (s : string) :
  has_colon (String c s) = false -> Ascii.eqb c ":" = false /\ has_colon s = false.
Proof.
  unfold has_colon. cbn [list_ascii_of_string existsb]. intros H.
  apply orb_false_elim in H as [H1 H2]. rewrite Ascii.eqb_sym. now split.
Qed.

(** A pattern that begins with a literal type matches the keys of that
    type. *)
Lemma glob_type (T T' : string) (p s : list ascii) :
  literal T = true -> has_colon T = false -> has_colon T' = false ->
  glob (list_ascii_of_string T ++ ":"%char :: p) (list_ascii_of_string T' ++ ":"%char :: s)
  = String.eqb T T' && glob p s.
Proof.
  revert T'. induction T as [|c T IH]; intros T' Hl Hc Hc'.
  - cbn [list_ascii_of_string app]. rewrite glob_plain by reflexivity.
    destruct T' as [|x T']; cbn [list_ascii_of_string app String.eqb].
    + reflexivity.
    + apply has_colon_cons in Hc' as [Hx _]. rewrite Ascii.eqb_sym, Hx. reflexivity.
  - unfold literal in Hl. cbn [list_ascii_of_string forallb] in Hl.
    apply andb_prop in Hl as [Hp Hl]. apply has_colon_cons in Hc as [Hcc Hc].
    cbn [list_ascii_of_string app]. rewrite (glob_plain _ _ _ Hp).
    destruct T' as [|x T']; cbn [list_ascii_of_string app String.eqb].
    + rewrite Hcc. reflexivity.
    + apply has_colon_cons in Hc' as [_ Hc'].
      rewrite (IH T' Hl Hc Hc'). now destruct (Ascii.eqb c x).
Qed.

Lemma matches_type (T : string) (cfg : Config) (entry : JsVal) :
  literal T = true -> has_colon T = false ->
  has_colon (to_string (entry_type entry)) = false ->
  matches (T ++ ":*:*") (key_amended cfg entry) = of_type T entry.
Proof.
  intros Hl Hc Hc'. unfold matches, key_amended, buildKey, of_type.
  set (ident := to_string (identifier_amended cfg entry)).
  set (id := to_string (entry_id entry)).
  rewrite (MemFacts.list_ascii_of_string_app T),
          (MemFacts.list_ascii_of_string_app (to_string (entry_type entry))).
  change (list_ascii_of_string ":*:*") with (":"%char :: list_ascii_of_string "*:*").
  change (list_ascii_of_string (":" ++ ident ++ ":" ++ id))
    with (":"%char :: list_ascii_of_string (ident ++ ":" ++ id)).
  rewrite (glob_type T (to_string (entry_type entry))) by assumption.
  rewrite (MemFacts.glob_tail ident id).
  rewrite andb_true_r. apply String.eqb_sym.
Qed.

Lemma glob_no_colon (T : string) (p s : list ascii) :
  literal T = true ->
  existsb (Ascii.eqb ":") s = false ->
  glob (list_ascii_of_string T ++ ":"%char :: p) s = false.
Proof.
  revert s. induction T as [|c T IH]; intros s Hl Hs.
  - cbn [list_ascii_of_string app]. rewrite glob_plain by reflexivity.
    destruct s as [|x s]; [reflexivity|].
    cbn [existsb] in Hs. apply orb_false_elim in Hs as [Hx _]. now rewrite Hx.
  - unfold literal in Hl. cbn [list_ascii_of_string forallb] in Hl.
    apply andb_prop in Hl as [Hp Hl].
    cbn [list_ascii_of_string app]. rewrite (glob_plain _ _ _ Hp).
    destruct s as [|x s]; [reflexivity|].
    cbn [existsb] in Hs. apply orb_false_elim in Hs as [_ Hs].
    rewrite (IH s Hl Hs). apply andb_false_r.
Qed.

Lemma matches_cursor (T : string) :
  literal T = true -> matches (T ++ ":*:*") "redis-contentful" = false.
Proof.
  intros Hl. unfold matches. rewrite MemFacts.list_ascii_of_string_app.
  change (list_ascii_of_string ":*:*") with (":"%char :: list_ascii_of_string "*:*").
  now apply glob_no_colon.
Qed.

Lemma set_prop_absent {A : Type} (k : string) (v : A) (l : list (string * A)) :
  ~ In k (map fst l) -> set_prop k v l = l ++ [(k, v)].
Proof.
  induction l as [|[k' v'] l IH]; simpl; intros H; [reflexivity|].
  destruct (String.eqb k k') eqn:E.
  - apply String.eqb_eq in E. subst. exfalso. apply H. now left.
  - rewrite IH; [reflexivity|]. intros Hin. apply H. now right.
Qed.

Section Back.

Variable JSON_stringify : JsVal -> JsVal.
Variable JSON_parse : JsVal -> Outcome JsVal.
Variable cfg : Config.

Local Abbreviation serialized := (serialized JSON_stringify cfg).
Local Abbreviation written := (written JSON_stringify cfg).
Local Abbreviation read_back := (read_back JSON_stringify JSON_parse cfg).

Local Abbreviation record := (record JSON_stringify cfg).

Lemma written_records (l : list JsVal) (db : Db) :
  NoDup (map (key_amended cfg) l) ->
  (forall entry, In entry l -> ~ In (key_amended cfg entry) (map fst db)) ->
  written l db = db ++ map record l.
Proof.
  revert db. induction l as [|e l IH]; intros db Hnd Hdb.
  - simpl. now rewrite app_nil_r.
  - unfold MemStore.written in *. cbn [fold_left map].
    inversion Hnd as [|? ? Hne Hnd']; subst.
    rewrite set_prop_absent by (apply Hdb; now left).
    rewrite IH; [now rewrite <- app_assoc|assumption|].
    intros e' He'. rewrite map_app, in_app_iff. intros [Hin|[Hin|[]]].
    + apply (Hdb e'); [now right|assumption].
    + simpl in Hin. apply Hne. rewrite Hin. now apply in_map.
Qed.

Lemma assoc_records (l : list JsVal) (tail : Db) (entry : JsVal) :
  NoDup (map (key_amended cfg) l) -> In entry l ->
  assoc (key_amended cfg entry) (map record l ++ tail) = Some (RString (serialized entry)).
Proof.
  induction l as [|e l IH]; intros Hnd Hin; [destruct Hin|].
  inversion Hnd as [|? ? Hne Hnd']; subst.
  cbn [map app]. unfold MemStore.record at 1. cbn [assoc].
  destruct (String.eqb (key_amended cfg entry) (key_amended cfg e)) eqn:E.
  - destruct Hin as [->|Hin]; [reflexivity|].
    apply String.eqb_eq in E. exfalso. apply Hne. rewrite <- E. now apply in_map.
  - destruct Hin as [->|Hin]; [now rewrite String.eqb_refl in E|].
    now apply IH.
Qed.

Lemma group_one_type (T : string) (items : list (JsVal * JsVal)) (vs : list JsVal) :
  Forall2 (fun kv v => parseType (fst kv) = Resolved T /\
                       JSON_parse (snd kv) = Resolved v) items vs ->
  inherited T = false ->
  group JSON_parse items [] = Resolved match vs with
                                       | [] => []
                                       | _ :: _ => [(T, JArr vs [])]
                                       end.
Proof.
  intros H Hi.
  assert (Hacc : forall items vs acc,
            Forall2 (fun kv v => parseType (fst kv) = Resolved T /\
                                 JSON_parse (snd kv) = Resolved v) items vs ->
            group JSON_parse items [(T, JArr acc [])]
            = Resolved [(T, JArr (acc ++ vs) [])]).
  { clear H. intros items0 vs0 acc H. revert acc.
    induction H as [|[key response] v items0 vs0 [Hk Hv] _ IH]; intros acc.
    - simpl. now rewrite app_nil_r.
    - simpl in Hk, Hv. cbn [group]. unfold obind. rewrite Hk, Hv.
      cbn [assoc]. rewrite String.eqb_refl. cbn [truthy js_push set_prop].
      rewrite String.eqb_refl, IH, <- app_assoc. reflexivity. }
  destruct H as [|[key response] v items vs [Hk Hv] H]; [reflexivity|].
  simpl in Hk, Hv. cbn [group]. unfold obind. rewrite Hk, Hv. cbn [assoc]. rewrite Hi.
  cbn [set_prop]. now rewrite (Hacc _ _ [v] H).
Qed.


(** [get] on a type name, against the reference store. *)
Lemma get_string (db : Db) (T : string) :
  let keys := page db (T ++ ":*:*") in
  result (get Db exec JSON_parse (JStr T) db) =
  Resolved
    (obind (Promise_all (map (value_of db) keys)) (fun responses =>
     obind (group JSON_parse (combine (map JStr keys) responses) []) (fun final =>
     Resolved (JObj final)))).
Proof.
  cbn zeta.
  assert (Hk : get_keys Db exec (JStr T) db
               = mkRun (Resolved (JArr (map JStr (page db (T ++ ":*:*"))) [])) db
                   [Redis (page_scan (T ++ ":*:*"))
                          (Resolved (scan_page db 0 hint (T ++ ":*:*")))]).
  { unfold get_keys. cbn [typeof_string to_string].
    unfold scan_one, rScan, bind, await, lift, ret. rewrite dispatch_run.
    change (SCAN "0" (T ++ ":*:*") (Some "10000")) with (page_scan (T ++ ":*:*")).
    rewrite MemFacts.exec_page_scan. cbn [result store trace fst snd].
    destruct (MemFacts.scan_page_first db (T ++ ":*:*")) as [next ->]. reflexivity. }
  unfold get, async, get_body. cbn [result]. f_equal.
  rewrite bind_result, Hk. cbn [result store]. rewrite bind_result.
  cbn [lift as_array result store].
  rewrite bind_result. unfold rGet.
  rewrite for_each_dispatch_readonly by (intros; apply MemFacts.exec_GET).
  cbn [result store]. rewrite map_map.
  rewrite bind_result. cbn [lift result store].
  change (map (fun x => fst (exec (GET (JStr x)) db))) with (map (value_of db)).
  destruct (Promise_all _) as [responses|]; cbn [obind]; [|reflexivity].
  rewrite bind_result. cbn [lift result store].
  destruct (group _ _ _); reflexivity.
Qed.

Variable cfSync : JsVal -> Promise.

Local Abbreviation sync := (sync Db exec cfSync JSON_stringify cfg).
Local Abbreviation sync_collect := (sync_collect Db exec cfSync JSON_stringify cfg).
Local Abbreviation selected := (selected cfg).

(** The store a reset sync leaves, when the response lists no deleted entry
    and no two of its entries have the same key. *)
Lemma sync_reset_store (r : JsVal) (db : Db) (response : JsVal) (promises : list Promise) :
  truthy r = true ->
  result (sync_collect r db) = Resolved (response, promises) ->
  deleted_entries response = [] ->
  NoDup (map (key_amended cfg) (selected (changed_entries response))) ->
  store (sync r db)
  = map record (selected (changed_entries response)) ++ [cursor_of response].
Proof.
  intros Hr Hc Hd Hnd.
  destruct (sync_collect_resolved _ _ _ _ _ _ _ _ _ Hc)
    as [mode [x [writes [deletes [Hm [_ [Hx [Hw [Hdel [_ [Hs _]]]]]]]]]]].
  cbn zeta in *.
  rewrite (sync_mode_reset _ _ _ _ Hr) in *. cbn [result store] in *.
  injection Hm as <-. cbn [fst] in *.
  rewrite sync_flush_initial in *. cbn [result store exec fst snd] in *.
  rewrite sync_store. cbn zeta. rewrite Hc, Hs. cbn [fst].
  rewrite (sync_deletes_none _ _ _ Hd Hdel), (sync_writes_store _ _ _ _ _ Hw).
  rewrite written_records; [|assumption|intros entry _ []]. cbn [app].
  assert (Hn : ~ In "redis-contentful"
                 (map fst (map record (selected (changed_entries response))))).
  { rewrite map_map. intros Hin. apply in_map_iff in Hin as [e [He _]].
    exact (key_amended_not_cursor cfg e He). }
  unfold persist_cursor. cbn [exec].
  rewrite (proj2 (assoc_None_keys _ _) Hn). cbn [snd].
  now rewrite set_prop_absent.
Qed.

Lemma sync_then_get_string (r : JsVal) (db : Db) (response : JsVal)
    (promises : list Promise) (T : string) :
  let entries := selected (changed_entries response) in
  truthy r = true ->
  result (sync_collect r db) = Resolved (response, promises) ->
  deleted_entries response = [] ->
  NoDup (map (key_amended cfg) entries) ->
  length entries < hint ->
  Forall (fun entry => has_colon (to_string (entry_type entry)) = false) entries ->
  Forall (fun entry => of_type T entry = true ->
                       exists v, JSON_parse (JStr (serialized entry)) = Resolved v)
         entries ->
  literal T = true -> has_colon T = false -> inherited T = false ->
  result (get Db exec JSON_parse (JStr T) (store (sync r db)))
  = Resolved (Resolved (one_group T (map read_back (filter (of_type T) entries)))).
Proof.
  cbn zeta. intros Hr Hc Hd Hnd Hlen Hcolon Hparse Hl Hc' Hi.
  rewrite (sync_reset_store _ _ _ _ Hr Hc Hd Hnd), get_string. cbn zeta.
  set (l := selected (changed_entries response)) in *.
  set (db1 := map record l ++ [cursor_of response]).
  assert (Hkeys : page db1 (T ++ ":*:*") = map (key_amended cfg) (filter (of_type T) l)).
  { rewrite MemFacts.page_all
      by (unfold db1; rewrite length_app, length_map; simpl; lia).
    unfold db1. rewrite map_app, map_map, filter_app. cbn [map fst filter cursor_of].
    rewrite (matches_cursor T Hl), app_nil_r.
    clear - Hcolon Hl Hc'. induction l as [|e l IH]; [reflexivity|].
    inversion Hcolon as [|? ? He Hcolon']; subst.
    cbn [map filter]. change (fst (record e)) with (key_amended cfg e).
    rewrite (matches_type T cfg e Hl Hc' He).
    destruct (of_type T e); cbn [map]; now rewrite IH. }
  rewrite Hkeys.
  assert (Hin : forall e, In e (filter (of_type T) l) -> In e l /\ of_type T e = true)
    by (intros e He; now apply filter_In in He).
  assert (Hvals : map (value_of db1) (map (key_amended cfg) (filter (of_type T) l))
                  = map Resolved (map (fun e => JStr (serialized e)) (filter (of_type T) l))).
  { rewrite !map_map. apply map_ext_in. intros e He. apply Hin in He as [He _].
    unfold value_of, db1.
    now rewrite (exec_GET_string _ _ _ (assoc_records l _ e Hnd He)). }
  rewrite Hvals, MemFacts.Promise_all_resolved. cbn [obind].
  rewrite (group_one_type T _ (map read_back (filter (of_type T) l))); [reflexivity| |exact Hi].
  assert (Hp : Forall (fun entry => exists v, JSON_parse (JStr (serialized entry)) = Resolved v)
                      (filter (of_type T) l)).
  { apply Forall_forall. intros e He. apply Hin in He as [He Ht].
    exact (proj1 (Forall_forall _ _) Hparse e He Ht). }
  assert (Ht : Forall (fun e => of_type T e = true) (filter (of_type T) l)).
  { apply Forall_forall. intros e He. now apply Hin in He. }
  clear - Hp Ht Hc'. induction (filter (of_type T) l) as [|e lT IH]; [constructor|].
  inversion Hp as [|? ? [v Hv] Hp']; inversion Ht as [|? ? Hte Ht']; subst.
  cbn [map combine]. constructor; [|now apply IH].
  cbn [fst snd parseType]. split.
  - unfold key_amended, buildKey. rewrite before_colon_app.
    unfold of_type in Hte. apply String.eqb_eq in Hte. rewrite Hte.
    now rewrite before_colon_none.
  - unfold MemStore.read_back. now rewrite Hv.
Qed.

End Back.


Lemma glob_star_no_colon (p s : list ascii) :
  existsb (Ascii.eqb ":") s = false -> glob ("*"%char :: ":"%char :: p) s = false.
Proof.
  induction s as [|x s IH]; intros H; rewrite MemFacts.glob_star,
    (glob_plain ":" p) by reflexivity; [reflexivity|].
  cbn [existsb] in H. apply orb_false_elim in H as [Hx Hs].
  rewrite Hx, (IH Hs). reflexivity.
Qed.

Lemma glob_star_segment (p s1 s2 : list ascii) :
  existsb (Ascii.eqb ":") s1 = false ->
  glob ("*"%char :: ":"%char :: p) (s1 ++ ":"%char :: s2)
  = glob p s2 || glob ("*"%char :: ":"%char :: p) s2.
Proof.
  induction s1 as [|x s1 IH]; intros H; cbn [app]; rewrite MemFacts.glob_star,
    (glob_plain ":" p) by reflexivity.
  - reflexivity.
  - cbn [existsb] in H. apply orb_false_elim in H as [Hx Hs].
    rewrite Hx, (IH Hs). reflexivity.
Qed.

Lemma glob_literal (a b : string) :
  literal a = true ->
  glob (list_ascii_of_string a) (list_ascii_of_string b) = String.eqb a b.
Proof.
  revert b. induction a as [|c a IH]; intros b Hl.
  - now destruct b.
  - unfold literal in Hl. cbn [list_ascii_of_string forallb] in Hl.
    apply andb_prop in Hl as [Hp Hl].
    cbn [list_ascii_of_string]. rewrite (glob_plain _ _ _ Hp).
    destruct b as [|x b]; [reflexivity|].
    cbn [list_ascii_of_string String.eqb]. rewrite (IH b Hl).
    now destruct (Ascii.eqb c x).
Qed.

Lemma matches_search (T S : string) (cfg : Config) (entry : JsVal) :
  literal T = true -> has_colon T = false ->
  literal S = true -> has_colon S = false ->
  has_colon (to_string (entry_type entry)) = false ->
  has_colon (to_string (identifier_amended cfg entry)) = false ->
  matches (T ++ ":" ++ S ++ ":*") (key_amended cfg entry)
  = of_type T entry && String.eqb S (to_string (identifier_amended cfg entry)).
Proof.
  intros Hl Hc Hl' Hc' He Hi. unfold matches, key_amended, buildKey, of_type.
  set (ident := to_string (identifier_amended cfg entry)) in *.
  set (id := to_string (entry_id entry)).
  rewrite (MemFacts.list_ascii_of_string_app T),
          (MemFacts.list_ascii_of_string_app (to_string (entry_type entry))).
  change (list_ascii_of_string (":" ++ S ++ ":*"))
    with (":"%char :: list_ascii_of_string (S ++ ":*")).
  change (list_ascii_of_string (":" ++ ident ++ ":" ++ id))
    with (":"%char :: list_ascii_of_string (ident ++ ":" ++ id)).
  rewrite (glob_type T (to_string (entry_type entry))) by assumption.
  rewrite (MemFacts.list_ascii_of_string_app S), (MemFacts.list_ascii_of_string_app ident).
  change (list_ascii_of_string ":*") with [":"%char; "*"%char].
  change (list_ascii_of_string (":" ++ id)) with (":"%char :: list_ascii_of_string id).
  rewrite (glob_type S ident) by assumption.
  rewrite MemFacts.glob_star_end, andb_true_r.
  now rewrite (String.eqb_sym (to_string (entry_type entry)) T).
Qed.

Lemma matches_suffix (id : string) (cfg : Config) (entry : JsVal) :
  literal id = true ->
  has_colon (to_string (entry_type entry)) = false ->
  has_colon (to_string (identifier_amended cfg entry)) = false ->
  has_colon (to_string (entry_id entry)) = false ->
  matches ("*:*:" ++ id) (key_amended cfg entry) = String.eqb id (to_string (entry_id entry)).
Proof.
  intros Hl He Hi Hid. unfold matches, key_amended, buildKey.
  set (type := to_string (entry_type entry)) in *.
  set (ident := to_string (identifier_amended cfg entry)) in *.
  set (eid := to_string (entry_id entry)) in *.
  change (list_ascii_of_string ("*:*:" ++ id))
    with ("*"%char :: ":"%char :: "*"%char :: ":"%char :: list_ascii_of_string id).
  rewrite (MemFacts.list_ascii_of_string_app type).
  change (list_ascii_of_string (":" ++ ident ++ ":" ++ eid))
    with (":"%char :: list_ascii_of_string (ident ++ ":" ++ eid)).
  rewrite (MemFacts.list_ascii_of_string_app ident).
  change (list_ascii_of_string (":" ++ eid)) with (":"%char :: list_ascii_of_string eid).
  rewrite (glob_star_segment _ (list_ascii_of_string type)) by exact He.
  rewrite !(glob_star_segment _ (list_ascii_of_string ident)) by exact Hi.
  rewrite !(glob_star_no_colon _ (list_ascii_of_string eid)) by exact Hid.
  rewrite (glob_literal id eid Hl). now rewrite !orb_false_r.
Qed.


(** *** What a sync that does not wipe leaves alone *)

Section Frame.

Variable cfSync : JsVal -> Promise.
Variable JSON_stringify : JsVal -> JsVal.
Variable cfg : Config.

Local Abbreviation sync := (sync Db exec cfSync JSON_stringify cfg).
Local Abbreviation sync_collect := (sync_collect Db exec cfSync JSON_stringify cfg).
Local Abbreviation sync_writes := (sync_writes Db exec JSON_stringify cfg).
Local Abbreviation sync_deletes := (sync_deletes Db exec).
Local Abbreviation write_entry := (write_entry Db exec JSON_stringify cfg).
Local Abbreviation delete_entry := (delete_entry Db exec).

Lemma key_amended_colon (entry : JsVal) : has_colon (key_amended cfg entry) = true.
Proof. apply has_colon_app. Qed.

Lemma remove_keys_other {A : Type} (key : string) (l : list string)
    (db : list (string * A)) :
  ~ In key l -> assoc key (fold_left (fun d k => remove_key k d) l db) = assoc key db.
Proof.
  revert db. induction l as [|k l IH]; intros db H; [reflexivity|].
  cbn [fold_left]. rewrite IH by (intros Hin; apply H; now right).
  apply assoc_remove_key_neq. intros ->. apply H. now left.
Qed.

Lemma command_args_strings (l : list string) (props : list (string * JsVal)) :
  command_args (JArr (map JStr l) props) = l.
Proof.
  cbn [command_args]. rewrite map_map. cbn [to_string]. apply map_id.
Qed.

(** The keys a deletion removes are matches of its scan. *)
Lemma exec_DEL_matches (pattern key : string) (db : Db) (reply : JsVal) :
  fst (exec (SCAN "0" pattern None) db) = Resolved reply ->
  matches pattern key = false ->
  assoc key (snd (exec (DEL (match_list reply)) db)) = assoc key db.
Proof.
  intros Hr Hk. injection Hr as <-.
  unfold match_list, scan_page.
  set (l := filter (matches pattern) _).
  change (prop (JArr [JStr _; JArr (map JStr l) []] []) "1") with (JArr (map JStr l) []).
  cbn [exec]. rewrite command_args_strings.
  assert (Hl : ~ In key l).
  { unfold l. intros Hin. apply filter_In in Hin as [_ Hin]. congruence. }
  destruct l as [|k l']; [reflexivity|]. cbn [snd]. now apply remove_keys_other.
Qed.

Lemma write_entry_frame (key : string) (v : option RVal) (entry : JsVal) :
  has_colon key = false ->
  preserves (fun db => assoc key db = v) (write_entry entry).
Proof.
  intros Hk db Hdb. rewrite write_entry_run.
  destruct (content_type_id entry); [|exact Hdb].
  destruct (extract entry (locale cfg)); [|exact Hdb].
  cbn [store exec snd]. rewrite assoc_set_prop_neq; [exact Hdb|].
  intros ->. now rewrite key_amended_colon in Hk.
Qed.

Lemma sync_writes_frame (key : string) (v : option RVal) (response : JsVal) :
  has_colon key = false ->
  preserves (fun db => assoc key db = v) (sync_writes response).
Proof.
  intros Hk. unfold sync_writes.
  apply preserves_bind; [apply preserves_lift|]. intros entries.
  destruct (truthy _); [|apply preserves_ret].
  apply preserves_bind; [apply preserves_lift|]. intros l.
  apply preserves_for_each. intros. now apply write_entry_frame.
Qed.

Lemma delete_entry_frame (key : string) (v : option RVal) (entry : JsVal) :
  has_colon key = false ->
  preserves (fun db => assoc key db = v) (delete_entry entry).
Proof.
  intros Hk db Hdb. rewrite delete_entry_run. cbn zeta.
  destruct (getp entry "sys") as [sys|]; [|exact Hdb].
  destruct (getp sys "id"); [|exact Hdb].
  unfold suffix_scan. rewrite exec_SCAN.
  destruct (fst (exec (SCAN _ _ _) db)) as [reply|] eqn:Hr; [|exact Hdb].
  destruct (getp reply "1"); [|exact Hdb].
  destruct (truthy (match_list reply)); [|exact Hdb].
  cbn [store]. rewrite <- Hdb.
  apply (exec_DEL_matches _ _ _ _ Hr). unfold matches. now apply glob_star_no_colon.
Qed.

Lemma sync_deletes_frame (key : string) (v : option RVal) (response : JsVal) :
  has_colon key = false ->
  preserves (fun db => assoc key db = v) (sync_deletes response).
Proof.
  intros Hk. unfold sync_deletes.
  apply preserves_bind; [apply preserves_lift|]. intros deleted.
  destruct (truthy _); [|apply preserves_ret].
  apply preserves_bind; [apply preserves_lift|]. intros ds.
  apply preserves_bind; [|intros; apply preserves_ret].
  apply preserves_for_each. intros. now apply delete_entry_frame.
Qed.

Lemma sync_mode_store (r : JsVal) (db : Db) : store (sync_mode Db exec r db) = db.
Proof.
  unfold sync_mode. destruct (truthy r); [reflexivity|].
  unfold rHGet. rewrite bind_store, dispatch_run. cbn [result store].
  rewrite bind_store. cbn [await lift result store].
  assert (E : snd (exec (HGET "redis-contentful" "nextSyncToken") db) = db).
  { cbn [exec]. destruct (assoc _ db) as [[x|h]|]; reflexivity. }
  rewrite E. now destruct (fst _).
Qed.

Lemma sync_frame (r : JsVal) (db : Db) (key : string) :
  commands "flushdb" (trace (sync r db)) = [] ->
  has_colon key = false ->
  key <> "redis-contentful" ->
  assoc key (store (sync r db)) = assoc key db.
Proof.
  intros Hf Hk Hc.
  assert (Hcol : assoc key (store (sync_collect r db)) = assoc key db).
  { rewrite sync_trace in Hf. cbn zeta in Hf. rewrite commands_app in Hf.
    apply app_eq_nil in Hf as [Hf _].
    rewrite sync_collect_trace in Hf. rewrite sync_collect_store. cbn zeta in *.
    rewrite sync_mode_store in *.
    destruct (result (sync_mode Db exec r db)) as [[isInitial token]|]; [|reflexivity].
    cbn [fst snd] in *.
    destruct (cfSync _) as [response|]; [|reflexivity].
    destruct isInitial.
    { rewrite commands_app in Hf. apply app_eq_nil in Hf as [_ Hf].
      rewrite sync_flush_initial in Hf. discriminate Hf. }
    cbn [sync_flush ret result store].
    pose proof (sync_writes_frame key (assoc key db) response Hk db eq_refl) as Hw.
    destruct (result (sync_writes response db)); [|exact Hw].
    now apply sync_deletes_frame. }
  rewrite sync_store. cbn zeta.
  destruct (result (sync_collect r db)) as [rp|]; [|exact Hcol].
  unfold persist_cursor. now rewrite exec_HSET_other.
Qed.

End Frame.


End MemRuns.

(** X19: against the reference store, [setCustom] with a falsy [expire]
    succeeds; whenever [setCustom] succeeds, [getCustom] of the same key
    returns the deserialized stored serialization of the value, whatever the
    key held before, and no other key changes; when it fails the store is
    unchanged. *)
Theorem setCustom_getCustom
    (JSON_stringify : JsVal -> JsVal) (JSON_parse : JsVal -> Outcome JsVal)
    (key : string) (value expire : JsVal) (db : MemRedis.Db) :
  let set := setCustom MemRedis.Db MemRedis.exec JSON_stringify (JStr key) value expire db in
  (truthy expire = false -> result set = Resolved (Resolved (JStr "OK"))) /\
  (forall x, result set = Resolved (Resolved x) ->
     result (getCustom MemRedis.Db MemRedis.exec JSON_parse (JStr key) (store set))
       = Resolved (JSON_parse (JStr (to_string (JSON_stringify value)))) /\
     forall other, other <> key -> assoc other (store set) = assoc other db) /\
  (forall e, result set = Resolved (Rejected e) -> store set = db).
Proof. apply MemRuns.setCustom_then_get. Qed.

(** X20: against the reference store, [deleteCustom] resolves with the
    number of keys removed, [1] or [0]; afterwards [getCustom] of the key
    deserializes [null], and no other key changes. *)
Theorem deleteCustom_getCustom
    (JSON_parse : JsVal -> Outcome JsVal) (key : string) (db : MemRedis.Db) :
  let del := deleteCustom MemRedis.Db MemRedis.exec (JStr key) db in
  result del = Resolved (Resolved (JNum (if MemRedis.has_key key db then 1 else 0))) /\
  result (getCustom MemRedis.Db MemRedis.exec JSON_parse (JStr key) (store del))
    = Resolved (JSON_parse JNull) /\
  forall other, other <> key -> assoc other (store del) = assoc other db.
Proof. apply MemRuns.deleteCustom_then_get. Qed.

(** X11: after a run of [sync] that persisted the cursor of its response,
    the next [sync] without reset reads that cursor back, passes it to the
    fetch, and does not wipe the store (the cursor as the store holds it: a
    string, and not the empty one). *)
Theorem sync_resumes_from_cursor
    (cfSync cfSync' : JsVal -> Promise) (JSON_stringify : JsVal -> JsVal) (cfg : Config)
    (r r' : JsVal) (db : MemRedis.Db) (response : JsVal) (promises : list Promise)
    (x : JsVal) :
  let collect := sync_collect MemRedis.Db MemRedis.exec cfSync JSON_stringify cfg r db in
  let first := sync MemRedis.Db MemRedis.exec cfSync JSON_stringify cfg r db in
  let token := JStr (to_string (prop response "nextSyncToken")) in
  result collect = Resolved (response, promises) ->
  fst (MemRedis.exec (persist_cursor response) (store collect)) = Resolved x ->
  truthy r' = false ->
  truthy token = true ->
  exists rest,
    trace (sync MemRedis.Db MemRedis.exec cfSync' JSON_stringify cfg r' (store first))
      = Redis read_cursor (Resolved token)
        :: Contentful (incremental_query token) (cfSync' (incremental_query token))
        :: rest /\
    commands "flushdb" rest = [].
Proof.
  cbn zeta. intros Hc Hx Hr Ht.
  apply sync_incremental; [exact Hr| |exact Ht].
  unfold read_cursor.
  now rewrite (MemRuns.exec_HGET_hget _ _ _ _ (MemRuns.sync_persisted _ _ _ _ _ _ _ _ Hc Hx)).
Qed.

(** X12: a run of [sync] that wiped the reference store leaves in it
    nothing but the cursor and keys of the selected entries of the response
    it fetched: nothing the store held before survives. *)
Theorem sync_reset_rebuilds
    (cfSync : JsVal -> Promise) (JSON_stringify : JsVal -> JsVal) (cfg : Config)
    (r : JsVal) (db : MemRedis.Db) (p : Promise) :
  let run := sync MemRedis.Db MemRedis.exec cfSync JSON_stringify cfg r db in
  In (Redis FLUSHDB p) (trace run) ->
  exists response,
    cfSync initial_query = Resolved response /\
    MemStore.keys_within (MemStore.rebuilt_key cfg response) (store run).
Proof. cbn zeta. apply MemRuns.sync_rebuilt. Qed.

(** X13: after a run of [sync] that reached the persisting of the cursor,
    with a response that lists no deleted entry, the reference store holds
    under the key of each selected entry the serialized flattened entry -
    the last one in the response, when several entries have the same key. *)
Theorem sync_lookup_written
    (cfSync : JsVal -> Promise) (JSON_stringify : JsVal -> JsVal) (cfg : Config)
    (r : JsVal) (db : MemRedis.Db) (response : JsVal) (promises : list Promise)
    (before after : list JsVal) (entry : JsVal) :
  let run := sync MemRedis.Db MemRedis.exec cfSync JSON_stringify cfg r db in
  result (sync_collect MemRedis.Db MemRedis.exec cfSync JSON_stringify cfg r db)
    = Resolved (response, promises) ->
  deleted_entries response = [] ->
  selected cfg (changed_entries response) = before ++ entry :: after ->
  Forall (fun e' => key_amended cfg e' <> key_amended cfg entry) after ->
  MemReading.value_of (store run) (key_amended cfg entry)
  = Resolved (JStr (MemStore.serialized JSON_stringify cfg entry)).
Proof. cbn zeta. apply MemRuns.sync_written. Qed.

(** X21: the custom store and the cursor share one keyspace.  After
    [setCustom('redis-contentful', ...)] an incremental [sync] fails at the
    read of the cursor and fetches nothing; after
    [deleteCustom('redis-contentful')] the next [sync] is an initial one,
    which wipes the store; and while the cursor is persisted,
    [getCustom('redis-contentful')] is rejected by the store. *)
Theorem custom_store_cursor_key
    (cfSync : JsVal -> Promise) (JSON_stringify : JsVal -> JsVal)
    (JSON_parse : JsVal -> Outcome JsVal) (cfg : Config) (r : JsVal) (db : MemRedis.Db) :
  truthy r = false ->
  (forall value expire x,
     let set := setCustom MemRedis.Db MemRedis.exec JSON_stringify
                  (JStr "redis-contentful") value expire db in
     result set = Resolved (Resolved x) ->
     sync MemRedis.Db MemRedis.exec cfSync JSON_stringify cfg r (store set)
     = mkRun (Resolved (Rejected (Error_ (error_to_string MemRedis.wrongtype))))
         (store set) [Redis read_cursor (Rejected MemRedis.wrongtype)]) /\
  (let del := deleteCustom MemRedis.Db MemRedis.exec (JStr "redis-contentful") db in
   exists rest,
     trace (sync MemRedis.Db MemRedis.exec cfSync JSON_stringify cfg r (store del))
       = Redis read_cursor (Resolved JNull)
         :: Contentful initial_query (cfSync initial_query) :: rest /\
     wipe_first (cfSync initial_query) rest) /\
  (forall token,
     MemRedis.hget db "redis-contentful" "nextSyncToken" = Some token ->
     result (getCustom MemRedis.Db MemRedis.exec JSON_parse (JStr "redis-contentful") db)
     = Resolved (Rejected MemRedis.wrongtype)).
Proof.
  intros Hr. split; [|split].
  - intros value expire x. cbn zeta. rewrite MemRuns.setCustom_run. cbn zeta.
    cbn [result store]. intros Hx.
    destruct (MemRuns.exec_SET "redis-contentful" (JSON_stringify value)
                (if truthy expire then Some expire else None) db) as [[e [He _]]|Hs].
    { rewrite He in Hx. discriminate Hx. }
    rewrite Hs. cbn [snd].
    rewrite (sync_read_failure _ _ _ _ _ r _ MemRedis.wrongtype Hr).
    + f_equal. unfold read_cursor. cbn [MemRedis.exec].
      now rewrite assoc_set_prop_eq.
    + unfold read_cursor. cbn [MemRedis.exec]. now rewrite assoc_set_prop_eq.
  - cbn zeta. unfold deleteCustom. cbn [typeof_string].
    rewrite dispatch_run, MemRuns.exec_DEL_string. cbn [store snd].
    assert (Hg : MemRedis.exec read_cursor (MemRedis.remove_key "redis-contentful" db)
                 = (Resolved JNull, MemRedis.remove_key "redis-contentful" db)).
    { unfold read_cursor. cbn [MemRedis.exec].
      now rewrite MemRuns.assoc_remove_key_eq. }
    destruct (initial_wipe_first _ MemRedis.exec cfSync JSON_stringify cfg r
                (MemRedis.remove_key "redis-contentful" db) (true, JNull))
      as [rest [Hrest Hw]].
    + rewrite (sync_mode_read _ _ _ _ JNull Hr); [reflexivity|now rewrite Hg].
    + reflexivity.
    + rewrite (sync_mode_read _ _ _ _ JNull Hr) in Hrest by now rewrite Hg.
      now exists rest.
  - intros token Ht. rewrite MemRuns.getCustom_run. cbn [result].
    unfold MemRedis.hget in Ht. cbn [MemRedis.exec to_string].
    destruct (assoc "redis-contentful" db) as [[v|h]|]; try discriminate Ht.
    reflexivity.
Qed.

(** X15: [get] only reads: every command it sends is a SCAN or a GET, and
    it leaves the reference store exactly as it found it. *)
Theorem get_read_only :
  (forall (St : Type) (exec : Command -> St -> Promise * St)
          (JSON_parse : JsVal -> Outcome JsVal) (details : JsVal) (s : St),
     Forall (named ["scan"; "get"]) (trace (get St exec JSON_parse details s))) /\
  (forall (JSON_parse : JsVal -> Outcome JsVal) (details : JsVal) (db : MemRedis.Db),
     store (get MemRedis.Db MemRedis.exec JSON_parse details db) = db).
Proof.
  split.
  - intros. apply get_within.
  - intros. apply MemRuns.get_store.
Qed.

(** X26: sync, then get.  After a reset [sync] of a response that lists no
    deleted entry and whose selected entries have distinct keys and fit in
    one scan page, [get(type)] returns the one group [type] with the stored
    entries of that content type, deserialized, in the order of the
    response - and the empty mapping when there is none.  The type is a
    plain name: no glob character, no colon, not the name of an inherited
    member; the content-type ids have no colon. *)
Theorem sync_then_get
    (cfSync : JsVal -> Promise) (JSON_stringify : JsVal -> JsVal)
    (JSON_parse : JsVal -> Outcome JsVal) (cfg : Config)
    (r : JsVal) (db : MemRedis.Db) (response : JsVal) (promises : list Promise)
    (type : string) :
  let entries := selected cfg (changed_entries response) in
  let run := sync MemRedis.Db MemRedis.exec cfSync JSON_stringify cfg r db in
  truthy r = true ->
  result (sync_collect MemRedis.Db MemRedis.exec cfSync JSON_stringify cfg r db)
    = Resolved (response, promises) ->
  deleted_entries response = [] ->
  NoDup (map (key_amended cfg) entries) ->
  length entries < MemReading.hint ->
  Forall (fun entry => has_colon (to_string (entry_type entry)) = false) entries ->
  Forall (fun entry =>
            MemStore.of_type type entry = true ->
            exists v, JSON_parse (JStr (MemStore.serialized JSON_stringify cfg entry))
                      = Resolved v)
         entries ->
  MemStore.literal type = true -> has_colon type = false -> inherited type = false ->
  result (get MemRedis.Db MemRedis.exec JSON_parse (JStr type) (store run))
  = Resolved (Resolved
      (MemStore.one_group type
         (map (MemStore.read_back JSON_stringify JSON_parse cfg)
              (filter (MemStore.of_type type) entries)))).
Proof. cbn zeta. intros. eapply MemRuns.sync_then_get_string; eassumption. Qed.

(** X27: the pattern [get] builds for a type and a search term selects,
    among the keys [sync] writes, exactly those of the entries of that type
    whose identifier value is the search term; without a search term, and
    for a type given as a string, exactly those of the entries of that
    type.  Type and term are plain, non-empty and without colon, as are the
    content-type id and the identifier value of the entry. *)
Theorem get_pattern_selects (cfg : Config) (type search : string) (entry : JsVal) :
  MemStore.literal type = true -> has_colon type = false -> type <> "" ->
  MemStore.literal search = true -> has_colon search = false -> search <> "" ->
  has_colon (to_string (entry_type entry)) = false ->
  has_colon (to_string (identifier_amended cfg entry)) = false ->
  MemRedis.matches (scan_pattern (JStr type) (JStr search)) (key_amended cfg entry)
    = MemStore.of_type type entry
      && String.eqb search (to_string (identifier_amended cfg entry)) /\
  MemRedis.matches (scan_pattern (JStr type) JUndefined) (key_amended cfg entry)
    = MemStore.of_type type entry /\
  MemRedis.matches (type ++ ":*:*") (key_amended cfg entry) = MemStore.of_type type entry.
Proof.
  intros Hl Hc Hn Hl' Hc' Hn' He Hi.
  assert (Ht : truthy (JStr type) = true)
    by (simpl; now apply negb_true_iff, String.eqb_neq).
  assert (Hs : truthy (JStr search) = true)
    by (simpl; now apply negb_true_iff, String.eqb_neq).
  unfold scan_pattern, js_or. rewrite Ht, Hs. cbn [truthy to_string].
  split; [|split].
  - now apply MemRuns.matches_search.
  - now apply MemRuns.matches_type.
  - now apply MemRuns.matches_type.
Qed.

(** X28: the pattern the deletion loop scans with for a deleted entry
    selects, among the keys [sync] writes, exactly those of the entries
    with the id of the deleted entry (the id is plain; the content-type id,
    the identifier value and the id of the stored entry have no colon). *)
Theorem delete_pattern_selects (cfg : Config) (deleted entry : JsVal) :
  MemStore.literal (to_string (entry_id deleted)) = true ->
  has_colon (to_string (entry_type entry)) = false ->
  has_colon (to_string (identifier_amended cfg entry)) = false ->
  has_colon (to_string (entry_id entry)) = false ->
  suffix_scan deleted = SCAN "0" ("*:*:" ++ to_string (entry_id deleted)) None /\
  MemRedis.matches ("*:*:" ++ to_string (entry_id deleted)) (key_amended cfg entry)
    = String.eqb (to_string (entry_id deleted)) (to_string (entry_id entry)).
Proof.
  intros Hl He Hi Hid. split; [reflexivity|]. now apply MemRuns.matches_suffix.
Qed.

(** X24: a run of [sync] that does not wipe the reference store leaves every
    key that has no colon, the cursor key apart, as it was: the entries are
    written under keys with colons and the deletion patterns match no other
    keys, so that custom values under such keys outlive the syncs without
    reset. *)
Theorem sync_keeps_plain_keys
    (cfSync : JsVal -> Promise) (JSON_stringify : JsVal -> JsVal) (cfg : Config)
    (r : JsVal) (db : MemRedis.Db) (key : string) :
  let run := sync MemRedis.Db MemRedis.exec cfSync JSON_stringify cfg r db in
  commands "flushdb" (trace run) = [] ->
  has_colon key = false ->
  key <> "redis-contentful" ->
  assoc key (store run) = assoc key db.
Proof. cbn zeta. apply MemRuns.sync_frame. Qed.

(** * Further concrete runs *)

Lemma extract_array_field_witness :
  exists ys,
    prop (resolved_value (extract Article.article "en-US")) "tags" = JArr ys [] /\
    Forall2 (fun innerData y =>
               extract innerData "en-US" = Resolved y /\
               (is_entry innerData = false ->
                y = if typeof_string innerData || typeof_number innerData
                    then innerData else JUndefined))
            [JStr "a"; JNum 1; JBool true; Article.author1] ys.
Proof.
  apply (extract_array_field Article.article "en-US" "tags"
           (resolved_value (extract Article.article "en-US")));
    [split; [reflexivity|simpl; tauto]|discriminate|reflexivity|reflexivity].
Defined.

Lemma extract_nested_entry_witness :
  extract Article.author1 "en-US"
  = Resolved (prop (resolved_value (extract Article.article "en-US")) "author").
Proof.
  apply (extract_nested_entry Article.article "en-US" "author"
           (resolved_value (extract Article.article "en-US")));
    [split; [reflexivity|simpl; tauto]|discriminate|reflexivity|reflexivity
    |reflexivity].
Defined.

Lemma extract_system_fields_witness :
  prop (resolved_value (extract Article.article "en-US")) "type" = JStr "article" /\
  Resolved (JStr "custom")
  = Resolved (prop (resolved_value (extract Article.article "en-US")) "id").
Proof.
  destruct (extract_system_fields Article.article "en-US"
              (resolved_value (extract Article.article "en-US")) eq_refl eq_refl)
    as [[_ [Hty _]] Hfield].
  split.
  - apply Hty. simpl. intros H. not_among H.
  - apply (Hfield "id"); simpl; tauto.
Defined.

Lemma extract_keys_witness :
  exists props,
    resolved_value (extract Article.proto_entry "en-US") = JObj props /\
    NoDup (map fst props) /\
    forall k, In k (map fst props) <->
              In k ["id"; "type"; "createdAt"; "updatedAt"] \/
              (In k ["title"; "__proto__"] /\ k <> "__proto__").
Proof.
  apply (extract_keys Article.proto_entry "en-US"
           (resolved_value (extract Article.proto_entry "en-US")));
    reflexivity.
Defined.

Lemma extract_errors_witness :
  exists e, extract Article.no_sys "en-US" = Rejected e.
Proof.
  apply (proj2 (extract_errors Article.no_sys "en-US")).
  - reflexivity.
  - left. reflexivity.
Defined.

Lemma sync_keys_group_by_type_witness :
  exists q response entry,
    In (Contentful q (Resolved response)) (trace Sample.run1) /\
    In entry (selected Sample.cfg (changed_entries response)) /\
    parseType (JStr "post:Hi:E1")
      = Resolved (before_colon (to_string (entry_type entry))) /\
    (has_colon (to_string (entry_type entry)) = false ->
     parseType (JStr "post:Hi:E1") = Resolved (to_string (entry_type entry))).
Proof.
  apply (sync_keys_group_by_type MemRedis.Db MemRedis.exec (Sample.remote Sample.response1)
           Sample.stringify Sample.cfg JUndefined Sample.db_empty
           "post:Hi:E1" (JStr "[object Object]") None (Resolved (JStr "OK"))).
  vm_compute. tauto.
Defined.

Lemma sync_resolved_no_failure_witness :
  sync_complete = sync_complete /\
  Forall succeeded (trace Article.run2) /\
  exists q response t x,
    Sample.remote Article.response2 q = Resolved response /\
    In (Contentful q (Resolved response)) t /\
    trace Article.run2 = t ++ [Redis (persist_cursor response) (Resolved x)].
Proof.
  apply (sync_resolved_no_failure MemRedis.Db MemRedis.exec (Sample.remote Article.response2)
           Sample.stringify Sample.cfg (JBool true) Sample.db_entries sync_complete).
  reflexivity.
Defined.

Lemma sync_failure_before_cursor_witness :
  exists msg,
    result (sync MemRedis.Db MemRedis.exec (Sample.remote Article.response_bad)
              Sample.stringify Sample.cfg JUndefined Sample.db_empty)
      = Resolved (Rejected (Error_ (error_to_string (TypeError msg)))) /\
    commands "hset"
      (trace (sync MemRedis.Db MemRedis.exec (Sample.remote Article.response_bad)
                Sample.stringify Sample.cfg JUndefined Sample.db_empty)) = [].
Proof.
  eexists.
  apply (sync_failure_before_cursor MemRedis.Db MemRedis.exec
           (Sample.remote Article.response_bad) Sample.stringify Sample.cfg
           JUndefined Sample.db_empty).
  reflexivity.
Defined.

Lemma sync_fails_before_writing_witness :
  sync MemRedis.Db MemRedis.exec (Sample.remote Sample.response1) Sample.stringify
       Sample.cfg JUndefined Article.db_string_cursor
    = mkRun (Resolved (Rejected (Error_ (error_to_string MemRedis.wrongtype))))
        Article.db_string_cursor [Redis read_cursor (Rejected MemRedis.wrongtype)] /\
  sync MemRedis.Db MemRedis.exec Article.offline Sample.stringify Sample.cfg JUndefined
       (Sample.db_cursor "tok0")
    = mkRun (Resolved (Rejected (Error_ "Error: offline"))) (Sample.db_cursor "tok0")
        [Redis read_cursor (Resolved (JStr "tok0"));
         Contentful (incremental_query (JStr "tok0")) (Rejected (RemoteError "offline"))].
Proof.
  split.
  - apply (proj1 (sync_fails_before_writing MemRedis.Db MemRedis.exec
                    (Sample.remote Sample.response1) Sample.stringify Sample.cfg JUndefined
                    Article.db_string_cursor MemRedis.wrongtype));
      reflexivity.
  - apply (proj2 (sync_fails_before_writing MemRedis.Db MemRedis.exec
                    Article.offline Sample.stringify Sample.cfg JUndefined
                    (Sample.db_cursor "tok0") (RemoteError "offline"))
             (false, JStr "tok0"));
      reflexivity.
Defined.

Lemma get_inherited_type_witness :
  result (get MemRedis.Db MemRedis.exec Sample.parse (JStr "constructor") Article.db_inherited)
  = Resolved (Rejected not_a_function).
Proof.
  apply (get_inherited_type MemRedis.Db MemRedis.exec Sample.parse
           (JStr "constructor") Article.db_inherited).
  - vm_compute. repeat constructor. eexists. split; reflexivity.
  - vm_compute. repeat constructor. eexists _, _. split; reflexivity.
  - vm_compute. constructor. reflexivity.
Defined.

Lemma get_store_failure_witness :
  (result (get unit Article.down Sample.parse (JStr "post") tt)
     = Resolved (Rejected (ReplyError "connection lost")) /\
   commands "get" (trace (get unit Article.down Sample.parse (JStr "post") tt)) = []) /\
  result (get MemRedis.Db MemRedis.exec Sample.parse (JStr "post") Article.db_hash_entry)
    = Resolved (Rejected MemRedis.wrongtype).
Proof.
  split.
  - apply (proj1 (get_store_failure unit Article.down Sample.parse (JStr "post") tt
                    (ReplyError "connection lost"))).
    reflexivity.
  - apply (proj2 (get_store_failure MemRedis.Db MemRedis.exec Sample.parse (JStr "post")
                    Article.db_hash_entry MemRedis.wrongtype)).
    + vm_compute. repeat constructor. eexists. split; reflexivity.
    + reflexivity.
Defined.

Lemma get_no_keys_witness :
  result (get MemRedis.Db MemRedis.exec Sample.parse (JStr "page") Sample.db_entries)
    = Resolved (Resolved (JObj [])) /\
  commands "get"
    (trace (get MemRedis.Db MemRedis.exec Sample.parse (JStr "page") Sample.db_entries)) = [].
Proof.
  apply (get_no_keys MemRedis.Db MemRedis.exec Sample.parse (JStr "page") Sample.db_entries).
  - vm_compute. repeat constructor. eexists. split; reflexivity.
  - reflexivity.
Defined.

Lemma constructor_connects_first_witness :
  exists msg p,
    result (constructor unit Article.down Article.created Article.created
              Article.redis_only tt) = Rejected (TypeError msg) /\
    trace (constructor unit Article.down Article.created Article.created
             Article.redis_only tt) = [Redis (SELECT (JNum 2)) p].
Proof.
  apply (constructor_connects_first unit Article.down Article.created Article.created
           Article.redis_only tt).
  - discriminate.
  - discriminate.
  - left. reflexivity.
  - reflexivity.
Defined.

Lemma constructor_instance_witness :
  trace (constructor MemRedis.Db MemRedis.exec Article.created Article.created
           Article.options_full Sample.db_empty)
  = [Redis (SELECT (JNum 0)) (Resolved (JStr "OK"))] /\
  redis_options (mkInstance (JObj [("host", JStr "cache"); ("port", JNum 6380)])
                   (JObj [("space", JStr "sp"); ("accessToken", JStr "tk");
                          ("environment", JStr "master")])
                   (JStr "en-US") (JStr "title") (JArr [] []))
    = JObj [("host", JStr "cache"); ("port", JNum 6380)].
Proof.
  destruct (constructor_instance MemRedis.Db MemRedis.exec Article.created Article.created
              Article.options_full Sample.db_empty
              (mkInstance (JObj [("host", JStr "cache"); ("port", JNum 6380)])
                 (JObj [("space", JStr "sp"); ("accessToken", JStr "tk");
                        ("environment", JStr "master")])
                 (JStr "en-US") (JStr "title") (JArr [] [])) eq_refl)
    as [_ [_ [[Ht _] [Ho _]]]].
  split; [exact Ht|exact Ho].
Defined.

Lemma sync_resumes_from_cursor_witness :
  exists rest,
    trace (sync MemRedis.Db MemRedis.exec Article.offline Sample.stringify Sample.cfg
             JUndefined (store Sample.run1))
      = Redis read_cursor (Resolved (JStr "tok1"))
        :: Contentful (incremental_query (JStr "tok1"))
                      (Article.offline (incremental_query (JStr "tok1")))
        :: rest /\
    commands "flushdb" rest = [].
Proof.
  apply (sync_resumes_from_cursor (Sample.remote Sample.response1) Article.offline
           Sample.stringify Sample.cfg JUndefined JUndefined Sample.db_empty
           Sample.response1 [Resolved (JStr "OK"); Rejected Sample.del_error] (JNum 1));
    reflexivity.
Defined.

Lemma sync_reset_rebuilds_witness :
  exists response,
    Sample.remote Article.response2 initial_query = Resolved response /\
    MemStore.keys_within (MemStore.rebuilt_key Sample.cfg response) (store Article.run2).
Proof.
  apply (sync_reset_rebuilds (Sample.remote Article.response2) Sample.stringify Sample.cfg
           (JBool true) Sample.db_entries (Resolved (JStr "OK"))).
  vm_compute. tauto.
Defined.

Lemma sync_lookup_written_witness :
  MemReading.value_of (store Article.run2) "post:Hi:E1"
  = Resolved (JStr (MemStore.serialized Sample.stringify Sample.cfg Sample.post1)).
Proof.
  apply (sync_lookup_written (Sample.remote Article.response2) Sample.stringify Sample.cfg
           (JBool true) Sample.db_entries Article.response2 [Resolved (JStr "OK")]
           [] [] Sample.post1).
  - reflexivity.
  - reflexivity.
  - reflexivity.
  - constructor.
Defined.

Lemma setCustom_getCustom_witness :
  result (setCustom MemRedis.Db MemRedis.exec Sample.stringify (JStr "greeting")
            (JStr "hello") (JNum 0) Sample.db_entries)
    = Resolved (Resolved (JStr "OK")) /\
  result (getCustom MemRedis.Db MemRedis.exec Sample.parse (JStr "greeting")
            (store (setCustom MemRedis.Db MemRedis.exec Sample.stringify (JStr "greeting")
                      (JStr "hello") (JNum 0) Sample.db_entries)))
    = Resolved (Resolved (JStr "hello")).
Proof.
  destruct (setCustom_getCustom Sample.stringify Sample.parse "greeting" (JStr "hello")
              (JNum 0) Sample.db_entries) as [Hok [Hget _]].
  split.
  - apply Hok. reflexivity.
  - apply (Hget (JStr "OK")). reflexivity.
Defined.

Lemma deleteCustom_getCustom_witness :
  result (deleteCustom MemRedis.Db MemRedis.exec (JStr "post:Hi:E1") Sample.db_entries)
    = Resolved (Resolved (JNum 1)) /\
  assoc "post:Yo:E4"
    (store (deleteCustom MemRedis.Db MemRedis.exec (JStr "post:Hi:E1") Sample.db_entries))
    = assoc "post:Yo:E4" Sample.db_entries.
Proof.
  destruct (deleteCustom_getCustom Sample.parse "post:Hi:E1" Sample.db_entries)
    as [Hdel [_ Hother]].
  split.
  - exact Hdel.
  - apply Hother. discriminate.
Defined.

Lemma custom_store_cursor_key_witness :
  (exists rest,
     trace (sync MemRedis.Db MemRedis.exec (Sample.remote Sample.response1)
              Sample.stringify Sample.cfg JUndefined
              (store (deleteCustom MemRedis.Db MemRedis.exec (JStr "redis-contentful")
                        (Sample.db_cursor "tok0"))))
       = Redis read_cursor (Resolved JNull)
         :: Contentful initial_query (Sample.remote Sample.response1 initial_query) :: rest /\
     wipe_first (Sample.remote Sample.response1 initial_query) rest) /\
  result (getCustom MemRedis.Db MemRedis.exec Sample.parse (JStr "redis-contentful")
            (Sample.db_cursor "tok0"))
    = Resolved (Rejected MemRedis.wrongtype).
Proof.
  destruct (custom_store_cursor_key (Sample.remote Sample.response1) Sample.stringify
              Sample.parse Sample.cfg JUndefined (Sample.db_cursor "tok0") eq_refl)
    as [_ [Hdel Hget]].
  split.
  - exact Hdel.
  - apply (Hget "tok0"). reflexivity.
Defined.

Lemma sync_then_get_witness :
  result (get MemRedis.Db MemRedis.exec Sample.parse (JStr "post")
            (store (sync MemRedis.Db MemRedis.exec (Sample.remote Article.response3)
                      Sample.stringify Sample.cfg (JBool true) Sample.db_entries)))
  = Resolved (Resolved (JObj [("post", JArr [JStr "[object Object]"] [])])).
Proof.
  apply (sync_then_get (Sample.remote Article.response3) Sample.stringify Sample.parse
           Sample.cfg (JBool true) Sample.db_entries Article.response3
           [Resolved (JStr "OK"); Resolved (JStr "OK")] "post").
  - reflexivity.
  - reflexivity.
  - reflexivity.
  - repeat constructor; simpl; intros H; not_among H.
  - unfold MemReading.hint. simpl. lia.
  - repeat constructor.
  - repeat constructor; intros _; eexists; reflexivity.
  - reflexivity.
  - reflexivity.
  - reflexivity.
Defined.

Lemma get_pattern_selects_witness :
  MemRedis.matches (scan_pattern (JStr "post") (JStr "Hi")) "post:Hi:E1" = true /\
  MemRedis.matches (scan_pattern (JStr "post") JUndefined) "post:Hi:E1" = true /\
  MemRedis.matches "post:*:*" "post:Hi:E1" = true.
Proof.
  apply (get_pattern_selects Sample.cfg "post" "Hi" Sample.post1);
    try reflexivity; discriminate.
Defined.

Lemma delete_pattern_selects_witness :
  suffix_scan (Sample.deleted "E1") = SCAN "0" "*:*:E1" None /\
  MemRedis.matches "*:*:E1" "post:Hi:E1" = true.
Proof.
  apply (delete_pattern_selects Sample.cfg (Sample.deleted "E1") Sample.post1);
    reflexivity.
Defined.

Lemma sync_keeps_plain_keys_witness :
  assoc "greeting" (store Article.run4) = Some (MemRedis.RString "hello") /\
  assoc "post:Hi:E1" (store Article.run4) = None.
Proof.
  split; [|reflexivity].
  apply (sync_keeps_plain_keys (Sample.remote Article.response4) Sample.stringify
           Sample.cfg JUndefined Article.db_shared "greeting");
    [reflexivity|reflexivity|discriminate].
Defined.
